(** * Static gallery generator: the thumbnail pipeline of generate-gallery.js

    A shallow embedding of the thumbnail pipeline (discovery with size-based
    deduplication, path fingerprint, cache path, video sampling parameters,
    video thumbnail generation with its scratch directory, worker pool), of
    the ordering of the inventory in [main] and of the script of the
    generated page, with the properties its specification states about the
    pipeline and further properties of the code.

    JavaScript data is modelled as follows.
    - A string is the list of its UTF-16 code units ([list Z], each unit in
      [0, 65536)); [str.charCodeAt(i)] is the i-th element, [str.length] the
      length of the list.  [lit "abc"] is the string of an ASCII literal.
    - A Number holding an integer of magnitude below 2^53 is a [Z]; the 32-bit
      operators ([<<], [^], [>>>]) convert their operands with ToInt32 or
      ToUint32, written out below.
    - The file system, the external commands and the scheduler are modelled
      in the sections that use them. *)

From stdpp Require Import base gmap sets list.
From Stdlib Require Import ZArith Lia Ascii String Bool List QArith Qround Lqa Floats
  Sorted.
Import ListNotations.

#[local] Set Warnings "-clear-no-such-hyp".
Local Open Scope Z_scope.

(** ** JavaScript primitives *)

Module JS.

(** The string of an ASCII literal. *)
Definition lit (s : string) : list Z :=
  List.map (fun a => Z.of_nat (nat_of_ascii a)) (list_ascii_of_string s).
Arguments lit s%_string.

(** ToInt32: the value modulo 2^32, read as a signed 32-bit integer
    (2147483648 is 2^31 and 4294967296 is 2^32). *)
Definition ToInt32 (x : Z) : Z := (x + 2147483648) mod 4294967296 - 2147483648.

(** ToUint32, which is what [x >>> 0] computes. *)
Definition ToUint32 (x : Z) : Z := x mod 4294967296.

(** [a << n]: ToInt32 of the left operand, shift count modulo 32, result
    truncated to a signed 32-bit integer. *)
Definition shl (a n : Z) : Z := ToInt32 (Z.shiftl (ToInt32 a) (n mod 32)).

(** [a ^ b] on Numbers. *)
Definition xor (a b : Z) : Z := ToInt32 (Z.lxor (ToInt32 a) (ToInt32 b)).

(** [a >>> 0]. *)
Definition ushr0 (a : Z) : Z := ToUint32 a.

(** The character of a digit below 36: '0'..'9' then 'a'..'z'. *)
Definition digitChar (d : Z) : Z := if d <? 10 then 48 + d else 87 + d.

(** [n.toString(radix)] for a non-negative integer [n] and a radix of at
    least 2: the digits, most significant first, no leading zero, "0" for
    zero.  The fuel is the number of binary digits of [n], which bounds the
    number of digits in any radix. *)
Fixpoint toString_digits (fuel : nat) (radix n : Z) (acc : list Z) : list Z :=
  match fuel with
  | O => acc
  | S k =>
      let acc' := digitChar (n mod radix) :: acc in
      if n / radix =? 0 then acc' else toString_digits k radix (n / radix) acc'
  end.

Definition toString (radix n : Z) : list Z :=
  toString_digits (S (Z.to_nat (Z.log2 n))) radix n [].

(** [s.padStart(targetLength, c)] for a one-character filler [c]. *)
Definition padStart (targetLength : nat) (c : Z) (s : list Z) : list Z :=
  List.repeat c (targetLength - length s)%nat ++ s.

(** [s.slice(from, to)] for [0 <= from <= to]. *)
Definition slice (from to : nat) (s : list Z) : list Z :=
  firstn (to - from)%nat (skipn from s).

(** [s.toLowerCase()].  Only the ASCII letters A-Z are mapped.  The full
    Unicode mapping differs on other code units, but it maps none of them to
    a string that occurs in the extension tables of the program (the Kelvin
    sign becomes k, which occurs in none), so every comparison the program
    makes on a lower-cased extension is decided the same way. *)
Definition lowerUnit (c : Z) : Z :=
  if (65 <=? c) && (c <=? 90) then c + 32 else c.
Definition toLowerCase (s : list Z) : list Z := List.map lowerUnit s.

(** The value of a hexadecimal digit, if the code unit is one. *)
Definition hexValue (c : Z) : option Z :=
  if (48 <=? c) && (c <=? 57) then Some (c - 48)
  else if (97 <=? c) && (c <=? 102) then Some (c - 87)
  else if (65 <=? c) && (c <=? 70) then Some (c - 55)
  else None.

(** [parseInt(s, 16)] on a string that starts with its digits: the value of
    the longest prefix of hexadecimal digits, [None] (NaN) when there is
    none.  The builtin also skips leading white space, a sign and a 0x
    prefix; the program applies it to slices of a fingerprint only, which
    hold none of these. *)
Fixpoint parseHex_from (acc : Z) (s : list Z) : Z :=
  match s with
  | [] => acc
  | c :: rest =>
      match hexValue c with
      | Some d => parseHex_from (acc * 16 + d) rest
      | None => acc
      end
  end.

Definition parseInt16 (s : list Z) : option Z :=
  match s with
  | [] => None
  | c :: _ => match hexValue c with
              | Some _ => Some (parseHex_from 0 s)
              | None => None
              end
  end.

(** String equality as a boolean ([===] on strings). *)
Definition streq (a b : list Z) : bool := bool_decide (a = b).

End JS.

(** ** The fingerprint: [hashPath] *)

(** One loop iteration for one accumulator: [((h << 5) + h) ^ c].  The sum
    of two signed 32-bit values is exact as a Number; [^] truncates it. *)
Definition hash_step (h c : Z) : Z := JS.xor (JS.shl h 5 + h) c.

Fixpoint hashPath_loop (str : list Z) (h1 h2 : Z) : Z * Z :=
  match str with
  | [] => (h1, h2)
  | c :: rest => hashPath_loop rest (hash_step h1 c) (hash_step h2 c)
  end.

Definition hashPath (str : list Z) : list Z :=
  let '(h1, h2) := hashPath_loop str 5381 52711 in
  JS.padStart 8 48 (JS.toString 16 (JS.ushr0 h1)) ++
  JS.padStart 8 48 (JS.toString 16 (JS.ushr0 h2)).

(** The reference definition of the specification, from its words: two 32-bit
    accumulators seeded 5381 and 52711, each updated per character as
    ((acc << 5) + acc) XOR character, truncated to 32 bits after each step,
    rendered as two zero-padded lower-case 8-digit hexadecimal strings,
    accumulator 1 first. *)
Definition fingerprint_step (acc ch : Z) : Z :=
  Z.lxor (Z.shiftl acc 5 + acc) ch mod 2 ^ 32.

Definition hex8 (n : Z) : list Z :=
  List.map (fun i => JS.digitChar (n / 16 ^ i mod 16)) [7; 6; 5; 4; 3; 2; 1; 0].

Definition fingerprint_of (chars : list Z) : list Z :=
  hex8 (fold_left fingerprint_step chars 5381) ++
  hex8 (fold_left fingerprint_step chars 52711).

(** The code points of a string, as the string iterator and [codePointAt]
    read them: a high surrogate followed by a low surrogate is one code
    point above 0xFFFF, every other code unit is its own code point. *)
Definition isHighSurrogate (c : Z) : bool := (0xD800 <=? c) && (c <=? 0xDBFF).
Definition isLowSurrogate (c : Z) : bool := (0xDC00 <=? c) && (c <=? 0xDFFF).

Fixpoint codePoints (s : list Z) : list Z :=
  match s with
  | [] => []
  | hi :: rest =>
      match rest with
      | lo :: rest' =>
          if isHighSurrogate hi && isLowSurrogate lo
          then ((hi - 0xD800) * 0x400 + (lo - 0xDC00) + 0x10000) :: codePoints rest'
          else hi :: codePoints rest
      | [] => [hi]
      end
  end.

(** The reference definition read per code point, as the specification words
    it, and per UTF-16 code unit, as [charCodeAt] reads the string. *)
Definition fingerprint_codepoints (path : list Z) : list Z :=
  fingerprint_of (codePoints path).
Definition fingerprint_units (path : list Z) : list Z :=
  fingerprint_of path.

Definition isLowerHex (c : Z) : Prop := 48 <= c <= 57 \/ 97 <= c <= 102.

(** ** Node's [path] module, POSIX flavour

    [path.extname] and [path.join] are library functions; they are modelled
    from the library's algorithm, for the separator '/'. *)

Module Path.

Definition slash : Z := 47.
Definition dot : Z := 46.

(** State of the right-to-left scan of [extname]. *)
Record ext_state := {
  startDot : Z;
  startPart : Z;
  endPos : Z;
  matchedSlash : bool;
  preDotState : Z;
  stopped : bool
}.

Definition ext_init : ext_state :=
  {| startDot := -1; startPart := 0; endPos := -1; matchedSlash := true;
     preDotState := 0; stopped := false |}.

(** The body of the loop at index [i], whose code unit is [code]. *)
Definition ext_step (st : ext_state) (i code : Z) : ext_state :=
  if stopped st then st
  else if code =? slash then
    if negb (matchedSlash st)
    then {| startDot := startDot st; startPart := i + 1; endPos := endPos st;
            matchedSlash := matchedSlash st; preDotState := preDotState st;
            stopped := true |}
    else st
  else
    let st1 :=
      if endPos st =? -1
      then {| startDot := startDot st; startPart := startPart st; endPos := i + 1;
              matchedSlash := false; preDotState := preDotState st;
              stopped := stopped st |}
      else st in
    if code =? dot then
      if startDot st1 =? -1
      then {| startDot := i; startPart := startPart st1; endPos := endPos st1;
              matchedSlash := matchedSlash st1; preDotState := preDotState st1;
              stopped := stopped st1 |}
      else {| startDot := startDot st1; startPart := startPart st1;
              endPos := endPos st1; matchedSlash := matchedSlash st1;
              preDotState := 1; stopped := stopped st1 |}
    else if negb (startDot st1 =? -1)
    then {| startDot := startDot st1; startPart := startPart st1;
            endPos := endPos st1; matchedSlash := matchedSlash st1;
            preDotState := -1; stopped := stopped st1 |}
    else st1.

(** The loop [for (i = path.length - 1; i >= 0; --i)], over the reversed
    string; [i] is the index of the head of [rev_path]. *)
Fixpoint ext_scan (rev_path : list Z) (i : Z) (st : ext_state) : ext_state :=
  match rev_path with
  | [] => st
  | code :: rest => ext_scan rest (i - 1) (ext_step st i code)
  end.

Definition extname (path : list Z) : list Z :=
  let st := ext_scan (rev path) (Z.of_nat (length path) - 1) ext_init in
  if (startDot st =? -1) || (endPos st =? -1) || (preDotState st =? 0) ||
     ((preDotState st =? 1) && (startDot st =? endPos st - 1) &&
      (startDot st =? startPart st + 1))
  then []
  else JS.slice (Z.to_nat (startDot st)) (Z.to_nat (endPos st)) path.

(** The segments of a path between separators. *)
Fixpoint split (s : list Z) : list (list Z) :=
  match s with
  | [] => [[]]
  | c :: rest =>
      if c =? slash then [] :: split rest
      else match split rest with
           | seg :: segs => (c :: seg) :: segs
           | [] => [[c]]
           end
  end.

(** Segments joined by the separator. *)
Fixpoint unsplit (segs : list (list Z)) : list Z :=
  match segs with
  | [] => []
  | [seg] => seg
  | seg :: rest => seg ++ slash :: unsplit rest
  end.

(** [normalizeString]: empty and "." segments are dropped, ".." removes the
    segment before it, or is kept when there is none to remove and the path
    is relative.  The stack holds the kept segments, last first. *)
Definition norm_step (allowAboveRoot : bool) (stack : list (list Z)) (seg : list Z)
  : list (list Z) :=
  if JS.streq seg [] || JS.streq seg [dot] then stack
  else if JS.streq seg [dot; dot] then
    match stack with
    | top :: below =>
        if JS.streq top [dot; dot] then seg :: stack else below
    | [] => if allowAboveRoot then [seg] else []
    end
  else seg :: stack.

Definition normalizeString (path : list Z) (allowAboveRoot : bool) : list Z :=
  unsplit (rev (fold_left (norm_step allowAboveRoot) (split path) [])).

Definition normalize (path : list Z) : list Z :=
  match path with
  | [] => [dot]
  | first :: _ =>
      let isAbsolute := first =? slash in
      let trailingSeparator := List.last path 0 =? slash in
      let p := normalizeString path (negb isAbsolute) in
      match p with
      | [] => if isAbsolute then [slash]
              else if trailingSeparator then [dot; slash] else [dot]
      | _ => let p' := if trailingSeparator then p ++ [slash] else p in
             if isAbsolute then slash :: p' else p'
      end
  end.

(** [path.join(...args)]: the non-empty arguments joined by '/', then
    normalized; "." when nothing is left. *)
Definition join (args : list (list Z)) : list Z :=
  match List.filter (fun a => negb (JS.streq a [])) args with
  | [] => [dot]
  | parts => normalize (unsplit parts)
  end.

End Path.

(** ** Configuration *)

Definition IMAGE_EXTENSIONS : list (list Z) :=
  [JS.lit ".jpg"; JS.lit ".jpeg"; JS.lit ".png"; JS.lit ".gif"; JS.lit ".webp";
   JS.lit ".bmp"].
Definition VIDEO_EXTENSIONS : list (list Z) := [JS.lit ".mp4"].
Definition MEDIA_EXTENSIONS : list (list Z) := IMAGE_EXTENSIONS ++ VIDEO_EXTENSIONS.
Definition OUTPUT_DATA_FILE : list Z := JS.lit "images-data.js".
Definition OUTPUT_HTML_FILE : list Z := JS.lit "gallery.html".
Definition THUMBNAILS_DIR : list Z := JS.lit "thumbnails".
Definition CONCURRENT_THUMBNAILS : nat := 8.

(** [arr.includes(x)] on an array of strings. *)
Definition includes (arr : list (list Z)) (x : list Z) : bool :=
  existsb (JS.streq x) arr.

(** The [type] field of a media entry: 'image' or 'video'. *)
Inductive media_type := Image | Video.

Definition isVideoType (t : media_type) : bool :=
  match t with Video => true | Image => false end.

(** ** The cache path: [getThumbnailPath] *)

(** [s[i]] as a string: the one-character string at index [i] (the program
    indexes the 16-character fingerprint at 0 and 1 only). *)
Definition charAt (s : list Z) (i : nat) : list Z := firstn 1 (skipn i s).

Definition thumbExt (mediaPath : list Z) (mediaType : media_type) : list Z :=
  let ext := JS.toLowerCase (Path.extname mediaPath) in
  if isVideoType mediaType || JS.streq ext (JS.lit ".gif") then JS.lit ".webp"
  else if JS.streq ext (JS.lit ".png") then JS.lit ".png"
  else JS.lit ".jpg".

Definition getThumbnailPath (mediaPath : list Z) (mediaType : media_type) : list Z :=
  let hash := hashPath mediaPath in
  Path.join [THUMBNAILS_DIR; charAt hash 0; charAt hash 1;
             hash ++ thumbExt mediaPath mediaType].

(** ** Discovery: [findMedia] *)

Record media_entry := {
  path : list Z;
  size : Z;
  type : media_type
}.

(** What [readdirSync(dir, {withFileTypes: true})] and [statSync] see.  A
    regular file carries the size [statSync] returns, or [None] when it
    throws; a directory carries its listing, or [None] when [readdirSync]
    throws on it; any other entry is neither [isDirectory()] nor [isFile()]. *)
#[local] Unset Elimination Schemes.
Inductive dirent :=
| DFile (name : list Z) (stat : option Z)
| DDir (name : list Z) (listing : option (list dirent))
| DOther (name : list Z).
#[local] Set Elimination Schemes.

(** The module-level state of discovery, with the array being filled. *)
Record discovery := {
  seenSizes : gset Z;
  duplicatesSkipped : Z;
  media : list media_entry
}.

Definition discovery_init : discovery :=
  {| seenSizes := ∅; duplicatesSkipped := 0; media := [] |}.

(** The path of an entry relative to the scanned root, which is what
    [path.relative(ROOT_DIR, path.join(dir, entry.name))] returns for the
    names a directory listing holds; [dir] is relative to the root, empty at
    the root itself. *)
Definition relativeChild (dir name : list Z) : list Z :=
  match dir with
  | [] => name
  | _ => dir ++ Path.slash :: name
  end.

Definition isOutputName (name : list Z) : bool :=
  JS.streq name OUTPUT_DATA_FILE || JS.streq name OUTPUT_HTML_FILE ||
  JS.streq name THUMBNAILS_DIR.

(** The branch of the loop body for a regular file. *)
Definition findMedia_file (dir name : list Z) (stat : option Z) (st : discovery)
  : discovery :=
  let ext := JS.toLowerCase (Path.extname name) in
  if includes MEDIA_EXTENSIONS ext then
    match stat with
    | None => st
    | Some sz =>
        if bool_decide (sz ∈ seenSizes st)
        then {| seenSizes := seenSizes st;
                duplicatesSkipped := duplicatesSkipped st + 1;
                media := media st |}
        else {| seenSizes := {[sz]} ∪ seenSizes st;
                duplicatesSkipped := duplicatesSkipped st;
                media := media st ++
                  [{| path := relativeChild dir name; size := sz;
                      type := if includes VIDEO_EXTENSIONS ext then Video else Image |}] |}
    end
  else st.

(** One iteration of the loop over the entries of [dir]; the recursive call
    on a subdirectory runs the same loop over its listing. *)
Fixpoint findMedia_entry (dir : list Z) (entry : dirent) (st : discovery)
  : discovery :=
  match entry with
  | DFile name stat =>
      if isOutputName name then st else findMedia_file dir name stat st
  | DDir name listing =>
      if isOutputName name then st
      else match listing with
           | None => st
           | Some entries =>
               (fix loop (es : list dirent) (st : discovery) : discovery :=
                  match es with
                  | [] => st
                  | e :: rest =>
                      loop rest (findMedia_entry (relativeChild dir name) e st)
                  end) entries st
           end
  | DOther name => st
  end.

Definition findMedia (dir : list Z) (listing : option (list dirent)) (st : discovery)
  : discovery :=
  match listing with
  | None => st
  | Some entries => fold_left (fun st e => findMedia_entry dir e st) entries st
  end.

(** The media files of a tree in the order the scan meets them, before
    deduplication: every regular file with a media extension whose size
    could be read, outside the skipped names. *)
Definition candidate_file (dir name : list Z) (stat : option Z) : list media_entry :=
  let ext := JS.toLowerCase (Path.extname name) in
  if includes MEDIA_EXTENSIONS ext then
    match stat with
    | None => []
    | Some sz =>
        [{| path := relativeChild dir name; size := sz;
            type := if includes VIDEO_EXTENSIONS ext then Video else Image |}]
    end
  else [].

Fixpoint candidates_entry (dir : list Z) (entry : dirent) : list media_entry :=
  match entry with
  | DFile name stat => if isOutputName name then [] else candidate_file dir name stat
  | DDir name listing =>
      if isOutputName name then []
      else match listing with
           | None => []
           | Some entries =>
               (fix loop (es : list dirent) : list media_entry :=
                  match es with
                  | [] => []
                  | e :: rest =>
                      candidates_entry (relativeChild dir name) e ++ loop rest
                  end) entries
           end
  | DOther name => []
  end.

Definition candidates (dir : list Z) (listing : option (list dirent)) : list media_entry :=
  match listing with
  | None => []
  | Some entries => List.flat_map (candidates_entry dir) entries
  end.

(** Keeping the first file of every size: the deduplication rule of the
    specification, over a list of files and the sizes seen before it. *)
Fixpoint firstOfEachSize (seen : gset Z) (files : list media_entry) : list media_entry :=
  match files with
  | [] => []
  | f :: rest =>
      if bool_decide (size f ∈ seen) then firstOfEachSize seen rest
      else f :: firstOfEachSize ({[size f]} ∪ seen) rest
  end.

(** ** Video sampling parameters *)

Definition baseSegmentCount (hash : list Z) : option Z :=
  option_map (fun v => v mod 4 + 7) (JS.parseInt16 (JS.slice 0 2 hash)).

Definition framesPerSegment (hash : list Z) : option Z :=
  option_map (fun v => v mod 11 + 10) (JS.parseInt16 (JS.slice 2 4 hash)).

(** [Math.min(baseSegmentCount, Math.max(1, Math.floor(duration)))].  The
    duration is the exact rational value of the probed Number; floor, max
    and min are exact on it. *)
Definition segmentCount (base : Z) (duration : Q) : Z :=
  Z.min base (Z.max 1 (Qfloor duration)).


(** The indices [0, 1, ..., n-1] of a counting loop. *)
Definition indices (n : Z) : list Z := List.map Z.of_nat (seq 0 (Z.to_nat n)).

(** The name of scratch frame number [frameIndex]:
    [`frame_${frameIndex.toString().padStart(3, '0')}.png`]. *)
Definition frameName (frameIndex : Z) : list Z :=
  JS.lit "frame_" ++ JS.padStart 3 48 (JS.toString 10 frameIndex) ++ JS.lit ".png".

(** Lexicographic order of strings by code unit, the order of [<] on
    JavaScript strings and of a sorted directory listing. *)
Fixpoint str_ltb (a b : list Z) : bool :=
  match a, b with
  | _, [] => false
  | [], _ :: _ => true
  | x :: a', y :: b' => (x <? y) || ((x =? y) && str_ltb a' b')
  end.

(** ** Segment timestamps *)

(** The timestamps as the program computes them, in IEEE-754 binary64
    (primitive floats are the same format as JavaScript Numbers; the
    literals are the doubles nearest to 0.05 and 0.95). *)
Module Timestamps.

Definition ofZ (z : Z) : float := PrimFloat.of_uint63 (Uint63.of_Z z).

Definition startOffset (duration : float) : float :=
  (duration * 0x1.999999999999ap-5)%float.
Definition endOffset (duration : float) : float :=
  (duration * 0x1.e666666666666p-1)%float.
Definition usableDuration (duration : float) : float :=
  (endOffset duration - startOffset duration)%float.
Definition interval (duration : float) (segmentCount : Z) : float :=
  (usableDuration duration / ofZ (Z.max 1 (segmentCount - 1)))%float.
Definition segmentTimestamps (duration : float) (segmentCount : Z) : list float :=
  List.map (fun i => (startOffset duration + ofZ i * interval duration segmentCount)%float)
           (indices segmentCount).

End Timestamps.

(** The same formulas in exact rational arithmetic, with 0.05 and 0.95 the
    rationals 1/20 and 19/20. *)
Module ExactTimestamps.

Definition startOffset (duration : Q) : Q := (duration * (1 # 20))%Q.
Definition endOffset (duration : Q) : Q := (duration * (19 # 20))%Q.
Definition usableDuration (duration : Q) : Q :=
  (endOffset duration - startOffset duration)%Q.
Definition interval (duration : Q) (segmentCount : Z) : Q :=
  (usableDuration duration / inject_Z (Z.max 1 (segmentCount - 1)))%Q.
Definition timestamp (duration : Q) (segmentCount i : Z) : Q :=
  (startOffset duration + inject_Z i * interval duration segmentCount)%Q.
Definition segmentTimestamps (duration : Q) (segmentCount : Z) : list Q :=
  List.map (timestamp duration segmentCount) (indices segmentCount).

End ExactTimestamps.

(** ** The outside world: cache, scratch area, external commands

    [cache] is the set of paths at which a file exists in the gallery
    tree, which is what [fs.existsSync(thumbPath)] consults.  [scratch] is
    the scratch area: the directories [mkdtempSync] made, each with the
    names of the files inside it; it is kept apart from the cache, a scratch
    directory under [os.tmpdir()] never being a thumbnail directory.
    [trace] lists the external commands run, in order. *)

Inductive encoder := EncWebp | EncPng | EncJpeg.

Inductive command :=
| CmdProbe (videoPath : list Z)
| CmdExtract (seg f : Z) (tempDir frame : list Z)
| CmdAssemble (tempDir outputPath : list Z)
| CmdEncode (enc : encoder) (inputPath outputPath : list Z).

Record world := {
  cache : gset (list Z);
  scratch : gmap (list Z) (gset (list Z));
  trace : list command
}.

(** How a subprocess or an encoder ends: with success, its output file
    written; or with a failure (non-zero exit, time-out, decode error),
    having left a file at its output path or not. *)
Inductive exec_outcome := ExecOk | ExecFail (outputLeft : bool).

(** What the world answers during one call of [generateVideoThumbnail]: the
    Number [getVideoDuration] parses ([None] when ffprobe fails or prints no
    number), the directory [mkdtempSync] returns, the end of each frame
    extraction by frame index, and the end of the assembly. *)
Record video_oracle := {
  probe : option Q;
  tempDirName : list Z;
  frame_exec : Z -> exec_outcome;
  assemble_exec : exec_outcome
}.

Inductive error := DurationUnavailable | CommandFailed | FsError.

Inductive result (A : Type) :=
| Returned (a : A)
| Thrown (e : error).
Arguments Returned {A} a.
Arguments Thrown {A} e.

(** Computations that read and change the world and may throw. *)
Definition io (A : Type) : Type := world -> result A * world.

Definition ret {A} (a : A) : io A := fun w => (Returned a, w).
Definition throw {A} (e : error) : io A := fun w => (Thrown e, w).
Definition bind {A B} (m : io A) (k : A -> io B) : io B :=
  fun w => match m w with
           | (Returned a, w') => k a w'
           | (Thrown e, w') => (Thrown e, w')
           end.

Notation "x <- m ;; k" := (bind m (fun x => k))
  (at level 100, m at next level, right associativity).
Notation "m ;; k" := (bind m (fun _ => k))
  (at level 100, right associativity).

(** [try { body } finally { fin }]: [fin] runs on every exit of [body]; the
    statement ends as [body] did unless [fin] itself throws. *)
Definition try_finally {A} (body : io A) (fin : io unit) : io A :=
  fun w => let '(r, w1) := body w in
           match fin w1 with
           | (Returned _, w2) => (r, w2)
           | (Thrown e, w2) => (Thrown e, w2)
           end.

(** [try { body } catch { handler }]. *)
Definition try_catch {A} (body : io A) (handler : io A) : io A :=
  fun w => match body w with
           | (Thrown _, w1) => handler w1
           | (Returned a, w1) => (Returned a, w1)
           end.

Definition set_cache (c : gset (list Z)) (w : world) : world :=
  {| cache := c; scratch := scratch w; trace := trace w |}.
Definition set_scratch (s : gmap (list Z) (gset (list Z))) (w : world) : world :=
  {| cache := cache w; scratch := s; trace := trace w |}.

Definition emit (c : command) : io unit :=
  fun w => (Returned tt, {| cache := cache w; scratch := scratch w;
                            trace := trace w ++ [c] |}).

Definition existsSync (p : list Z) (w : world) : bool := bool_decide (p ∈ cache w).

(** [fs.mkdtempSync]: a new, empty directory; a name already taken is not
    one [mkdtempSync] returns, and the call throws there. *)
Definition mkdtempSync (o : video_oracle) : io (list Z) :=
  fun w => match scratch w !! tempDirName o with
           | Some _ => (Thrown FsError, w)
           | None => (Returned (tempDirName o),
                      set_scratch (<[tempDirName o := ∅]> (scratch w)) w)
           end.

Definition readdirSync (dir : list Z) : io (list (list Z)) :=
  fun w => match scratch w !! dir with
           | Some files => (Returned (elements files), w)
           | None => (Thrown FsError, w)
           end.

Definition unlinkSync (dir name : list Z) : io unit :=
  fun w => match scratch w !! dir with
           | Some files =>
               if bool_decide (name ∈ files)
               then (Returned tt, set_scratch (<[dir := files ∖ {[name]}]> (scratch w)) w)
               else (Thrown FsError, w)
           | None => (Thrown FsError, w)
           end.

Definition rmdirSync (dir : list Z) : io unit :=
  fun w => match scratch w !! dir with
           | Some files =>
               if bool_decide (files = ∅)
               then (Returned tt, set_scratch (delete dir (scratch w)) w)
               else (Thrown FsError, w)
           | None => (Thrown FsError, w)
           end.

(** A file appearing in a scratch directory (nothing when there is no such
    directory), and at a path of the gallery tree. *)
Definition write_scratch (dir name : list Z) (w : world) : world :=
  match scratch w !! dir with
  | Some files => set_scratch (<[dir := {[name]} ∪ files]> (scratch w)) w
  | None => w
  end.
Definition write_cache (p : list Z) (w : world) : world :=
  set_cache ({[p]} ∪ cache w) w.

(** [execSync] of a command with one output file: the output is written on
    success, written or not on failure, and a failure throws. *)
Definition execSync (out : exec_outcome) (write : world -> world) : io unit :=
  fun w => match out with
           | ExecOk => (Returned tt, write w)
           | ExecFail outputLeft => (Thrown CommandFailed, if outputLeft then write w else w)
           end.

(** ** [getVideoDuration] and [generateVideoThumbnail] *)

Definition getVideoDuration (videoPath : list Z) (o : video_oracle) : io (option Q) :=
  emit (CmdProbe videoPath) ;;
  ret (match probe o with
       | Some duration => if Qle_bool duration 0 then None else Some duration
       | None => None
       end).

(** The inner loop: the frames [fs] of segment [seg], numbered from
    [frameIndex]; returns the next frame index. *)
Fixpoint extractFrames (tempDir : list Z) (o : video_oracle) (seg : Z)
    (fs : list Z) (frameIndex : Z) : io Z :=
  match fs with
  | [] => ret frameIndex
  | f :: rest =>
      emit (CmdExtract seg f tempDir (frameName frameIndex)) ;;
      execSync (frame_exec o frameIndex) (write_scratch tempDir (frameName frameIndex)) ;;
      extractFrames tempDir o seg rest (frameIndex + 1)
  end.

(** The outer loop over the segments. *)
Fixpoint extractSegments (tempDir : list Z) (o : video_oracle) (frames : Z)
    (segs : list Z) (frameIndex : Z) : io Z :=
  match segs with
  | [] => ret frameIndex
  | seg :: rest =>
      next <- extractFrames tempDir o seg (indices frames) frameIndex ;;
      extractSegments tempDir o frames rest next
  end.

Fixpoint unlinkAll (tempDir : list Z) (frames : list (list Z)) : io unit :=
  match frames with
  | [] => ret tt
  | frame :: rest => unlinkSync tempDir frame ;; unlinkAll tempDir rest
  end.

(** The [finally] block: the cleanup, its own errors ignored. *)
Definition cleanup (tempDir : list Z) : io unit :=
  try_catch
    (frames <- readdirSync tempDir ;;
     unlinkAll tempDir frames ;;
     rmdirSync tempDir)
    (ret tt).

(** The sampling shape of a video: frames per segment and segment count.  A
    fingerprint slice that held no digit would make both NaN, and a loop
    bounded by NaN runs no iteration. *)
Definition videoFrames (videoPath : list Z) : Z :=
  match framesPerSegment (hashPath videoPath) with Some n => n | None => 0 end.
Definition videoSegments (videoPath : list Z) (duration : Q) : Z :=
  match baseSegmentCount (hashPath videoPath) with
  | Some base => segmentCount base duration
  | None => 0
  end.

Definition generateVideoThumbnail (videoPath outputPath : list Z) (o : video_oracle)
  : io unit :=
  duration <- getVideoDuration videoPath o ;;
  match duration with
  | None => throw DurationUnavailable
  | Some duration =>
      tempDir <- mkdtempSync o ;;
      try_finally
        (extractSegments tempDir o (videoFrames videoPath)
           (indices (videoSegments videoPath duration)) 0 ;;
         emit (CmdAssemble tempDir outputPath) ;;
         execSync (assemble_exec o) (write_cache outputPath))
        (cleanup tempDir)
  end.

(** ** The worker pool: [generateThumbnails] and [processOne] *)

(** The terminal outcome of a task. *)
Inductive outcome := Generated | SkippedCacheHit | SkippedNoDecoder | Failed.

(** A worker is one call of [processOne]: at the head of its loop, suspended
    on [await] for a video (whose generation, made of synchronous
    subprocess calls, has already run and ended with [r]) or for an image
    (whose encoder is running), or returned. *)
Inductive worker :=
| AtLoopHead
| AwaitingVideo (item : media_entry) (r : result unit)
| AwaitingImage (item : media_entry)
| Finished.

(** The state of [generateThumbnails]: the shared queue and counters, the
    workers, the world, and whether a worker has thrown (which rejects
    [Promise.all] and ends the program).  [outcomes] records, for the
    statement of properties only, which worker ended which task how. *)
Record pool := {
  queue : list media_entry;
  completed : Z;
  skipped : Z;
  failed : Z;
  workers : list worker;
  env : world;
  rejected : bool;
  outcomes : list (nat * media_entry * outcome)
}.

(** What the world answers when a worker runs: whether the thumbnail
    directory exists or can be made, the answers to a video generation, and
    the end of an image encoding. *)
Record oracle := {
  mkdir_ok : bool;
  video : video_oracle;
  encode_exec : exec_outcome
}.

Definition imageEncoder (itemPath : list Z) : encoder :=
  let ext := JS.toLowerCase (Path.extname itemPath) in
  if JS.streq ext (JS.lit ".gif") then EncWebp
  else if JS.streq ext (JS.lit ".png") then EncPng
  else EncJpeg.

Section Pool.

(** The directory the program runs in, and whether ffmpeg answered the
    version query made once before the workers start. *)
Variable ROOT_DIR : list Z.
Variable hasFfmpeg : bool.

Definition thumbPathOf (item : media_entry) : list Z :=
  Path.join [ROOT_DIR; getThumbnailPath (path item) (type item)].
Definition inputPathOf (item : media_entry) : list Z :=
  Path.join [ROOT_DIR; path item].

(** A task ends: the counters move and the worker is back at its loop head. *)
Definition settle (i : nat) (item : media_entry) (out : outcome) (w : world)
    (p : pool) : pool :=
  {| queue := queue p;
     completed := completed p + 1;
     skipped := match out with
                | SkippedCacheHit | SkippedNoDecoder => skipped p + 1
                | _ => skipped p
                end;
     failed := match out with Failed => failed p + 1 | _ => failed p end;
     workers := <[i := AtLoopHead]> (workers p);
     env := w;
     rejected := rejected p;
     outcomes := outcomes p ++ [(i, item, out)] |}.

Definition suspend (i : nat) (wk : worker) (w : world) (p : pool) : pool :=
  {| queue := queue p; completed := completed p; skipped := skipped p;
     failed := failed p; workers := <[i := wk]> (workers p); env := w;
     rejected := rejected p; outcomes := outcomes p |}.

Definition dequeue (p : pool) : pool :=
  {| queue := List.tl (queue p); completed := completed p; skipped := skipped p;
     failed := failed p; workers := workers p; env := env p;
     rejected := rejected p; outcomes := outcomes p |}.

Definition reject (p : pool) : pool :=
  {| queue := queue p; completed := completed p; skipped := skipped p;
     failed := failed p; workers := workers p; env := env p;
     rejected := true; outcomes := outcomes p |}.

(** Worker [i] runs from where it stands to its next suspension point: one
    pass of the [while] loop of [processOne] up to its [continue], [await]
    or exit, or the rest of the pass after the awaited promise settled. *)
Definition step (i : nat) (o : oracle) (p : pool) : option pool :=
  if rejected p then None
  else
    match workers p !! i with
    | None | Some Finished => None
    | Some AtLoopHead =>
        match queue p with
        | [] => Some (suspend i Finished (env p) p)
        | item :: _ =>
            let p := dequeue p in
            let thumbPath := thumbPathOf item in
            if existsSync thumbPath (env p)
            then Some (settle i item SkippedCacheHit (env p) p)
            else if isVideoType (type item) && negb hasFfmpeg
            then Some (settle i item SkippedNoDecoder (env p) p)
            else if negb (mkdir_ok o) then Some (reject p)
            else if isVideoType (type item) then
              let '(r, w) :=
                generateVideoThumbnail (inputPathOf item) thumbPath (video o) (env p) in
              Some (suspend i (AwaitingVideo item r) w p)
            else
              let '(_, w) :=
                emit (CmdEncode (imageEncoder (path item)) (inputPathOf item) thumbPath)
                     (env p) in
              Some (suspend i (AwaitingImage item) w p)
        end
    | Some (AwaitingVideo item r) =>
        match r with
        | Returned _ => Some (settle i item Generated (env p) p)
        | Thrown _ => Some (settle i item Failed (env p) p)
        end
    | Some (AwaitingImage item) =>
        match execSync (encode_exec o) (write_cache (thumbPathOf item)) (env p) with
        | (Returned _, w) => Some (settle i item Generated w p)
        | (Thrown _, w) => Some (settle i item Failed w p)
        end
    end.

(** A schedule: which worker runs next, with the world's answers. *)
Fixpoint run (schedule : list (nat * oracle)) (p : pool) : option pool :=
  match schedule with
  | [] => Some p
  | (i, o) :: rest =>
      match step i o p with
      | Some p' => run rest p'
      | None => None
      end
  end.

End Pool.

(** The pool as [generateThumbnails] starts it: the queue is a copy of the
    inventory, the counters are zero, [n] workers stand at their loop head
    (the program starts [CONCURRENT_THUMBNAILS] of them). *)
Definition pool_init (mediaList : list media_entry) (n : nat) (w : world) : pool :=
  {| queue := mediaList; completed := 0; skipped := 0; failed := 0;
     workers := replicate n AtLoopHead; env := w; rejected := false;
     outcomes := [] |}.

(** [Promise.all(workers)] has resolved: every worker returned. *)
Definition drained (p : pool) : Prop :=
  rejected p = false /\ Forall (fun wk => wk = Finished) (workers p).

(** The count printed as Generated. *)
Definition generated (p : pool) : Z := completed p - skipped p - failed p.

Definition isSkipped (out : outcome) : bool :=
  match out with SkippedCacheHit | SkippedNoDecoder => true | _ => false end.
Definition isGenerated (out : outcome) : bool :=
  match out with Generated => true | _ => false end.
Definition isFailed (out : outcome) : bool :=
  match out with Failed => true | _ => false end.

(** The number of recorded outcomes of a kind. *)
Definition count_outcomes (f : outcome -> bool) (p : pool) : Z :=
  Z.of_nat (length (List.filter (fun e => f (snd e)) (outcomes p))).

(** The frame names of the extraction commands of a trace, in order. *)
Definition extractedFrame (c : command) : option (list Z) :=
  match c with
  | CmdExtract _ _ _ frame => Some frame
  | _ => None
  end.
Definition extractedFrames (cmds : list command) : list (list Z) :=
  omap extractedFrame cmds.

Definition isAssemble (c : command) : bool :=
  match c with
  | CmdAssemble _ _ => true
  | _ => false
  end.

(** The consecutive numbers [k, k+1, ..., k+n-1]. *)
Definition range (k n : Z) : list Z := List.map (fun i => k + i) (indices n).

(** The entries of the tasks in flight: claimed by a worker, not yet ended. *)
Definition awaited (wk : worker) : list media_entry :=
  match wk with
  | AwaitingVideo item _ | AwaitingImage item => [item]
  | AtLoopHead | Finished => []
  end.
Definition inFlight (ws : list worker) : list media_entry := List.flat_map awaited ws.

(** The entry of a recorded outcome. *)
Definition outcomeEntry (e : nat * media_entry * outcome) : media_entry := snd (fst e).

Section Transitions.

Variable ROOT_DIR : list Z.
Variable hasFfmpeg : bool.

(** The moves of the pool, one constructor for each way through [step]. *)
Inductive transition (i : nat) (o : oracle) (p : pool) : pool -> Prop :=
| TFinish :
    workers p !! i = Some AtLoopHead -> queue p = [] ->
    transition i o p (suspend i Finished (env p) p)
| TCacheHit item rest :
    workers p !! i = Some AtLoopHead -> queue p = item :: rest ->
    existsSync (thumbPathOf ROOT_DIR item) (env p) = true ->
    transition i o p (settle i item SkippedCacheHit (env p) (dequeue p))
| TNoDecoder item rest :
    workers p !! i = Some AtLoopHead -> queue p = item :: rest ->
    existsSync (thumbPathOf ROOT_DIR item) (env p) = false ->
    type item = Video -> hasFfmpeg = false ->
    transition i o p (settle i item SkippedNoDecoder (env p) (dequeue p))
| TMkdirThrows item rest :
    workers p !! i = Some AtLoopHead -> queue p = item :: rest ->
    existsSync (thumbPathOf ROOT_DIR item) (env p) = false ->
    mkdir_ok o = false ->
    transition i o p (reject (dequeue p))
| TVideo item rest :
    workers p !! i = Some AtLoopHead -> queue p = item :: rest ->
    existsSync (thumbPathOf ROOT_DIR item) (env p) = false ->
    type item = Video -> hasFfmpeg = true -> mkdir_ok o = true ->
    let out := generateVideoThumbnail (inputPathOf ROOT_DIR item)
                 (thumbPathOf ROOT_DIR item) (video o) (env p) in
    transition i o p (suspend i (AwaitingVideo item (fst out)) (snd out) (dequeue p))
| TImage item rest :
    workers p !! i = Some AtLoopHead -> queue p = item :: rest ->
    existsSync (thumbPathOf ROOT_DIR item) (env p) = false ->
    type item = Image -> mkdir_ok o = true ->
    let w := snd (emit (CmdEncode (imageEncoder (path item)) (inputPathOf ROOT_DIR item)
                          (thumbPathOf ROOT_DIR item)) (env p)) in
    transition i o p (suspend i (AwaitingImage item) w (dequeue p))
| TVideoSettled item r :
    workers p !! i = Some (AwaitingVideo item r) ->
    transition i o p
      (settle i item (match r with Returned _ => Generated | Thrown _ => Failed end)
              (env p) p)
| TImageSettled item :
    workers p !! i = Some (AwaitingImage item) ->
    let out := execSync (encode_exec o) (write_cache (thumbPathOf ROOT_DIR item)) (env p) in
    transition i o p
      (settle i item (match fst out with Returned _ => Generated | Thrown _ => Failed end)
              (snd out) p).

End Transitions.

(** ** More JavaScript builtins: arrays, indices, integer quotients *)

Module Builtin.

(** The relative index of [slice]: a negative index counts from the end,
    and the result is clamped to [0, len]. *)
Definition clampIndex (len i : Z) : Z :=
  if i <? 0 then Z.max (len + i) 0 else Z.min i len.

(** [arr.slice(start, end)], on arrays and on strings alike. *)
Definition slice {A} (start stop : Z) (l : list A) : list A :=
  let len := Z.of_nat (length l) in
  let k := clampIndex len start in
  let final := clampIndex len stop in
  firstn (Z.to_nat (final - k)) (skipn (Z.to_nat k) l).

(** [str.slice(start)]: the end defaults to the length. *)
Definition sliceFrom {A} (start : Z) (l : list A) : list A :=
  slice start (Z.of_nat (length l)) l.

(** [str.lastIndexOf(c)] for a one-character [c]: the index of its last
    occurrence, -1 when there is none. *)
Fixpoint lastIndexOf (c : Z) (s : list Z) : Z :=
  match s with
  | [] => -1
  | x :: rest =>
      let r := lastIndexOf c rest in
      if r =? -1 then (if x =? c then 0 else -1) else r + 1
  end.

(** [arr[i]]: [None] stands for [undefined]. *)
Definition index {A} (l : list A) (i : Z) : option A :=
  if i <? 0 then None else nth_error l (Z.to_nat i).

(** [Math.floor(a / b)] and [Math.ceil(a / b)] on integer Numbers: the
    quotient is a real number, rounded down or up.  (The double nearest to
    the quotient of two integers below 2^53 rounds to the same integer.) *)
Definition floorDiv (a b : Z) : Z := Qfloor (inject_Z a / inject_Z b).
Definition ceilDiv (a b : Z) : Z := Qceiling (inject_Z a / inject_Z b).

(** [a % b]: the remainder has the sign of the dividend. *)
Definition rem (a b : Z) : Z := Z.rem a b.

(** [arr.sort(comparefn)]: a stable sort; an element goes before the
    elements it does not compare greater than.  The engine chooses the
    algorithm, and every stable sort returns the same array when the
    comparator is a consistent order; the model inserts from the right. *)
Fixpoint insertSorted {A} (comparefn : A -> A -> Z) (x : A) (sorted : list A) : list A :=
  match sorted with
  | [] => [x]
  | y :: rest =>
      if comparefn x y <=? 0 then x :: sorted else y :: insertSorted comparefn x rest
  end.

Definition sort {A} (comparefn : A -> A -> Z) (arr : list A) : list A :=
  fold_right (insertSorted comparefn) [] arr.

End Builtin.

(** ** [main]: the inventory handed to the page and to the pool *)

Definition IMAGES_PER_PAGE : Z := 15.

(** The comparator of [media.sort((a, b) => b.size - a.size)]. *)
Definition bySizeDescending (a b : media_entry) : Z := size b - size a.

(** The array [main] builds: the files [findMedia] found from the root,
    sorted by size, largest first.  It is written into images-data.js as
    [IMAGES] and handed to [generateThumbnails]. *)
Definition mainInventory (listing : option (list dirent)) : list media_entry :=
  Builtin.sort bySizeDescending (media (findMedia [] listing discovery_init)).

(** The page count [main] prints. *)
Definition mainTotalPages (mediaList : list media_entry) : Z :=
  Builtin.ceilDiv (Z.of_nat (length mediaList)) IMAGES_PER_PAGE.

(** ** The seek time of every frame

    [frameTime = timestamp + (f / 30)], in the doubles of the program and in
    exact arithmetic. *)
Module FrameTimes.

Definition frameTime (duration : float) (segmentCount seg f : Z) : float :=
  (nth (Z.to_nat seg) (Timestamps.segmentTimestamps duration segmentCount) nan
   + Timestamps.ofZ f / Timestamps.ofZ 30)%float.


End FrameTimes.

(** ** The script of the generated page

    [generateHtmlFile] writes a page whose script pages through [IMAGES],
    moves a cursor over the thumbnails and opens a lightbox.  The script is
    modelled as a state machine over its five variables; what it draws is a
    function of them ([renderGallery] and [updateCursor] run after every
    change of the page and of the cursor). *)
Module Page.

(** [getThumbnailPath] of the page, which has no [path] module. *)
Definition thumbExt (mediaPath : list Z) (mediaType : media_type) : list Z :=
  let ext := JS.toLowerCase
               (Builtin.sliceFrom (Builtin.lastIndexOf Path.dot mediaPath) mediaPath) in
  if isVideoType mediaType || JS.streq ext (JS.lit ".gif") then JS.lit ".webp"
  else if JS.streq ext (JS.lit ".png") then JS.lit ".png"
  else JS.lit ".jpg".

Definition getThumbnailPath (mediaPath : list Z) (mediaType : media_type) : list Z :=
  let hash := hashPath mediaPath in
  JS.lit "thumbnails/" ++ charAt hash 0 ++ JS.lit "/" ++ charAt hash 1 ++ JS.lit "/" ++
  hash ++ thumbExt mediaPath mediaType.

Record view := {
  currentPage : Z;
  currentLightboxIndex : Z;
  lightboxActive : bool;
  cursorIndex : Z;
  lastCursorPos : Z
}.

Definition initial : view :=
  {| currentPage := 0; currentLightboxIndex := -1; lightboxActive := false;
     cursorIndex := -1; lastCursorPos := 0 |}.

Definition setPage (page : Z) (v : view) : view :=
  {| currentPage := page; currentLightboxIndex := currentLightboxIndex v;
     lightboxActive := lightboxActive v; cursorIndex := cursorIndex v;
     lastCursorPos := lastCursorPos v |}.
Definition setCursor (cursor : Z) (v : view) : view :=
  {| currentPage := currentPage v; currentLightboxIndex := currentLightboxIndex v;
     lightboxActive := lightboxActive v; cursorIndex := cursor;
     lastCursorPos := lastCursorPos v |}.
Definition setLastCursorPos (pos : Z) (v : view) : view :=
  {| currentPage := currentPage v; currentLightboxIndex := currentLightboxIndex v;
     lightboxActive := lightboxActive v; cursorIndex := cursorIndex v;
     lastCursorPos := pos |}.
Definition setLightbox (index : Z) (active : bool) (v : view) : view :=
  {| currentPage := currentPage v; currentLightboxIndex := index;
     lightboxActive := active; cursorIndex := cursorIndex v;
     lastCursorPos := lastCursorPos v |}.

Inductive key :=
| Escape | ArrowRight | ArrowLeft | ArrowDown | ArrowUp | Space | Enter | OtherKey.

Definition isArrow (k : key) : bool :=
  match k with
  | ArrowRight | ArrowLeft | ArrowDown | ArrowUp => true
  | _ => false
  end.

(** What the user does.  A key press carries the key, the shift state, and
    the [offsetTop] of the thumbnails drawn, which [getGridColumns] reads.
    A click on a thumbnail carries its position on the page drawn. *)
Inductive event :=
| KeyDown (k : key) (shiftKey : bool) (offsetTops : list Z)
| ClickPrev
| ClickNext
| ClickThumbnail (i : nat)
| ClickClose
| ClickBackdrop
| ClickLightboxPrev
| ClickLightboxNext.

(** [getGridColumns]: the index of the first thumbnail that is not on the
    row of the first one. *)
Fixpoint firstOffRow (firstTop : Z) (rest : list Z) (i : Z) : option Z :=
  match rest with
  | [] => None
  | top :: rest' =>
      if top =? firstTop then firstOffRow firstTop rest' (i + 1) else Some i
  end.

Definition getGridColumns (offsetTops : list Z) : Z :=
  match offsetTops with
  | [] | [_] => 1
  | firstTop :: rest =>
      match firstOffRow firstTop rest 1 with
      | Some i => i
      | None => Z.of_nat (length offsetTops)
      end
  end.

Section Script.

(** The array of images-data.js. *)
Variable IMAGES : list media_entry.

Definition imagesLength : Z := Z.of_nat (length IMAGES).

Definition totalPages : Z := Builtin.ceilDiv imagesLength IMAGES_PER_PAGE.

(** The entries [renderGallery] draws. *)
Definition pageStart (page : Z) : Z := page * IMAGES_PER_PAGE.
Definition pageEnd (page : Z) : Z :=
  Z.min (pageStart page + IMAGES_PER_PAGE) imagesLength.
Definition pageMedia (page : Z) : list media_entry :=
  Builtin.slice (pageStart page) (pageEnd page) IMAGES.

Definition nextPage (v : view) : view :=
  if currentPage v <? totalPages - 1 then setPage (currentPage v + 1) v else v.

Definition prevPage (v : view) : view :=
  if currentPage v >? 0 then setPage (currentPage v - 1) v else v.

(** [updateLightbox] reads [IMAGES[currentLightboxIndex].type]; on an
    index outside the array the read of [.type] throws, which is [None]. *)
Definition updateLightbox (v : view) : option view :=
  match Builtin.index IMAGES (currentLightboxIndex v) with
  | Some _ => Some v
  | None => None
  end.

Definition openLightbox (index : Z) (v : view) : option view :=
  updateLightbox (setLightbox index true v).

Definition closeLightbox (v : view) : view :=
  setLightbox (currentLightboxIndex v) false v.

Definition lightboxNext (v : view) : option view :=
  if currentLightboxIndex v <? imagesLength - 1
  then updateLightbox (setLightbox (currentLightboxIndex v + 1) (lightboxActive v) v)
  else Some v.

Definition lightboxPrev (v : view) : option view :=
  if currentLightboxIndex v >? 0
  then updateLightbox (setLightbox (currentLightboxIndex v - 1) (lightboxActive v) v)
  else Some v.

(** [moveCursor].  The step is looked up by key; for a key that is no
    arrow the lookup gives [undefined], the sum is NaN and both comparisons
    fail. *)
Definition moveCursor (k : key) (offsetTops : list Z) (v : view) : view :=
  let cols := getGridColumns offsetTops in
  let delta := match k with
               | ArrowRight => Some 1
               | ArrowLeft => Some (-1)
               | ArrowDown => Some cols
               | ArrowUp => Some (- cols)
               | _ => None
               end in
  match delta with
  | None => v
  | Some delta =>
      let next := cursorIndex v + delta in
      if (next >=? 0) && (next <? imagesLength) then
        let v := setCursor next v in
        let targetPage := Builtin.floorDiv (cursorIndex v) IMAGES_PER_PAGE in
        if negb (targetPage =? currentPage v) then setPage targetPage v else v
      else v
  end.

(** The [keydown] listener. *)
Definition keydown (k : key) (shiftKey : bool) (offsetTops : list Z) (v : view)
  : option view :=
  if lightboxActive v then
    match k with
    | Escape => Some (closeLightbox v)
    | ArrowRight => lightboxNext v
    | ArrowLeft => lightboxPrev v
    | _ => Some v
    end
  else if shiftKey && match k with ArrowLeft | ArrowRight => true | _ => false end then
    let oldPage := currentPage v in
    let v := match k with ArrowRight => nextPage v | _ => prevPage v end in
    if (cursorIndex v >=? 0) && negb (currentPage v =? oldPage) then
      let posInPage := Builtin.rem (cursorIndex v) IMAGES_PER_PAGE in
      Some (setCursor (Z.min (currentPage v * IMAGES_PER_PAGE + posInPage)
                             (imagesLength - 1)) v)
    else Some v
  else if isArrow k then
    if cursorIndex v <? 0 then
      Some (setCursor (Z.min (currentPage v * IMAGES_PER_PAGE + lastCursorPos v)
                             (imagesLength - 1)) v)
    else Some (moveCursor k offsetTops v)
  else if match k with Escape => true | _ => false end && (cursorIndex v >=? 0) then
    Some (setCursor (-1)
            (setLastCursorPos (Builtin.rem (cursorIndex v) IMAGES_PER_PAGE) v))
  else if match k with Enter => true | _ => false end && (cursorIndex v >=? 0) then
    openLightbox (cursorIndex v) v
  else Some v.

(** One event.  The thumbnails that can be clicked are those of the page
    drawn, the i-th calling [openLightbox(start + i)]; a click where no
    thumbnail is drawn has no listener. *)
Definition handle (e : event) (v : view) : option view :=
  match e with
  | KeyDown k shiftKey offsetTops => keydown k shiftKey offsetTops v
  | ClickPrev => Some (prevPage v)
  | ClickNext => Some (nextPage v)
  | ClickThumbnail i =>
      if (i <? length (pageMedia (currentPage v)))%nat
      then openLightbox (pageStart (currentPage v) + Z.of_nat i) v
      else Some v
  | ClickClose | ClickBackdrop => Some (closeLightbox v)
  | ClickLightboxPrev => lightboxPrev v
  | ClickLightboxNext => lightboxNext v
  end.

Fixpoint handleAll (events : list event) (v : view) : option view :=
  match events with
  | [] => Some v
  | e :: rest =>
      match handle e v with
      | Some v' => handleAll rest v'
      | None => None
      end
  end.

End Script.

End Page.

(** ** Sample inputs, used where a property is shown at a concrete run *)

Definition emptyWorld : world := {| cache := ∅; scratch := ∅; trace := [] |}.

(** A world that answers every probe with 3.5 seconds and extracts every
    frame; the assembly ends as given. *)
Definition sampleVideoOracle (assembly : exec_outcome) : video_oracle :=
  {| probe := Some (7 # 2);
     tempDirName := JS.lit "/tmp/video-thumb-Ab3xYz";
     frame_exec := fun _ => ExecOk;
     assemble_exec := assembly |}.

Definition sampleVideoPath : list Z := JS.lit "/gallery/clips/a.mp4".
Definition sampleOutputPath : list Z :=
  JS.lit "/gallery/" ++ getThumbnailPath (JS.lit "clips/a.mp4") Video.

(** An inventory of three entries in /gallery, largest first, and two
    workers: worker 0 claims the video, worker 1 the first image, whose
    encoding fails; worker 0 resumes, worker 1 claims the second image,
    worker 0 finds the queue empty, worker 1 resumes and returns. *)
Definition sampleRoot : list Z := JS.lit "/gallery".

Definition sampleMedia : list media_entry :=
  [{| path := JS.lit "clips/a.mp4"; size := 900; type := Video |};
   {| path := JS.lit "img/b.png"; size := 500; type := Image |};
   {| path := JS.lit "img/c.jpg"; size := 100; type := Image |}].

Definition sampleOracle (encoding : exec_outcome) : oracle :=
  {| mkdir_ok := true; video := sampleVideoOracle ExecOk; encode_exec := encoding |}.

Definition sampleSchedule : list (nat * oracle) :=
  [(0%nat, sampleOracle ExecOk); (1%nat, sampleOracle ExecOk);
   (1%nat, sampleOracle (ExecFail false)); (0%nat, sampleOracle ExecOk);
   (1%nat, sampleOracle ExecOk); (0%nat, sampleOracle ExecOk);
   (1%nat, sampleOracle ExecOk); (1%nat, sampleOracle ExecOk)].

(** One worker taking [k] steps, every answer the same. *)
Definition sequentialSchedule (answers : oracle) (k : nat) : list (nat * oracle) :=
  replicate k (0%nat, answers).

(** A sample tree: two images and a video at different depths, an
    unreadable directory, a thumbnails directory left by an earlier run. *)
Definition sampleTree : option (list dirent) :=
  Some [DFile (JS.lit "a.JPG") (Some 300);
        DDir (JS.lit "clips")
          (Some [DFile (JS.lit "b.mp4") (Some 900);
                 DDir (JS.lit "old") (Some [DFile (JS.lit "c.gif") (Some 120)]);
                 DDir (JS.lit "locked") None]);
        DDir (JS.lit "thumbnails")
          (Some [DDir (JS.lit "e") (Some [DFile (JS.lit "x.jpg") (Some 50)])]);
        DFile (JS.lit "notes.txt") (Some 10);
        DFile (JS.lit "gallery.html") (Some 77)].

(** An inventory of twenty images, and a user who shows the cursor, turns
    the page with shift and the right arrow, and steps back with the left
    arrow. *)
Definition sampleImages : list media_entry :=
  List.map (fun i => {| path := JS.lit "img/" ++ JS.toString 10 i ++ JS.lit ".jpg";
                        size := 1000 - i; type := Image |})
           (indices 20).

Definition sampleKeys : list Page.event :=
  [Page.KeyDown Page.ArrowRight false []; Page.KeyDown Page.ArrowRight true [];
   Page.KeyDown Page.ArrowLeft false [0; 0; 0; 0; 0]].

(** * Definitions used to state and prove the properties *)

(** The [k] low digits of [n] in a radix, most significant first. *)
Fixpoint fixedDigits (radix : Z) (k : nat) (n : Z) : list Z :=
  match k with
  | O => []
  | S k' => fixedDigits radix k' (n / radix) ++ [JS.digitChar (n mod radix)]
  end.

(** A segment that [path.join] leaves as it is: not empty, without a
    separator, and neither "." nor "..". *)
Definition plainSegment (seg : list Z) : Prop :=
  seg <> [] /\ (Path.slash ∉ seg) /\ seg <> [Path.dot] /\ seg <> [Path.dot; Path.dot].

(** What a run of an extraction loop over [total] frames numbered from [k]
    did: it issued [n] extraction commands, for the frames [k] to [k+n-1];
    only the scratch directory [d] changed; it ended normally when every
    command succeeded, and with an exception when the last one failed. *)
Definition loop_post (o : video_oracle) (d : list Z) (k total : Z)
    (w : world) (out : result Z * world) : Prop :=
  exists n files cmds,
    0 <= n <= total /\
    cache (snd out) = cache w /\
    scratch (snd out) = <[d := files]> (scratch w) /\
    trace (snd out) = trace w ++ cmds /\
    extractedFrames cmds = List.map frameName (range k n) /\
    existsb isAssemble cmds = false /\
    match fst out with
    | Returned k' =>
        n = total /\ k' = k + total /\
        (forall i, k <= i < k + total -> frame_exec o i = ExecOk)
    | Thrown e =>
        e = CommandFailed /\ 1 <= n /\ frame_exec o (k + n - 1) <> ExecOk
    end.

(** The [try] block, entered with the scratch directory in place. *)
Definition tryBody (videoPath outputPath : list Z) (o : video_oracle) (duration : Q)
    (d : list Z) : io unit :=
  extractSegments d o (videoFrames videoPath)
    (indices (videoSegments videoPath duration)) 0 ;;
  emit (CmdAssemble d outputPath) ;;
  execSync (assemble_exec o) (write_cache outputPath).

(** Induction over a directory tree, through the listings of its
    directories. *)
Section dirent_induction.
Variable P : dirent -> Prop.
Hypothesis HFile : forall name stat, P (DFile name stat).
Hypothesis HDirNone : forall name, P (DDir name None).
Hypothesis HDirSome :
    forall name entries, Forall P entries -> P (DDir name (Some entries)).
Hypothesis HOther : forall name, P (DOther name).

Fixpoint dirent_induction (e : dirent) : P e :=
    match e with
    | DFile name stat => HFile name stat
    | DDir name None => HDirNone name
    | DDir name (Some entries) =>
        HDirSome name entries
          ((fix go (l : list dirent) : Forall P l :=
              match l with
              | [] => @Forall_nil _ P
              | x :: rest => @Forall_cons _ P x rest (dirent_induction x) (go rest)
              end) entries)
    | DOther name => HOther name
    end.
End dirent_induction.

(** The deduplication step on one candidate file, and on a list of them. *)
Definition addCandidate (st : discovery) (f : media_entry) : discovery :=
  if bool_decide (size f ∈ seenSizes st)
  then {| seenSizes := seenSizes st;
          duplicatesSkipped := duplicatesSkipped st + 1;
          media := media st |}
  else {| seenSizes := {[size f]} ∪ seenSizes st;
          duplicatesSkipped := duplicatesSkipped st;
          media := media st ++ [f] |}.

Definition addAll (files : list media_entry) (st : discovery) : discovery :=
  fold_left addCandidate files st.

(** What holds of every pool state a schedule can reach from the start, as
    long as no worker has thrown: the counters count the recorded outcomes;
    every entry of the inventory is in exactly one place, ended (with one
    recorded outcome), in flight with one worker, or still queued; and a
    worker has returned only if the queue is empty. *)
Definition pool_ok (mediaList : list media_entry) (n : nat) (p : pool) : Prop :=
  completed p = Z.of_nat (length (outcomes p)) /\
  skipped p = count_outcomes isSkipped p /\
  failed p = count_outcomes isFailed p /\
  length (workers p) = n /\
  List.map outcomeEntry (outcomes p) ++ inFlight (workers p) ++ queue p ≡ₚ mediaList /\
  (In Finished (workers p) -> queue p = []) /\
  Forall (fun e => (fst (fst e) < n)%nat) (outcomes p).

Definition pool_inv (mediaList : list media_entry) (n : nat) (p : pool) : Prop :=
  rejected p = false -> pool_ok mediaList n p.

Section Invariants.

Variable ROOT_DIR : list Z.

(** The artifact of a task that ended Generated, or Skipped on a cache hit,
    exists, and keeps existing. *)
Definition artifacts_inv (p : pool) : Prop :=
  (forall i item out, In (i, item, out) (outcomes p) ->
     out = Generated \/ out = SkippedCacheHit ->
     thumbPathOf ROOT_DIR item ∈ cache (env p)) /\
  (forall i item a, workers p !! i = Some (AwaitingVideo item (Returned a)) ->
     thumbPathOf ROOT_DIR item ∈ cache (env p)).

(** Relative to the files [C0] present when a run starts: a task whose
    artifact is among them ends Skipped on a cache hit, and is never in
    flight. *)
Definition hits_inv (C0 : gset (list Z)) (p : pool) : Prop :=
  C0 ⊆ cache (env p) /\
  (forall i item out, In (i, item, out) (outcomes p) ->
     thumbPathOf ROOT_DIR item ∈ C0 -> out = SkippedCacheHit) /\
  (forall item, In item (inFlight (workers p)) -> thumbPathOf ROOT_DIR item ∉ C0).

End Invariants.

(** When the artifact of every entry of the inventory is in the cache the
    run starts with, no move of the pool touches the world: every entry is
    skipped on a cache hit. *)
Definition allhit_inv (mediaList : list media_entry) (n : nat) (w0 : world)
    (p : pool) : Prop :=
  rejected p = false /\ pool_ok mediaList n p /\ env p = w0 /\
  inFlight (workers p) = [] /\
  Forall (fun e => snd e = SkippedCacheHit) (outcomes p).

(** Checking a run by evaluation. *)
Definition isFinished (wk : worker) : bool :=
  match wk with Finished => true | _ => false end.

Definition checkRun (r : option pool) (f : pool -> bool) : bool :=
  match r with Some p => f p | None => false end.

(** The state of the scan of [extname] after the characters of [s], a
    stretch without separator that ends at index [last] and starts at
    index [first]. *)
Definition scanned (last first : Z) (s : list Z) : Path.ext_state :=
  let d := Builtin.lastIndexOf Path.dot s in
  {| Path.startDot := if d =? -1 then -1 else first + d;
     Path.startPart := 0;
     Path.endPos := last + 1;
     Path.matchedSlash := false;
     Path.preDotState :=
       if d <=? 0 then 0 else if List.hd 0 s =? Path.dot then 1 else -1;
     Path.stopped := false |}.

(** The extension [path.extname] finds in a name without separator: from
    its last dot on, unless there is no dot, the only dot is the first
    character, or the name is "..". *)
Definition extOf (name : list Z) : list Z :=
  let d := Builtin.lastIndexOf Path.dot name in
  if (d <=? 0) ||
     ((List.hd 0 name =? Path.dot) && (d =? Z.of_nat (length name) - 1) && (d =? 1))
  then []
  else skipn (Z.to_nat d) name.

(** The names of a directory listing are plain: [readdirSync] returns no
    empty name, no name with a separator, and neither "." nor "..". *)
Definition isPlainName (name : list Z) : bool :=
  negb (JS.streq name []) && negb (existsb (Z.eqb Path.slash) name) &&
  negb (JS.streq name [Path.dot]) && negb (JS.streq name [Path.dot; Path.dot]).

Definition direntName (e : dirent) : list Z :=
  match e with
  | DFile name _ | DDir name _ | DOther name => name
  end.

Fixpoint plainNames (e : dirent) : bool :=
  isPlainName (direntName e) &&
  match e with
  | DDir _ (Some entries) => forallb plainNames entries
  | _ => true
  end.

Definition plainListing (listing : option (list dirent)) : bool :=
  match listing with
  | None => true
  | Some entries => forallb plainNames entries
  end.

(** The segments of the path of a candidate: the names of the directories
    the scan went down and the name of the file, each plain and none of
    them a skipped name; the file name has a media extension, which
    decides the type. *)
Definition listedSegment (seg : list Z) : Prop :=
  plainSegment seg /\ isOutputName seg = false.

Definition candidate_shape (dir : list Z) (m : media_entry) : Prop :=
  exists segs name,
    path m = relativeChild dir (Path.unsplit (segs ++ [name])) /\
    Forall listedSegment (segs ++ [name]) /\
    includes MEDIA_EXTENSIONS (JS.toLowerCase (extOf name)) = true /\
    type m = if includes VIDEO_EXTENSIONS (JS.toLowerCase (extOf name))
             then Video else Image.

(** The extraction commands of the two loops, as they follow from the loop
    counters alone. *)
Fixpoint frameCommands (d : list Z) (seg : Z) (fs : list Z) (frameIndex : Z)
  : list command :=
  match fs with
  | [] => []
  | f :: rest =>
      CmdExtract seg f d (frameName frameIndex) :: frameCommands d seg rest (frameIndex + 1)
  end.

Fixpoint segmentCommands (d : list Z) (frames : Z) (segs : list Z) (frameIndex : Z)
  : list command :=
  match segs with
  | [] => []
  | seg :: rest =>
      frameCommands d seg (indices frames) frameIndex ++
      segmentCommands d frames rest (frameIndex + frames)
  end.

(** The command that extracts scratch frame number [k] when every segment
    has [frames] frames. *)
Definition extractCommand (d : list Z) (frames k : Z) : command :=
  CmdExtract (k / frames) (k mod frames) d (frameName k).











(** What holds of the variables of the page after every event: the page
    shown exists, the cursor and the lightbox index are -1 or inside
    [IMAGES], the remembered position is a position of a page, and an open
    lightbox shows an entry. *)
Definition view_ok (IMAGES : list media_entry) (v : Page.view) : Prop :=
  let len := Page.imagesLength IMAGES in
  0 <= Page.currentPage v <= Z.max 0 (Page.totalPages IMAGES - 1) /\
  -1 <= Page.cursorIndex v < len /\
  0 <= Page.lastCursorPos v < IMAGES_PER_PAGE /\
  -1 <= Page.currentLightboxIndex v < len /\
  (Page.lightboxActive v = true -> 0 <= Page.currentLightboxIndex v).

(** The cursor, when shown, is on a thumbnail of the page drawn. *)
Definition cursor_drawn (IMAGES : list media_entry) (v : Page.view) : Prop :=
  0 <= Page.cursorIndex v ->
  Page.pageStart (Page.currentPage v) <= Page.cursorIndex v
    < Page.pageEnd IMAGES (Page.currentPage v).

Definition isPageButton (e : Page.event) : bool :=
  match e with
  | Page.ClickPrev | Page.ClickNext => true
  | _ => false
  end.

(** * Properties *)

(** ** Arithmetic of the 32-bit operators *)

Lemma ToInt32_mod (x : Z) : JS.ToInt32 x mod 2 ^ 32 = x mod 2 ^ 32.
Proof.
  unfold JS.ToInt32. change (2 ^ 32) with 4294967296.
  rewrite Zminus_mod, Zmod_mod, <- Zminus_mod.
  f_equal. lia.
Qed.

Lemma ToInt32_range (x : Z) : - 2 ^ 31 <= JS.ToInt32 x < 2 ^ 31.
Proof.
  unfold JS.ToInt32.
  pose proof (Z.mod_pos_bound (x + 2147483648) 4294967296 ltac:(lia)). lia.
Qed.

Lemma ushr0_mod (x : Z) : JS.ushr0 x = x mod 2 ^ 32.
Proof. reflexivity. Qed.

Lemma lxor_mod_pow2 (a b n : Z) :
  0 <= n -> Z.lxor a b mod 2 ^ n = Z.lxor (a mod 2 ^ n) (b mod 2 ^ n).
Proof.
  intros Hn. apply Z.bits_inj'. intros i Hi.
  destruct (Z.lt_ge_cases i n) as [Hlt | Hge].
  - rewrite Z.mod_pow2_bits_low, !Z.lxor_spec, !Z.mod_pow2_bits_low by lia.
    reflexivity.
  - rewrite Z.mod_pow2_bits_high, Z.lxor_spec, !Z.mod_pow2_bits_high by lia.
    reflexivity.
Qed.

Lemma xor_mod (a b : Z) :
  JS.xor a b mod 2 ^ 32 = Z.lxor (a mod 2 ^ 32) (b mod 2 ^ 32).
Proof.
  unfold JS.xor.
  rewrite ToInt32_mod, lxor_mod_pow2, !ToInt32_mod by lia.
  reflexivity.
Qed.

Lemma shl5_mod (h : Z) : JS.shl h 5 mod 2 ^ 32 = (h * 32) mod 2 ^ 32.
Proof.
  unfold JS.shl.
  rewrite ToInt32_mod.
  replace (5 mod 32) with 5 by reflexivity.
  rewrite Z.shiftl_mul_pow2 by lia.
  replace (2 ^ 5) with 32 by reflexivity.
  rewrite Zmult_mod, ToInt32_mod, <- Zmult_mod.
  reflexivity.
Qed.

(** The code's step and the reference step agree on the unsigned reading of
    the accumulator. *)
Lemma hash_step_unsigned (h c : Z) :
  JS.ushr0 (hash_step h c) = fingerprint_step (JS.ushr0 h) c.
Proof.
  unfold hash_step, fingerprint_step. rewrite !ushr0_mod.
  rewrite xor_mod, (lxor_mod_pow2 _ c 32) by lia.
  f_equal.
  rewrite Zplus_mod, shl5_mod, <- Zplus_mod.
  rewrite Z.shiftl_mul_pow2 by lia.
  replace (2 ^ 5) with 32 by reflexivity.
  rewrite (Zplus_mod (h mod 2 ^ 32 * 32)), (Zmult_mod (h mod 2 ^ 32)), !Zmod_mod.
  rewrite <- Zmult_mod, <- Zplus_mod.
  reflexivity.
Qed.

Lemma hashPath_loop_unsigned (str : list Z) (h1 h2 : Z) :
  JS.ushr0 (fst (hashPath_loop str h1 h2)) = fold_left fingerprint_step str (JS.ushr0 h1) /\
  JS.ushr0 (snd (hashPath_loop str h1 h2)) = fold_left fingerprint_step str (JS.ushr0 h2).
Proof.
  revert h1 h2.
  induction str as [| c rest IH]; intros h1 h2; cbn [hashPath_loop fold_left].
  - split; reflexivity.
  - destruct (IH (hash_step h1 c) (hash_step h2 c)) as [H1 H2].
    rewrite (hash_step_unsigned h1 c) in H1.
    rewrite (hash_step_unsigned h2 c) in H2.
    split; assumption.
Qed.

(** ** Digits *)

Lemma fixedDigits_length radix k n : length (fixedDigits radix k n) = k.
Proof.
  revert n. induction k as [| k IH]; intros n; simpl; [reflexivity |].
  rewrite length_app, IH. simpl. lia.
Qed.

Lemma fixedDigits_zero radix k : 0 < radix -> fixedDigits radix k 0 = List.repeat 48 k.
Proof.
  intros Hr. induction k as [| k IH]; simpl; [reflexivity |].
  rewrite Z.div_0_l, Z.mod_0_l by lia. rewrite IH.
  change [JS.digitChar 0] with (List.repeat 48 1).
  rewrite <- repeat_app. replace (k + 1)%nat with (S k) by lia. reflexivity.
Qed.

Lemma fixedDigits_pad radix j m n :
  2 <= radix -> 0 <= n < radix ^ Z.of_nat m ->
  fixedDigits radix (j + m) n = List.repeat 48 j ++ fixedDigits radix m n.
Proof.
  intros Hr. revert n. induction m as [| m IH]; intros n Hn.
  - simpl in Hn. replace n with 0 by lia.
    rewrite Nat.add_0_r, fixedDigits_zero by lia. simpl. now rewrite app_nil_r.
  - replace (j + S m)%nat with (S (j + m)) by lia. simpl.
    rewrite IH, <- app_assoc; [reflexivity |].
    rewrite Nat2Z.inj_succ, Z.pow_succ_r in Hn by lia.
    split; [apply Z.div_pos; lia |].
    apply Z.div_lt_upper_bound; lia.
Qed.

(** [toString] writes the significant digits: with enough fuel the loop ends
    on its own test, after [m] digits, [m] least with [n < radix ^ m]. *)
Lemma toString_digits_spec radix fuel : 2 <= radix ->
  forall n acc, 0 <= n < 2 ^ Z.of_nat fuel -> (1 <= fuel)%nat ->
  exists m, (1 <= m)%nat /\
    JS.toString_digits fuel radix n acc = fixedDigits radix m n ++ acc /\
    n < radix ^ Z.of_nat m /\
    (m = 1%nat \/ radix ^ (Z.of_nat m - 1) <= n).
Proof.
  intros Hr. induction fuel as [| fuel IH]; intros n acc Hn Hf; [lia |].
  cbn [JS.toString_digits]. destruct (Z.eqb_spec (n / radix) 0) as [Hq | Hq].
  - exists 1%nat. cbn [fixedDigits].
    assert (n < radix).
    { destruct (Z.lt_ge_cases n radix) as [|Hge]; [assumption|].
      assert (1 <= n / radix) by (apply Z.div_le_lower_bound; lia). lia. }
    split; [lia |]. split; [| split; [lia | now left]].
    reflexivity.
  - assert (Hqpos : 0 < n / radix).
    { assert (0 <= n / radix) by (apply Z.div_pos; lia). lia. }
    assert (Hn16 : radix <= n).
    { destruct (Z.lt_ge_cases n radix) as [Hlt|]; [|assumption].
      rewrite Z.div_small in Hqpos by lia. lia. }
    destruct fuel as [| fuel'].
    { simpl in Hn. lia. }
    destruct (IH (n / radix) (JS.digitChar (n mod radix) :: acc)) as (m & Hm & Heq & Hlt & Hmin).
    { rewrite Nat2Z.inj_succ, Z.pow_succ_r in Hn by lia.
      split; [lia |].
      apply Z.div_lt_upper_bound; [lia |].
      apply Z.lt_le_trans with (2 * 2 ^ Z.of_nat (S fuel')); [lia |].
      apply Z.mul_le_mono_nonneg_r; lia. }
    { lia. }
    exists (S m). split; [lia |]. split; [| split].
    + rewrite Heq. simpl. now rewrite <- app_assoc.
    + rewrite Nat2Z.inj_succ, Z.pow_succ_r by lia.
      pose proof (Z.mul_div_le n radix ltac:(lia)).
      pose proof (Z.mod_pos_bound n radix ltac:(lia)).
      pose proof (Z.div_mod n radix ltac:(lia)). nia.
    + right. replace (Z.of_nat (S m) - 1) with (Z.of_nat m) by lia.
      destruct Hmin as [-> | Hmin].
      * simpl. lia.
      * replace (Z.of_nat m) with (Z.succ (Z.of_nat m - 1)) by lia.
        rewrite Z.pow_succ_r by lia.
        pose proof (Z.mul_div_le n radix ltac:(lia)). nia.
Qed.

Lemma log2_fuel (n : Z) : 0 <= n -> n < 2 ^ Z.of_nat (S (Z.to_nat (Z.log2 n))).
Proof.
  intros Hn. rewrite Nat2Z.inj_succ, Z2Nat.id by apply Z.log2_nonneg.
  destruct (Z.eq_dec n 0) as [-> | Hne]; [reflexivity |].
  apply Z.log2_spec. lia.
Qed.

(** Zero-padding the significant digits to width [k] gives the [k] low
    digits, when the number has at most [k] digits. *)
Lemma padStart_toString radix k n :
  2 <= radix -> 0 <= n < radix ^ Z.of_nat k -> (1 <= k)%nat ->
  JS.padStart k 48 (JS.toString radix n) = fixedDigits radix k n.
Proof.
  intros Hr Hn Hk. unfold JS.toString, JS.padStart.
  destruct (toString_digits_spec radix (S (Z.to_nat (Z.log2 n))) Hr n [])
    as (m & Hm & Heq & Hlt & Hmin).
  { split; [lia | apply log2_fuel; lia]. }
  { lia. }
  rewrite Heq, app_nil_r, fixedDigits_length.
  assert (Hmk : (m <= k)%nat).
  { destruct Hmin as [-> | Hmin]; [lia |].
    destruct (Nat.le_gt_cases m k) as [| Hgt]; [assumption |].
    assert (radix ^ Z.of_nat k <= radix ^ (Z.of_nat m - 1))
      by (apply Z.pow_le_mono_r; lia).
    lia. }
  replace k with ((k - m) + m)%nat at 2 by lia.
  rewrite fixedDigits_pad by lia. reflexivity.
Qed.

Lemma hex8_fixedDigits (n : Z) : hex8 n = fixedDigits 16 8 n.
Proof.
  unfold hex8. simpl.
  rewrite !Z.div_div by lia.
  rewrite Z.div_1_r. reflexivity.
Qed.

Lemma ushr0_range (h : Z) : 0 <= JS.ushr0 h < 16 ^ Z.of_nat 8.
Proof.
  unfold JS.ushr0, JS.ToUint32.
  change (16 ^ Z.of_nat 8) with 4294967296.
  apply Z.mod_pos_bound. lia.
Qed.

Lemma digitChar_hex (d : Z) : 0 <= d < 16 -> isLowerHex (JS.digitChar d).
Proof.
  intros Hd. unfold JS.digitChar, isLowerHex.
  destruct (Z.ltb_spec d 10); lia.
Qed.

Lemma hex8_lowerHex (n : Z) : Forall isLowerHex (hex8 n).
Proof.
  unfold hex8. apply Forall_map. apply Forall_forall. intros i _.
  apply digitChar_hex. apply Z.mod_pos_bound. lia.
Qed.

Lemma hashPath_eq (str : list Z) :
  hashPath str =
  hex8 (JS.ushr0 (fst (hashPath_loop str 5381 52711))) ++
  hex8 (JS.ushr0 (snd (hashPath_loop str 5381 52711))).
Proof.
  unfold hashPath. destruct (hashPath_loop str 5381 52711) as [h1 h2].
  cbn [fst snd].
  rewrite !hex8_fixedDigits, !padStart_toString;
    first [reflexivity | lia | apply ushr0_range].
Qed.

Lemma hashPath_fingerprint_of (str : list Z) : hashPath str = fingerprint_of str.
Proof.
  rewrite hashPath_eq. unfold fingerprint_of.
  destruct (hashPath_loop_unsigned str 5381 52711) as [-> ->]. reflexivity.
Qed.

Lemma hashPath_length (str : list Z) : length (hashPath str) = 16%nat.
Proof. rewrite hashPath_eq. reflexivity. Qed.

Lemma hashPath_lowerHex (str : list Z) : Forall isLowerHex (hashPath str).
Proof. rewrite hashPath_eq. apply Forall_app; split; apply hex8_lowerHex. Qed.

Lemma codePoints_no_surrogate (s : list Z) :
  Forall (fun c => isHighSurrogate c = false) s -> codePoints s = s.
Proof.
  induction s as [| hi rest IH]; intros Hs; [reflexivity |].
  inversion Hs as [| ? ? Hhi Hrest]; subst.
  simpl. destruct rest as [| lo rest']; [reflexivity |].
  rewrite Hhi. simpl. f_equal. apply IH, Hrest.
Qed.

(** ** The fingerprint *)

(** The fixed example of the specification. *)
Example hashPath_example :
  hashPath (JS.lit "photos/img1.jpg") = JS.lit "ea201fb4a14e2c16".
Proof. vm_compute. reflexivity. Qed.

(** C1, as stated, fails: on a path holding a character outside the Basic
    Multilingual Plane (here U+1F600, the surrogate pair D83D DE00) the
    program hashes the two UTF-16 code units, and the reference definition
    read per code point hashes the one code point; the results differ. *)
Lemma hashPath_surrogate_pair :
  hashPath [0xD83D; 0xDE00] = JS.lit "0050fe9803646c3a" /\
  fingerprint_codepoints [0xD83D; 0xDE00] = JS.lit "000343a5001b7cc7".
Proof. split; vm_compute; reflexivity. Qed.

(** C1, amended: for every string, [hashPath] equals the dual-djb2 reference
    definition read per UTF-16 code unit (seeds 5381 and 52711, step
    ((acc << 5) + acc) XOR unit truncated to 32 bits, two zero-padded
    lower-case 8-digit hexadecimal strings, accumulator 1 first); the result
    has exactly 16 characters, all lower-case hexadecimal digits; and on a
    string without surrogate code units it equals the reference definition
    read per code point.  Being a function, it returns the same fingerprint
    for the same path. *)
Theorem hashPath_fingerprint (path : list Z) :
  hashPath path = fingerprint_units path /\
  length (hashPath path) = 16%nat /\
  Forall isLowerHex (hashPath path) /\
  (Forall (fun c => isHighSurrogate c = false) path ->
   hashPath path = fingerprint_codepoints path).
Proof.
  split; [apply hashPath_fingerprint_of |].
  split; [apply hashPath_length |].
  split; [apply hashPath_lowerHex |].
  intros Hbmp. unfold fingerprint_codepoints.
  rewrite codePoints_no_surrogate by assumption.
  apply hashPath_fingerprint_of.
Qed.

(** ** Joining plain segments *)

Lemma split_no_slash (seg : list Z) : Path.slash ∉ seg -> Path.split seg = [seg].
Proof.
  induction seg as [| c seg IH]; intros Hs; [reflexivity |].
  cbn [Path.split].
  destruct (Z.eqb_spec c Path.slash) as [-> | _].
  - exfalso. apply Hs. left.
  - rewrite IH; [reflexivity |]. intros Hin. apply Hs. now right.
Qed.

Lemma split_app_slash (seg rest : list Z) :
  Path.slash ∉ seg ->
  Path.split (seg ++ Path.slash :: rest) = seg :: Path.split rest.
Proof.
  induction seg as [| c seg IH]; intros Hs.
  - cbn [app Path.split]. rewrite Z.eqb_refl. reflexivity.
  - cbn [app Path.split].
    destruct (Z.eqb_spec c Path.slash) as [-> | _].
    + exfalso. apply Hs. left.
    + rewrite IH; [reflexivity |]. intros Hin. apply Hs. now right.
Qed.

Lemma split_unsplit (segs : list (list Z)) :
  segs <> [] -> Forall plainSegment segs -> Path.split (Path.unsplit segs) = segs.
Proof.
  induction segs as [| seg rest IH]; intros Hne Hall; [congruence |].
  inversion Hall as [| ? ? (_ & Hs & _) Hrest]; subst.
  destruct rest as [| seg' rest'].
  - cbn [Path.unsplit]. now apply split_no_slash.
  - change (Path.unsplit (seg :: seg' :: rest'))
      with (seg ++ Path.slash :: Path.unsplit (seg' :: rest')).
    rewrite split_app_slash by assumption.
    rewrite IH; [reflexivity | congruence | assumption].
Qed.

Lemma norm_step_plain (b : bool) (stack : list (list Z)) (seg : list Z) :
  plainSegment seg -> Path.norm_step b stack seg = seg :: stack.
Proof.
  intros (Hne & _ & Hd & Hdd). unfold Path.norm_step, JS.streq.
  rewrite !bool_decide_eq_false_2 by assumption. reflexivity.
Qed.

Lemma fold_norm_step_plain (b : bool) (segs stack : list (list Z)) :
  Forall plainSegment segs ->
  fold_left (Path.norm_step b) segs stack = rev segs ++ stack.
Proof.
  revert stack. induction segs as [| seg rest IH]; intros stack Hall; [reflexivity |].
  inversion Hall; subst. cbn [fold_left rev].
  rewrite norm_step_plain, IH, <- app_assoc by assumption. reflexivity.
Qed.

Lemma unsplit_last (segs : list (list Z)) (seg : list Z) (c d : Z) :
  List.last (Path.unsplit (segs ++ [seg ++ [c]])) d = c.
Proof.
  induction segs as [| s rest IH].
  - cbn [app Path.unsplit]. apply last_last.
  - destruct rest as [| s' rest'].
    + cbn [app Path.unsplit].
      change (s ++ Path.slash :: seg ++ [c]) with (s ++ (Path.slash :: seg) ++ [c]).
      rewrite app_assoc. apply last_last.
    + change (Path.unsplit ((s :: s' :: rest') ++ [seg ++ [c]]))
        with (s ++ Path.slash :: Path.unsplit ((s' :: rest') ++ [seg ++ [c]])).
      remember (Path.unsplit ((s' :: rest') ++ [seg ++ [c]])) as u eqn:Hu.
      assert (Hne : u <> []).
      { subst u. cbn [app]. destruct (rest' ++ [seg ++ [c]]) eqn:E.
        - destruct rest'; discriminate.
        - cbn [Path.unsplit]. destruct s'; discriminate. }
      clear Hu. revert IH. destruct u as [| x u]; [congruence |]. intros IH.
      rewrite <- IH. clear. induction s as [| y s IHs]; [reflexivity |].
      cbn [app]. cbn [app] in IHs.
      destruct (s ++ Path.slash :: x :: u) eqn:E; [destruct s; discriminate |].
      exact IHs.
Qed.

(** [path.join] of plain segments is the segments joined by '/'. *)
Lemma join_plain (segs : list (list Z)) :
  segs <> [] -> Forall plainSegment segs -> Path.join segs = Path.unsplit segs.
Proof.
  intros Hne Hall. unfold Path.join.
  assert (Hfilter : List.filter (fun a => negb (JS.streq a [])) segs = segs).
  { clear Hne. induction Hall as [| seg rest (Hs & _) _ IH]; [reflexivity |].
    cbn [List.filter]. unfold JS.streq at 1.
    rewrite bool_decide_eq_false_2 by assumption. cbn [negb]. now rewrite IH. }
  rewrite Hfilter.
  destruct segs as [| seg0 rest0] eqn:Hsegs; [congruence |]. rewrite <- Hsegs in *.
  assert (Hnorm : Path.normalizeString (Path.unsplit segs) true = Path.unsplit segs).
  { unfold Path.normalizeString.
    rewrite split_unsplit, fold_norm_step_plain, app_nil_r, rev_involutive
      by assumption.
    reflexivity. }
  (* the first character, which is not a separator *)
  assert (Hfirst : exists c u, Path.unsplit segs = c :: u /\ c <> Path.slash).
  { rewrite Hsegs. inversion Hall as [| ? ? (Hs0 & Hsl & _) _]; subst; try congruence.
    match goal with H : _ :: _ = _ :: _ |- _ => injection H as -> -> end.
    destruct seg0 as [| c seg0']; [congruence |].
    exists c. destruct rest0; cbn [Path.unsplit app]; eexists; (split; [reflexivity |]);
      intros ->; apply Hsl; left. }
  destruct Hfirst as (c & u & Hu & Hc).
  (* the last character, which is not a separator either *)
  assert (Hlast : List.last (Path.unsplit segs) 0 <> Path.slash).
  { destruct (exists_last Hne) as (front & lastseg & Hfl).
    rewrite Hfl in Hall. apply Forall_app in Hall as [_ Hl].
    inversion Hl as [| ? ? (Hl0 & Hlsl & _) _]; subst.
    destruct (exists_last Hl0) as (seg' & d & ->).
    rewrite Hfl, unsplit_last. intros ->. apply Hlsl.
    apply list_elem_of_In, in_or_app. right. left. reflexivity. }
  unfold Path.normalize. rewrite Hu in *.
  destruct (Z.eqb_spec c Path.slash) as [| _]; [congruence |].
  destruct (Z.eqb_spec (List.last (c :: u) 0) Path.slash) as [| _]; [congruence |].
  cbn [negb]. rewrite Hnorm. reflexivity.
Qed.

(** ** The cache path *)

Lemma lowerHex_not_slash (c : Z) : isLowerHex c -> c <> Path.slash /\ c <> Path.dot.
Proof. unfold isLowerHex, Path.slash, Path.dot. lia. Qed.

Lemma lowerHex_no_slash (s : list Z) : Forall isLowerHex s -> Path.slash ∉ s.
Proof.
  intros Hs Hin. rewrite Forall_forall in Hs.
  apply list_elem_of_In in Hin. apply Hs, lowerHex_not_slash in Hin. tauto.
Qed.

Lemma thumbExt_cases (mediaPath : list Z) (mediaType : media_type) :
  thumbExt mediaPath mediaType = JS.lit ".webp" \/
  thumbExt mediaPath mediaType = JS.lit ".png" \/
  thumbExt mediaPath mediaType = JS.lit ".jpg".
Proof.
  unfold thumbExt.
  destruct (isVideoType mediaType || _); [now left |].
  destruct (JS.streq _ _); [right; now left | right; now right].
Qed.

(** C2: the cache path of a media entry is
    thumbnails/<h[0]>/<h[1]>/<h><ext>, with h the fingerprint of the entry's
    path, and ext ".webp" for a video or a lower-cased extension ".gif",
    ".png" for a lower-cased extension ".png", ".jpg" otherwise. *)
Theorem getThumbnailPath_layout (mediaPath : list Z) (mediaType : media_type) :
  let h := hashPath mediaPath in
  let ext := JS.toLowerCase (Path.extname mediaPath) in
  let suffix :=
    match mediaType with
    | Video => JS.lit ".webp"
    | Image =>
        if decide (ext = JS.lit ".gif") then JS.lit ".webp"
        else if decide (ext = JS.lit ".png") then JS.lit ".png"
        else JS.lit ".jpg"
    end in
  exists h0 h1 tail,
    h = h0 :: h1 :: tail /\
    getThumbnailPath mediaPath mediaType =
      JS.lit "thumbnails/" ++ [h0] ++ JS.lit "/" ++ [h1] ++ JS.lit "/" ++ h ++ suffix.
Proof.
  intros h ext suffix.
  assert (Hsuffix : thumbExt mediaPath mediaType = suffix).
  { unfold thumbExt, suffix, JS.streq. fold ext.
    destruct mediaType; cbn [isVideoType orb]; [| reflexivity].
    repeat case_bool_decide; repeat case_decide; congruence. }
  pose proof (hashPath_length mediaPath) as Hlen.
  pose proof (hashPath_lowerHex mediaPath) as Hhex.
  fold h in Hlen, Hhex.
  destruct h as [| h0 [| h1 tail]] eqn:Hh; try discriminate.
  exists h0, h1, tail. split; [reflexivity |].
  unfold getThumbnailPath. rewrite Hsuffix. fold h. rewrite Hh.
  assert (H0 : isLowerHex h0) by (inversion Hhex; assumption).
  assert (H1 : isLowerHex h1) by (inversion Hhex as [| ? ? _ H]; inversion H; assumption).
  apply lowerHex_not_slash in H0 as [H0s H0d], H1 as [H1s H1d].
  assert (Hsuf : (Path.slash ∉ suffix) /\ suffix <> []).
  { rewrite <- Hsuffix.
    destruct (thumbExt_cases mediaPath mediaType) as [-> | [-> | ->]];
      (split; [| discriminate]); intros Hin; apply list_elem_of_In in Hin;
      vm_compute in Hin; intuition discriminate. }
  destruct Hsuf as [Hsufs Hsufne].
  rewrite join_plain.
  - cbn [charAt skipn firstn Path.unsplit]. cbn [app].
    change (JS.lit "thumbnails/") with (THUMBNAILS_DIR ++ [Path.slash]).
    rewrite <- !app_assoc. reflexivity.
  - discriminate.
  - repeat apply Forall_cons; [| | | | apply Forall_nil].
    + vm_compute. repeat split; try discriminate.
      intros Hin. apply list_elem_of_In in Hin. cbn in Hin. intuition discriminate.
    + cbn [charAt skipn firstn]. split; [discriminate |].
      split; [| split; [intros [= ?]; contradiction | discriminate]].
      intros Hin. apply list_elem_of_In in Hin. cbn in Hin. intuition.
    + cbn [charAt skipn firstn]. split; [discriminate |].
      split; [| split; [intros [= ?]; contradiction | discriminate]].
      intros Hin. apply list_elem_of_In in Hin. cbn in Hin. intuition.
    + split; [discriminate |]. split; [| split].
      * intros Hin. apply elem_of_app in Hin as [Hin | Hin]; [| contradiction].
        revert Hin. now apply lowerHex_no_slash.
      * intros Heq. apply (f_equal (@length Z)) in Heq.
        rewrite length_app, Hlen in Heq. cbn in Heq. lia.
      * intros Heq. apply (f_equal (@length Z)) in Heq.
        rewrite length_app, Hlen in Heq. cbn in Heq. lia.
Qed.

Example getThumbnailPath_example :
  getThumbnailPath (JS.lit "photos/img1.jpg") Image =
  JS.lit "thumbnails/e/a/ea201fb4a14e2c16.jpg" /\
  getThumbnailPath (JS.lit "clips/Holiday.MP4") Video =
  JS.lit "thumbnails/5/d/5d954836b5b751d4.webp" /\
  getThumbnailPath (JS.lit "a/b.GIF") Image =
  JS.lit "thumbnails/a/e/aeae36afb03cdb4d.webp".
Proof. vm_compute. repeat split. Qed.

(** ** Video sampling parameters *)

Lemma hexValue_lowerHex (c : Z) :
  isLowerHex c -> exists d, JS.hexValue c = Some d /\ 0 <= d < 16.
Proof.
  intros [H | H]; unfold JS.hexValue.
  - replace ((48 <=? c) && (c <=? 57)) with true by (symmetry; apply andb_true_iff; lia).
    exists (c - 48). split; [reflexivity | lia].
  - replace ((48 <=? c) && (c <=? 57)) with false by (symmetry; apply andb_false_iff; lia).
    replace ((97 <=? c) && (c <=? 102)) with true by (symmetry; apply andb_true_iff; lia).
    exists (c - 87). split; [reflexivity | lia].
Qed.

(** [parseInt] of a pair of hexadecimal digits is its byte value. *)
Lemma parseInt16_pair (c0 c1 : Z) :
  isLowerHex c0 -> isLowerHex c1 ->
  exists d0 d1, JS.hexValue c0 = Some d0 /\ JS.hexValue c1 = Some d1 /\
    0 <= d0 < 16 /\ 0 <= d1 < 16 /\
    JS.parseInt16 [c0; c1] = Some (16 * d0 + d1).
Proof.
  intros H0 H1.
  destruct (hexValue_lowerHex c0 H0) as (d0 & E0 & B0).
  destruct (hexValue_lowerHex c1 H1) as (d1 & E1 & B1).
  exists d0, d1. repeat (split; [assumption || lia |]).
  unfold JS.parseInt16. cbn [JS.parseHex_from]. rewrite E0, E1. f_equal. lia.
Qed.

(** The two parameters read off a fingerprint, and their ranges. *)
Lemma sampling_bounds (fp : list Z) :
  length fp = 16%nat -> Forall isLowerHex fp ->
  exists base frames,
    baseSegmentCount fp = Some base /\ framesPerSegment fp = Some frames /\
    7 <= base <= 10 /\ 10 <= frames <= 20.
Proof.
  intros Hlen Hhex.
  destruct fp as [| c0 [| c1 [| c2 [| c3 rest]]]]; try discriminate.
  inversion Hhex as [| ? ? H0 Hhex1]; subst.
  inversion Hhex1 as [| ? ? H1 Hhex2]; subst.
  inversion Hhex2 as [| ? ? H2 Hhex3]; subst.
  inversion Hhex3 as [| ? ? H3 _]; subst.
  destruct (parseInt16_pair c0 c1 H0 H1) as (d0 & d1 & _ & _ & B0 & B1 & P01).
  destruct (parseInt16_pair c2 c3 H2 H3) as (d2 & d3 & _ & _ & B2 & B3 & P23).
  exists ((16 * d0 + d1) mod 4 + 7), ((16 * d2 + d3) mod 11 + 10).
  unfold baseSegmentCount, framesPerSegment, JS.slice.
  cbn [skipn firstn Nat.sub]. rewrite firstn_O.
  rewrite P01, P23. cbn [option_map].
  pose proof (Z.mod_pos_bound (16 * d0 + d1) 4 ltac:(lia)).
  pose proof (Z.mod_pos_bound (16 * d2 + d3) 11 ltac:(lia)).
  repeat (split; [reflexivity || lia |]). lia.
Qed.



(** The parameters the program derives for a video come out of the
    fingerprint of the path it is given. *)
Lemma video_parameters (videoPath : list Z) (duration : Q) :
  7 <= match baseSegmentCount (hashPath videoPath) with Some b => b | None => 0 end <= 10 /\
  10 <= videoFrames videoPath <= 20 /\
  1 <= videoSegments videoPath duration <= 10.
Proof.
  unfold videoFrames, videoSegments.
  destruct (sampling_bounds (hashPath videoPath)
              (hashPath_length videoPath) (hashPath_lowerHex videoPath))
    as (base & frames & -> & -> & Hb & Hf).
  unfold segmentCount. lia.
Qed.

Example sampling_example :
  baseSegmentCount (hashPath (JS.lit "a.mp4")) = Some 9 /\
  framesPerSegment (hashPath (JS.lit "a.mp4")) = Some 13 /\
  videoSegments (JS.lit "a.mp4") (7 # 2) = 3.
Proof. vm_compute. repeat split. Qed.

(** ** Scratch frame names *)

Lemma str_ltb_app (p a b : list Z) : str_ltb (p ++ a) (p ++ b) = str_ltb a b.
Proof.
  induction p as [| x p IH]; [reflexivity |].
  cbn [app str_ltb]. rewrite Z.ltb_irrefl, Z.eqb_refl, IH. reflexivity.
Qed.

Lemma digitChar_lt (a b : Z) :
  0 <= a < b -> b < 10 -> (JS.digitChar a <? JS.digitChar b) = true.
Proof.
  intros Hab Hb. unfold JS.digitChar.
  destruct (Z.ltb_spec a 10), (Z.ltb_spec b 10); apply Z.ltb_lt; lia.
Qed.

(** Fixed-width decimal numerals compare as their numbers do, whatever
    follows them. *)
Lemma fixedDigits_ltb (k : nat) :
  forall i j s t, 0 <= i < j -> j < 10 ^ Z.of_nat k ->
  str_ltb (fixedDigits 10 k i ++ s) (fixedDigits 10 k j ++ t) = true.
Proof.
  induction k as [| k IH]; intros i j s t Hij Hj.
  - simpl in Hj. lia.
  - cbn [fixedDigits]. rewrite <- !app_assoc.
    rewrite Nat2Z.inj_succ, Z.pow_succ_r in Hj by lia.
    assert (Hdiv : i / 10 <= j / 10) by (apply Z.div_le_mono; lia).
    destruct (Z.eq_dec (i / 10) (j / 10)) as [Heq | Hne].
    + rewrite Heq, str_ltb_app. cbn [app str_ltb].
      rewrite digitChar_lt; [reflexivity | | ].
      * pose proof (Z.div_mod i 10 ltac:(lia)).
        pose proof (Z.div_mod j 10 ltac:(lia)).
        pose proof (Z.mod_pos_bound i 10 ltac:(lia)). lia.
      * pose proof (Z.mod_pos_bound j 10 ltac:(lia)). lia.
    + apply IH.
      * split; [apply Z.div_pos; lia | lia].
      * apply Z.div_lt_upper_bound; lia.
Qed.

Lemma frameName_digits (i : Z) :
  0 <= i < 1000 ->
  frameName i = JS.lit "frame_" ++ fixedDigits 10 3 i ++ JS.lit ".png".
Proof.
  intros Hi. unfold frameName. rewrite padStart_toString; [reflexivity | lia | | lia].
  change (10 ^ Z.of_nat 3) with 1000. lia.
Qed.

Lemma frameName_ltb (i j : Z) :
  0 <= i < j -> j < 1000 -> str_ltb (frameName i) (frameName j) = true.
Proof.
  intros Hij Hj. rewrite !frameName_digits by lia.
  rewrite str_ltb_app. apply fixedDigits_ltb; [assumption |].
  change (10 ^ Z.of_nat 3) with 1000. lia.
Qed.

Lemma str_ltb_irrefl (a : list Z) : str_ltb a a = false.
Proof.
  induction a as [| x a IH]; [reflexivity |].
  cbn [str_ltb]. rewrite Z.ltb_irrefl, Z.eqb_refl, IH. reflexivity.
Qed.

Lemma frameName_length (i : Z) : 0 <= i < 1000 -> length (frameName i) = 13%nat.
Proof.
  intros Hi. rewrite frameName_digits by lia.
  rewrite !length_app, fixedDigits_length. reflexivity.
Qed.

Lemma indices_length (n : Z) : length (indices n) = Z.to_nat n.
Proof. unfold indices. now rewrite length_map, length_seq. Qed.

Lemma indices_succ (n : Z) : 0 <= n -> indices (n + 1) = indices n ++ [n].
Proof.
  intros Hn. unfold indices.
  replace (Z.to_nat (n + 1)) with (Z.to_nat n + 1)%nat by lia.
  rewrite seq_app, map_app. cbn [seq List.map]. now rewrite Nat.add_0_l, Z2Nat.id.
Qed.

Lemma indices_In (n i : Z) : In i (indices n) <-> 0 <= i < n.
Proof.
  unfold indices. rewrite in_map_iff. split.
  - intros (k & <- & Hk). apply in_seq in Hk. lia.
  - intros Hi. exists (Z.to_nat i). split; [lia |]. apply in_seq. lia.
Qed.


(** ** The extraction loops *)

Lemma range_nil (k : Z) : range k 0 = [].
Proof. reflexivity. Qed.

Lemma range_cons (k n : Z) : 0 <= n -> range k (n + 1) = k :: range (k + 1) n.
Proof.
  intros Hn. unfold range, indices.
  replace (Z.to_nat (n + 1)) with (S (Z.to_nat n)) by lia.
  cbn [seq List.map]. f_equal; [lia |].
  rewrite <- seq_shift, !List.map_map. apply List.map_ext. intros a. lia.
Qed.

Lemma seq_from (a n : nat) :
  seq a n = List.map (fun i => (a + i)%nat) (seq 0 n).
Proof.
  revert a. induction n as [| n IH]; intros a; [reflexivity |].
  cbn [seq List.map]. f_equal; [lia |].
  rewrite (IH (S a)), (IH 1%nat), List.map_map.
  apply List.map_ext. intros i. lia.
Qed.

Lemma range_app (k n m : Z) : 0 <= n -> 0 <= m ->
  range k (n + m) = range k n ++ range (k + n) m.
Proof.
  intros Hn Hm. unfold range, indices.
  replace (Z.to_nat (n + m)) with (Z.to_nat n + Z.to_nat m)%nat by lia.
  rewrite seq_app, !map_app. f_equal.
  rewrite Nat.add_0_l, (seq_from (Z.to_nat n)), !List.map_map.
  apply List.map_ext. intros a. lia.
Qed.

Lemma range_0 (n : Z) : range 0 n = indices n.
Proof. unfold range. rewrite <- (List.map_id (indices n)) at 2. now apply List.map_ext. Qed.

Lemma range_In (k n i : Z) : In i (range k n) <-> k <= i < k + n.
Proof.
  unfold range. rewrite in_map_iff. split.
  - intros (j & <- & Hj). apply indices_In in Hj. lia.
  - intros Hi. exists (i - k). split; [lia |]. apply indices_In. lia.
Qed.

Lemma extractedFrames_app (a b : list command) :
  extractedFrames (a ++ b) = extractedFrames a ++ extractedFrames b.
Proof. unfold extractedFrames. apply omap_app. Qed.

Lemma extractFrames_post (o : video_oracle) (d : list Z) (seg : Z) (fs : list Z) :
  forall k w, is_Some (scratch w !! d) ->
  loop_post o d k (Z.of_nat (length fs)) w (extractFrames d o seg fs k w).
Proof.
  induction fs as [| f rest IH]; intros k w [files Hd].
  - exists 0, files, []. cbn [extractFrames ret fst snd length].
    rewrite insert_id, app_nil_r by assumption.
    split; [lia |]. do 5 (split; [reflexivity |]).
    split; [reflexivity |]. split; [lia |]. intros i Hi. lia.
  - cbn [extractFrames length]. rewrite Nat2Z.inj_succ.
    unfold bind at 1, emit at 1. unfold bind at 1.
    destruct (frame_exec o k) eqn:Hexec; cbn [execSync].
    + set (w1 := write_scratch d (frameName k) _).
      assert (Hw1 : scratch w1 = <[d := {[frameName k]} ∪ files]> (scratch w)).
      { subst w1. unfold write_scratch. cbn [scratch]. rewrite Hd. reflexivity. }
      destruct (IH (k + 1) w1) as (n & files' & cmds & Hn & Hc & Hs & Ht & He & Ha & Hr).
      { rewrite Hw1, lookup_insert_eq. eauto. }
      exists (n + 1), files', (CmdExtract seg f d (frameName k) :: cmds).
      split; [lia |].
      split; [rewrite Hc; subst w1; unfold write_scratch; cbn [scratch]; rewrite Hd;
              reflexivity |].
      split; [rewrite Hs, Hw1; apply insert_insert_eq |].
      split; [rewrite Ht; subst w1; unfold write_scratch; cbn [scratch]; rewrite Hd;
              cbn [trace set_scratch]; rewrite <- app_assoc; reflexivity |].
      split; [rewrite range_cons by lia; cbn [List.map];
              change (extractedFrames (CmdExtract seg f d (frameName k) :: cmds))
                with (frameName k :: extractedFrames cmds); now rewrite He |].
      split; [exact Ha |].
      destruct (fst (extractFrames d o seg rest (k + 1) w1)) as [k' | e].
      * destruct Hr as (-> & -> & Hall).
        split; [lia |]. split; [lia |]. intros i Hi.
        destruct (Z.eq_dec i k) as [-> | Hne]; [assumption | apply Hall; lia].
      * destruct Hr as (-> & Hn1 & Hfail).
        split; [reflexivity |]. split; [lia |].
        replace (k + (n + 1) - 1) with (k + 1 + n - 1) by lia. exact Hfail.
    + exists 1, (if outputLeft then {[frameName k]} ∪ files else files),
        [CmdExtract seg f d (frameName k)].
      cbn [fst snd]. split; [lia |].
      split; [destruct outputLeft; unfold write_scratch; cbn [scratch]; rewrite ?Hd;
              reflexivity |].
      split; [destruct outputLeft; unfold write_scratch; cbn [scratch]; rewrite ?Hd;
              cbn [scratch set_scratch]; [reflexivity | now rewrite insert_id] |].
      split; [destruct outputLeft; unfold write_scratch; cbn [scratch]; rewrite ?Hd;
              reflexivity |].
      split; [change 1 with (0 + 1); rewrite (range_cons k 0), range_nil by lia;
              reflexivity |].
      split; [reflexivity |].
      split; [reflexivity |]. split; [lia |].
      replace (k + 1 - 1) with k by lia. rewrite Hexec. discriminate.
Qed.

Lemma loop_post_is_Some o d k total w out :
  loop_post o d k total w out -> is_Some (scratch (snd out) !! d).
Proof.
  intros (n & files & cmds & _ & _ & Hs & _). rewrite Hs, lookup_insert_eq. eauto.
Qed.

(** Two loops in sequence: the second runs when the first ended normally. *)
Lemma loop_post_seq o d k a b w out1 out2 :
  0 <= b ->
  loop_post o d k a w out1 ->
  match fst out1 with
  | Returned k' => loop_post o d k' b (snd out1) out2
  | Thrown _ => out2 = out1
  end ->
  loop_post o d k (a + b) w out2.
Proof.
  intros Hb (n & files & cmds & Hn & Hc & Hs & Ht & He & Ha & Hr) H2.
  destruct (fst out1) as [k' | e] eqn:Hout1.
  - destruct Hr as (-> & -> & Hall).
    destruct H2 as (n2 & files2 & cmds2 & Hn2 & Hc2 & Hs2 & Ht2 & He2 & Ha2 & Hr2).
    exists (a + n2), files2, (cmds ++ cmds2).
    split; [lia |].
    split; [congruence |].
    split; [rewrite Hs2, Hs; apply insert_insert_eq |].
    split; [rewrite Ht2, Ht; now rewrite app_assoc |].
    split; [rewrite extractedFrames_app, range_app, map_app, He, He2 by lia;
            reflexivity |].
    split; [rewrite existsb_app, Ha, Ha2; reflexivity |].
    destruct (fst out2) as [k2 | e2].
    + destruct Hr2 as (-> & -> & Hall2).
      split; [reflexivity |]. split; [lia |]. intros i Hi.
      destruct (Z.lt_ge_cases i (k + a)); [apply Hall | apply Hall2]; lia.
    + destruct Hr2 as (-> & Hn1 & Hfail).
      split; [reflexivity |]. split; [lia |].
      replace (k + (a + n2) - 1) with (k + a + n2 - 1) by lia. exact Hfail.
  - subst out2. exists n, files, cmds. rewrite Hout1.
    split; [lia |]. repeat (split; [assumption |]). exact Hr.
Qed.

Lemma extractSegments_post (o : video_oracle) (d : list Z) (frames : Z)
    (segs : list Z) :
  0 <= frames ->
  forall k w, is_Some (scratch w !! d) ->
  loop_post o d k (Z.of_nat (length segs) * frames) w
            (extractSegments d o frames segs k w).
Proof.
  intros Hf. induction segs as [| seg rest IH]; intros k w Hd.
  - destruct Hd as [files Hd]. exists 0, files, [].
    cbn [extractSegments ret fst snd length].
    rewrite insert_id, app_nil_r by assumption.
    split; [lia |]. do 5 (split; [reflexivity |]).
    split; [reflexivity |]. split; [lia |]. intros i Hi. lia.
  - cbn [extractSegments length]. rewrite Nat2Z.inj_succ.
    replace (Z.succ (Z.of_nat (length rest)) * frames)
      with (frames + Z.of_nat (length rest) * frames) by lia.
    pose proof (extractFrames_post o d seg (indices frames) k w Hd) as H1.
    rewrite indices_length, Z2Nat.id in H1 by assumption.
    unfold bind.
    destruct (extractFrames d o seg (indices frames) k w) as [[k' | e] w1] eqn:Hrun.
    + apply (loop_post_seq o d k frames (Z.of_nat (length rest) * frames) w _ _
               ltac:(lia) H1).
      cbn [fst snd]. apply IH. apply (loop_post_is_Some _ _ _ _ _ _ H1).
    + apply (loop_post_seq o d k frames (Z.of_nat (length rest) * frames) w _ _
               ltac:(lia) H1).
      reflexivity.
Qed.

(** ** The cleanup *)

Lemma unlinkAll_removes (d : list Z) (names : list (list Z)) :
  forall w files, scratch w !! d = Some files -> NoDup names ->
  (forall x, In x names -> x ∈ files) ->
  unlinkAll d names w =
  (Returned tt, set_scratch (<[d := files ∖ list_to_set names]> (scratch w)) w).
Proof.
  induction names as [| x rest IH]; intros w files Hd Hnd Hin.
  - cbn [unlinkAll ret list_to_set].
    rewrite difference_empty_L, insert_id by assumption. destruct w; reflexivity.
  - cbn [unlinkAll]. unfold bind, unlinkSync. rewrite Hd.
    rewrite bool_decide_eq_true_2 by (apply Hin; now left).
    inversion Hnd as [| ? ? Hx Hrest]; subst.
    rewrite (IH _ (files ∖ {[x]})).
    + cbn [scratch set_scratch cache trace]. rewrite insert_insert_eq.
      f_equal. unfold set_scratch. cbn [cache trace]. f_equal. f_equal.
      cbn [list_to_set]. apply difference_difference_l_L.
    + cbn [scratch set_scratch]. apply lookup_insert_eq.
    + assumption.
    + intros y Hy. apply elem_of_difference. split; [apply Hin; now right |].
      intros Hyx. apply elem_of_singleton in Hyx. subst y. contradiction.
Qed.

(** The cleanup removes the scratch directory with everything in it, and
    touches nothing else. *)
Lemma cleanup_removes (d : list Z) (w : world) :
  is_Some (scratch w !! d) ->
  cleanup d w = (Returned tt, set_scratch (delete d (scratch w)) w).
Proof.
  intros [files Hd]. unfold cleanup, try_catch, bind, readdirSync. rewrite Hd.
  rewrite (unlinkAll_removes d (elements files) w files Hd).
  - unfold rmdirSync. cbn [scratch set_scratch]. rewrite lookup_insert_eq.
    rewrite list_to_set_elements_L.
    rewrite difference_diag_L, bool_decide_eq_true_2 by reflexivity.
    rewrite delete_insert_eq. reflexivity.
  - apply NoDup_ListNoDup, NoDup_elements.
  - intros x Hx. apply elem_of_elements, list_elem_of_In, Hx.
Qed.

(** ** One call of [generateVideoThumbnail] *)

Lemma generateVideoThumbnail_unfold videoPath outputPath o w :
  generateVideoThumbnail videoPath outputPath o w =
  let w1 := snd (emit (CmdProbe videoPath) w) in
  match probe o with
  | None => (Thrown DurationUnavailable, w1)
  | Some duration =>
      if Qle_bool duration 0 then (Thrown DurationUnavailable, w1)
      else
        match scratch w !! tempDirName o with
        | Some _ => (Thrown FsError, w1)
        | None =>
            let w2 := set_scratch (<[tempDirName o := ∅]> (scratch w)) w1 in
            try_finally (tryBody videoPath outputPath o duration (tempDirName o))
                        (cleanup (tempDirName o)) w2
        end
  end.
Proof.
  unfold generateVideoThumbnail, getVideoDuration, bind, emit, ret, throw, mkdtempSync.
  cbn [snd scratch].
  destruct (probe o) as [duration |]; [| reflexivity].
  destruct (Qle_bool duration 0); [reflexivity |].
  cbn [scratch].
  destruct (scratch w !! tempDirName o); reflexivity.
Qed.

Lemma indices_length_Z (n : Z) : 0 <= n -> Z.of_nat (length (indices n)) = n.
Proof. intros Hn. rewrite indices_length. lia. Qed.

(** The [try] block: the frames are extracted in order; the assembly runs
    only when every extraction succeeded; a failure of either throws. *)
Lemma tryBody_post videoPath outputPath o duration d w :
  is_Some (scratch w !! d) ->
  let total := videoSegments videoPath duration * videoFrames videoPath in
  let out := tryBody videoPath outputPath o duration d w in
  exists n files cmds,
    0 <= n <= total /\
    extractedFrames cmds = List.map frameName (indices n) /\
    existsb isAssemble cmds = false /\
    scratch (snd out) = <[d := files]> (scratch w) /\
    ((1 <= n /\ frame_exec o (n - 1) <> ExecOk /\
      fst out = Thrown CommandFailed /\
      cache (snd out) = cache w /\
      trace (snd out) = trace w ++ cmds)
     \/
     (n = total /\ (forall i, 0 <= i < total -> frame_exec o i = ExecOk) /\
      trace (snd out) = trace w ++ cmds ++ [CmdAssemble d outputPath] /\
      match assemble_exec o with
      | ExecOk =>
          fst out = Returned tt /\ cache (snd out) = {[outputPath]} ∪ cache w
      | ExecFail outputLeft =>
          fst out = Thrown CommandFailed /\
          cache (snd out) = if outputLeft then {[outputPath]} ∪ cache w else cache w
      end)).
Proof.
  intros Hd total out.
  destruct (video_parameters videoPath duration) as (_ & Hframes & Hsegs).
  pose proof (extractSegments_post o d (videoFrames videoPath)
                (indices (videoSegments videoPath duration)) ltac:(lia) 0 w Hd) as Hloop.
  rewrite indices_length_Z in Hloop by lia. fold total in Hloop.
  destruct Hloop as (n & files & cmds & Hn & Hc & Hs & Ht & He & Ha & Hr).
  rewrite range_0 in He.
  exists n, files, cmds. subst out. unfold tryBody, bind.
  destruct (extractSegments d o (videoFrames videoPath)
              (indices (videoSegments videoPath duration)) 0 w) as [[k' | e] w1].
  - cbn [fst snd] in *. destruct Hr as (-> & -> & Hall).
    split; [lia |]. split; [assumption |]. split; [assumption |].
    unfold emit, execSync.
    destruct (assemble_exec o) as [| outputLeft]; [| destruct outputLeft];
      cbn [fst snd scratch cache trace write_cache set_cache];
      (split; [assumption |]); right;
      (split; [reflexivity |]);
      (split; [intros i Hi; apply Hall; lia |]);
      (split; [rewrite Ht; now rewrite app_assoc |]);
      (split; [reflexivity | congruence]).
  - cbn [fst snd] in *. destruct Hr as (-> & Hn1 & Hfail).
    split; [lia |]. split; [assumption |]. split; [assumption |].
    split; [assumption |]. left.
    split; [assumption |]. split; [now replace (n - 1) with (0 + n - 1) by lia |].
    split; [reflexivity |]. split; assumption.
Qed.

Lemma try_finally_cleanup {A} (body : io A) (d : list Z) (w : world) :
  is_Some (scratch (snd (body w)) !! d) ->
  try_finally body (cleanup d) w =
  (fst (body w), set_scratch (delete d (scratch (snd (body w)))) (snd (body w))).
Proof.
  intros Hd. unfold try_finally. destruct (body w) as [r w1]. cbn [fst snd] in *.
  rewrite cleanup_removes by assumption. reflexivity.
Qed.


(** The scratch directory really is populated while the task runs: after
    the extraction loops of the sample video it holds the 30 frames. *)
Example scratch_populated :
  let d := JS.lit "/tmp/video-thumb-Ab3xYz" in
  let w := set_scratch {[d := ∅]} emptyWorld in
  let w' := snd (extractSegments d (sampleVideoOracle ExecOk)
                   (videoFrames sampleVideoPath)
                   (indices (videoSegments sampleVideoPath (7 # 2))) 0 w) in
  option_map (fun files => length (elements files)) (scratch w' !! d) = Some 30%nat.
Proof. vm_compute. reflexivity. Qed.

(** ** Failures of a video task *)

Lemma step_settles_video (ROOT_DIR : list Z) (hasFfmpeg : bool) (i : nat)
    (o : oracle) (p : pool) (item : media_entry) (r : result unit) :
  rejected p = false ->
  workers p !! i = Some (AwaitingVideo item r) ->
  step ROOT_DIR hasFfmpeg i o p =
  Some (settle i item (match r with Returned _ => Generated | Thrown _ => Failed end)
               (env p) p).
Proof.
  intros Hrej Hw. unfold step. rewrite Hrej, Hw. destruct r; reflexivity.
Qed.

(** What a call that got its scratch directory did, in full. *)
Lemma generateVideoThumbnail_run videoPath outputPath o w duration :
  probe o = Some duration -> (0 < duration)%Q ->
  scratch w !! tempDirName o = None ->
  let out := generateVideoThumbnail videoPath outputPath o w in
  let total := videoSegments videoPath duration * videoFrames videoPath in
  exists n cmds,
    0 <= n <= total /\
    extractedFrames cmds = List.map frameName (indices n) /\
    existsb isAssemble cmds = false /\
    ((1 <= n /\ frame_exec o (n - 1) <> ExecOk /\
      fst out = Thrown CommandFailed /\
      cache (snd out) = cache w /\
      trace (snd out) = trace w ++ CmdProbe videoPath :: cmds)
     \/
     (n = total /\ (forall i, 0 <= i < total -> frame_exec o i = ExecOk) /\
      trace (snd out) =
        trace w ++ CmdProbe videoPath :: cmds ++ [CmdAssemble (tempDirName o) outputPath] /\
      match assemble_exec o with
      | ExecOk =>
          fst out = Returned tt /\ cache (snd out) = {[outputPath]} ∪ cache w
      | ExecFail outputLeft =>
          fst out = Thrown CommandFailed /\
          cache (snd out) = if outputLeft then {[outputPath]} ∪ cache w else cache w
      end)).
Proof.
  intros Hprobe Hpos Hfresh out total. subst out.
  rewrite generateVideoThumbnail_unfold. cbn zeta. rewrite Hprobe, Hfresh.
  replace (Qle_bool duration 0) with false.
  2:{ symmetry. apply not_true_is_false. intros H. apply Qle_bool_iff in H.
      apply (Qlt_not_le _ _ Hpos H). }
  set (w2 := set_scratch _ _).
  assert (Hw2 : is_Some (scratch w2 !! tempDirName o)).
  { subst w2. cbn [scratch set_scratch]. rewrite lookup_insert_eq. eauto. }
  destruct (tryBody_post videoPath outputPath o duration (tempDirName o) w2 Hw2)
    as (n & files & cmds & Hn & He & Ha & Hs & Hcases).
  rewrite try_finally_cleanup by (rewrite Hs, lookup_insert_eq; eauto).
  exists n, cmds. cbn [fst snd cache trace set_scratch].
  assert (Htr : trace w2 = trace w ++ [CmdProbe videoPath]) by reflexivity.
  assert (Hca : cache w2 = cache w) by reflexivity.
  rewrite Htr, Hca in Hcases. rewrite <- !app_assoc in Hcases. cbn [app] in Hcases.
  split; [assumption |]. split; [assumption |]. split; [assumption |].
  exact Hcases.
Qed.

(** C7, as stated, fails: when the assembly command fails after it has
    written (part of) its output, which is what a time-out of a running
    ffmpeg leaves, the task ends with an exception and the file is still at
    the destination path; the program has no step that removes it. *)
Lemma assembly_failure_leaves_output :
  let out := generateVideoThumbnail sampleVideoPath sampleOutputPath
               (sampleVideoOracle (ExecFail true)) emptyWorld in
  fst out = Thrown CommandFailed /\
  existsSync sampleOutputPath emptyWorld = false /\
  existsSync sampleOutputPath (snd out) = true.
Proof. vm_compute. repeat split. Qed.

(** C7, amended: a call of [generateVideoThumbnail] that got its duration
    and its scratch directory runs the assembly only after every frame was
    extracted.  If an extraction fails, the call throws, the assembly is not
    run and the destination is untouched.  If the assembly fails, the call
    throws, and the destination holds whatever the assembly command left
    there: nothing when it left nothing, the file when it left one, which
    the program does not remove.  A call that throws is counted as Failed
    when its worker resumes. *)
Theorem video_failure (videoPath outputPath : list Z) (o : video_oracle) (w : world)
    (duration : Q) :
  probe o = Some duration -> (0 < duration)%Q ->
  scratch w !! tempDirName o = None ->
  let out := generateVideoThumbnail videoPath outputPath o w in
  let total := videoSegments videoPath duration * videoFrames videoPath in
  exists cmds,
    trace (snd out) = trace w ++ cmds /\
    ((exists i, 0 <= i < total /\ frame_exec o i <> ExecOk) ->
       fst out = Thrown CommandFailed /\
       existsb isAssemble cmds = false /\
       cache (snd out) = cache w) /\
    (existsb isAssemble cmds = true ->
       (forall i, 0 <= i < total -> frame_exec o i = ExecOk) /\
       extractedFrames cmds = List.map frameName (indices total)) /\
    ((forall i, 0 <= i < total -> frame_exec o i = ExecOk) ->
     forall outputLeft, assemble_exec o = ExecFail outputLeft ->
       fst out = Thrown CommandFailed /\
       cache (snd out) = if outputLeft then {[outputPath]} ∪ cache w else cache w) /\
    (forall e, fst out = Thrown e ->
     forall ROOT_DIR hasFfmpeg i item answers p,
       rejected p = false ->
       workers p !! i = Some (AwaitingVideo item (fst out)) ->
       step ROOT_DIR hasFfmpeg i answers p = Some (settle i item Failed (env p) p)).
Proof.
  intros Hprobe Hpos Hfresh out total.
  destruct (generateVideoThumbnail_run videoPath outputPath o w duration
              Hprobe Hpos Hfresh) as (n & cmds & Hn & He & Ha & Hcases).
  fold out total in Hcases, Hn.
  assert (Hlast : forall c, existsb isAssemble (CmdProbe videoPath :: cmds ++ [c])
                            = isAssemble c).
  { intros c. cbn [existsb isAssemble orb]. rewrite existsb_app, Ha. cbn.
    now rewrite orb_false_r. }
  destruct Hcases as [(Hn1 & Hfail & Hres & Hcache & Htrace)
                     | (-> & Hall & Htrace & Hasm)].
  - exists (CmdProbe videoPath :: cmds).
    assert (Hno : existsb isAssemble (CmdProbe videoPath :: cmds) = false)
      by (cbn [existsb isAssemble orb]; exact Ha).
    split; [exact Htrace |].
    split; [intros _; repeat split; assumption |].
    split; [rewrite Hno; discriminate |].
    split.
    + intros Hall. exfalso. apply Hfail, Hall. lia.
    + intros e Hthrown ROOT_DIR hasFfmpeg i item answers p Hrej Hwk.
      rewrite (step_settles_video _ _ _ _ _ _ _ Hrej Hwk), Hres. reflexivity.
  - exists (CmdProbe videoPath :: cmds ++ [CmdAssemble (tempDirName o) outputPath]).
    split; [exact Htrace |].
    split.
    + intros (i & Hi & Hfail). exfalso. apply Hfail, Hall, Hi.
    + split.
      * intros _. split; [exact Hall |].
        change (CmdProbe videoPath :: cmds ++ [CmdAssemble (tempDirName o) outputPath])
          with ([CmdProbe videoPath] ++ cmds ++ [CmdAssemble (tempDirName o) outputPath]).
        rewrite !extractedFrames_app, He. cbn. now rewrite app_nil_r.
      * split.
        -- intros _ outputLeft Hexec. rewrite Hexec in Hasm. exact Hasm.
        -- intros e Hthrown ROOT_DIR hasFfmpeg i item answers p Hrej Hwk.
           rewrite (step_settles_video _ _ _ _ _ _ _ Hrej Hwk), Hthrown. reflexivity.
Qed.

Lemma video_failure_witness :
  probe (sampleVideoOracle (ExecFail false)) = Some (7 # 2) /\
  (0 < 7 # 2)%Q /\
  scratch emptyWorld !! tempDirName (sampleVideoOracle (ExecFail false)) = None /\
  let out := generateVideoThumbnail sampleVideoPath sampleOutputPath
               (sampleVideoOracle (ExecFail false)) emptyWorld in
  fst out = Thrown CommandFailed /\ cache (snd out) = cache emptyWorld.
Proof.
  split; [reflexivity |]. split; [reflexivity |]. split; [reflexivity |].
  destruct (video_failure sampleVideoPath sampleOutputPath
              (sampleVideoOracle (ExecFail false)) emptyWorld (7 # 2)
              eq_refl eq_refl eq_refl) as (cmds & _ & _ & _ & Hassembly & _).
  apply (Hassembly (fun _ _ => eq_refl) false eq_refl).
Defined.

(** ** Order of the scratch frames *)

Lemma frameName_inj (i j : Z) :
  0 <= i < 1000 -> 0 <= j < 1000 -> frameName i = frameName j -> i = j.
Proof.
  intros Hi Hj Heq.
  destruct (Z.lt_total i j) as [Hlt | [-> | Hgt]]; [| reflexivity |].
  - pose proof (frameName_ltb i j ltac:(lia) ltac:(lia)) as H.
    rewrite Heq, str_ltb_irrefl in H. discriminate.
  - pose proof (frameName_ltb j i ltac:(lia) ltac:(lia)) as H.
    rewrite Heq, str_ltb_irrefl in H. discriminate.
Qed.

(** C10: in one call of [generateVideoThumbnail] the number of scratch
    frames, segment count times frames per segment, is at most 200, below
    1000; the frames are extracted under the names frame_000.png,
    frame_001.png, ... in the order of the loops, every name the index
    zero-padded to exactly three digits; the names are pairwise distinct
    and their lexicographic order is the extraction order; and the
    assembly, when it runs, runs after all of them. *)
Theorem frames_in_order (videoPath outputPath : list Z) (o : video_oracle)
    (w : world) (duration : Q) :
  probe o = Some duration -> (0 < duration)%Q ->
  scratch w !! tempDirName o = None ->
  let out := generateVideoThumbnail videoPath outputPath o w in
  let total := videoSegments videoPath duration * videoFrames videoPath in
  10 <= total <= 200 /\
  (exists n cmds,
     trace (snd out) = trace w ++ cmds /\ 0 <= n <= total /\
     extractedFrames cmds = List.map frameName (indices n) /\
     (existsb isAssemble cmds = true -> n = total) /\
     (fst out = Returned tt -> n = total)) /\
  (forall i, 0 <= i < total ->
     frameName i = JS.lit "frame_" ++ fixedDigits 10 3 i ++ JS.lit ".png") /\
  (forall i j, 0 <= i < j -> j < total ->
     str_ltb (frameName i) (frameName j) = true) /\
  (forall i j, 0 <= i < total -> 0 <= j < total ->
     frameName i = frameName j -> i = j).
Proof.
  intros Hprobe Hpos Hfresh out total.
  destruct (video_parameters videoPath duration) as (_ & Hframes & Hsegs).
  assert (Htotal : 10 <= total <= 200) by (subst total; nia).
  split; [exact Htotal |].
  split.
  - destruct (generateVideoThumbnail_run videoPath outputPath o w duration
                Hprobe Hpos Hfresh) as (n & cmds & Hn & He & Ha & Hcases).
    fold out total in Hcases, Hn.
    destruct Hcases as [(Hn1 & Hfail & Hres & Hcache & Htrace)
                       | (-> & Hall & Htrace & Hasm)].
    + exists n, (CmdProbe videoPath :: cmds).
      split; [exact Htrace |]. split; [exact Hn |].
      split; [exact He |].
      split; [cbn [existsb isAssemble orb]; rewrite Ha; discriminate |].
      rewrite Hres. discriminate.
    + exists total, (CmdProbe videoPath :: cmds ++ [CmdAssemble (tempDirName o) outputPath]).
      split; [exact Htrace |]. split; [lia |].
      split; [| split; reflexivity].
      change (CmdProbe videoPath :: cmds ++ [CmdAssemble (tempDirName o) outputPath])
        with ([CmdProbe videoPath] ++ cmds ++ [CmdAssemble (tempDirName o) outputPath]).
      rewrite !extractedFrames_app, He. cbn. now rewrite app_nil_r.
  - split; [intros i Hi; apply frameName_digits; lia |].
    split; [intros i j Hij Hj; apply frameName_ltb; lia |].
    intros i j Hi Hj. apply frameName_inj; lia.
Qed.

Lemma frames_in_order_witness :
  probe (sampleVideoOracle ExecOk) = Some (7 # 2) /\
  (0 < 7 # 2)%Q /\
  scratch emptyWorld !! tempDirName (sampleVideoOracle ExecOk) = None /\
  10 <= videoSegments sampleVideoPath (7 # 2) * videoFrames sampleVideoPath <= 200.
Proof.
  split; [reflexivity |]. split; [reflexivity |]. split; [reflexivity |].
  apply (frames_in_order sampleVideoPath sampleOutputPath (sampleVideoOracle ExecOk)
           emptyWorld (7 # 2) eq_refl eq_refl eq_refl).
Defined.

Example frames_example :
  extractedFrames
    (trace (snd (generateVideoThumbnail sampleVideoPath sampleOutputPath
                   (sampleVideoOracle ExecOk) emptyWorld))) =
  List.map frameName (indices 30) /\
  frameName 0 = JS.lit "frame_000.png" /\ frameName 29 = JS.lit "frame_029.png".
Proof. vm_compute. repeat split. Qed.

(** ** Discovery *)

Lemma addAll_app (a b : list media_entry) (st : discovery) :
  addAll (a ++ b) st = addAll b (addAll a st).
Proof. apply fold_left_app. Qed.

Lemma findMedia_file_candidates (dir name : list Z) (stat : option Z) (st : discovery) :
  findMedia_file dir name stat st = addAll (candidate_file dir name stat) st.
Proof.
  unfold findMedia_file, candidate_file.
  destruct (includes MEDIA_EXTENSIONS _); [| reflexivity].
  destruct stat as [sz |]; reflexivity.
Qed.

Lemma findMedia_entry_candidates (e : dirent) :
  forall dir st, findMedia_entry dir e st = addAll (candidates_entry dir e) st.
Proof.
  induction e as [name stat | name | name entries IH | name] using dirent_induction;
    intros dir st; cbn [findMedia_entry candidates_entry].
  - destruct (isOutputName name); [reflexivity | apply findMedia_file_candidates].
  - destruct (isOutputName name); reflexivity.
  - destruct (isOutputName name); [reflexivity |].
    revert st. induction IH as [| e rest He _ IHrest]; intros st; [reflexivity |].
    rewrite addAll_app, <- He. apply IHrest.
  - reflexivity.
Qed.

Lemma findMedia_candidates (dir : list Z) (listing : option (list dirent))
    (st : discovery) :
  findMedia dir listing st = addAll (candidates dir listing) st.
Proof.
  destruct listing as [entries |]; [| reflexivity].
  unfold findMedia, candidates. revert st.
  induction entries as [| e rest IH]; intros st; [reflexivity |].
  cbn [fold_left flat_map]. rewrite addAll_app, <- findMedia_entry_candidates. apply IH.
Qed.

(** Deduplicating a list of candidates: the files kept are the first of
    each size not seen before, every other file is counted, and the sizes
    seen grow by the sizes of the list. *)
Lemma addAll_spec (files : list media_entry) :
  forall st,
    media (addAll files st) = media st ++ firstOfEachSize (seenSizes st) files /\
    duplicatesSkipped (addAll files st) =
      duplicatesSkipped st + Z.of_nat (length files)
      - Z.of_nat (length (firstOfEachSize (seenSizes st) files)) /\
    seenSizes (addAll files st) = list_to_set (List.map size files) ∪ seenSizes st.
Proof.
  induction files as [| f rest IH]; intros st.
  - cbn [addAll fold_left firstOfEachSize length List.map list_to_set].
    rewrite app_nil_r, union_empty_l_L. repeat split; lia.
  - change (addAll (f :: rest) st) with (addAll rest (addCandidate st f)).
    destruct (IH (addCandidate st f)) as (Hm & Hd & Hs).
    rewrite Hm, Hd, Hs. unfold addCandidate. cbn [firstOfEachSize List.map list_to_set].
    case_bool_decide as Hseen; cbn [media duplicatesSkipped seenSizes length].
    + repeat split; [lia |]. set_solver.
    + rewrite <- app_assoc. cbn [app]. repeat split; [lia |]. set_solver.
Qed.

Lemma firstOfEachSize_sizes (files : list media_entry) :
  forall seen,
    NoDup (List.map size (firstOfEachSize seen files)) /\
    (forall f, In f (firstOfEachSize seen files) -> (size f ∉ seen) /\ In f files).
Proof.
  induction files as [| f rest IH]; intros seen; cbn [firstOfEachSize].
  - split; [constructor | intros f []].
  - case_bool_decide as Hseen.
    + destruct (IH seen) as (Hnd & Hin). split; [assumption |].
      intros g Hg. destruct (Hin g Hg). split; [assumption | now right].
    + destruct (IH ({[size f]} ∪ seen)) as (Hnd & Hin). split.
      * cbn [List.map]. constructor; [| assumption].
        intros Hf. apply in_map_iff in Hf as (g & Hsz & Hg).
        destruct (Hin g Hg) as [Hnot _]. apply Hnot. rewrite Hsz. set_solver.
      * intros g [<- | Hg]; [split; [assumption | now left] |].
        destruct (Hin g Hg) as [Hnot Hgin]. split; [set_solver | now right].
Qed.

Lemma addAll_seen (f : media_entry) (files : list media_entry) :
  forall st, size f ∈ seenSizes (addAll files st) ->
  size f ∈ seenSizes st \/
  exists g, In g (firstOfEachSize (seenSizes st) files) /\ size g = size f.
Proof.
  unfold addAll. induction files as [| h rest IH]; intros st Hin; [now left |].
  cbn [fold_left] in Hin. destruct (IH _ Hin) as [Hseen | (g & Hg & Hsz)].
  - unfold addCandidate in Hseen. cbn [firstOfEachSize].
    case_bool_decide as Hh; cbn [seenSizes] in Hseen; [now left |].
    apply elem_of_union in Hseen as [Hseen | Hseen]; [| now left].
    apply elem_of_singleton in Hseen. right. exists h. split; [now left | congruence].
  - right. exists g. split; [| assumption].
    unfold addCandidate in Hg. cbn [firstOfEachSize].
    case_bool_decide as Hh; cbn [seenSizes] in Hg; [assumption | now right].
Qed.

(** C3: the inventory [findMedia] returns holds no two entries of the same
    byte size: it is the list of the media files of the tree, in the order
    the scan meets them, with every file dropped whose size equals the size
    of a file met before, and [duplicatesSkipped] counts the dropped files.
    In particular three files of sizes 100, 200, 100 met in that order give
    the first and the second, and one skipped duplicate. *)
Theorem findMedia_dedup (listing : option (list dirent)) :
  let st := findMedia [] listing discovery_init in
  let found := candidates [] listing in
  NoDup (List.map size (media st)) /\
  media st = firstOfEachSize ∅ found /\
  duplicatesSkipped st = Z.of_nat (length found) - Z.of_nat (length (media st)) /\
  (forall f, In f found -> exists g, In g (media st) /\ size g = size f) /\
  (forall f1 f2 f3, found = [f1; f2; f3] ->
     size f1 = 100 -> size f2 = 200 -> size f3 = 100 ->
     media st = [f1; f2] /\ duplicatesSkipped st = 1).
Proof.
  intros st found. subst st. rewrite findMedia_candidates. fold found.
  destruct (addAll_spec found discovery_init) as (Hm & Hd & Hs).
  cbn [media duplicatesSkipped seenSizes discovery_init app] in Hm, Hd, Hs.
  split; [rewrite Hm; apply firstOfEachSize_sizes |].
  split; [exact Hm |].
  split; [rewrite Hd, Hm; lia |].
  split.
  - intros f Hf.
    assert (Hin : size f ∈ seenSizes (addAll found discovery_init)).
    { rewrite Hs. apply elem_of_union_l, elem_of_list_to_set, list_elem_of_In.
      now apply in_map. }
    rewrite Hm.
    destruct (addAll_seen f found discovery_init Hin) as [Hempty | Hex]; [| exact Hex].
    cbn [seenSizes discovery_init] in Hempty. now apply not_elem_of_empty in Hempty.
  - intros f1 f2 f3 Hfound H1 H2 H3. rewrite Hd, Hm, Hfound.
    cbn [firstOfEachSize length]. rewrite H1, H2, H3.
    repeat (case_bool_decide; try set_solver).
Qed.

Example findMedia_example :
  let tree := Some [DFile (JS.lit "a.jpg") (Some 100);
                    DDir (JS.lit "sub") (Some [DFile (JS.lit "b.PNG") (Some 200);
                                                DFile (JS.lit "notes.txt") (Some 100)]);
                    DDir (JS.lit "thumbnails") (Some [DFile (JS.lit "x.jpg") (Some 7)]);
                    DFile (JS.lit "c.mp4") (Some 100);
                    DFile (JS.lit "d.gif") None;
                    DDir (JS.lit "locked") None] in
  let st := findMedia [] tree discovery_init in
  media st =
    [{| path := JS.lit "a.jpg"; size := 100; type := Image |};
     {| path := JS.lit "sub/b.PNG"; size := 200; type := Image |}] /\
  duplicatesSkipped st = 1.
Proof. vm_compute. split; reflexivity. Qed.

(** ** The worker pool *)

Section PoolProperties.

Variable ROOT_DIR : list Z.
Variable hasFfmpeg : bool.

Lemma step_transition (i : nat) (o : oracle) (p p' : pool) :
  step ROOT_DIR hasFfmpeg i o p = Some p' ->
  rejected p = false /\ transition ROOT_DIR hasFfmpeg i o p p'.
Proof.
  unfold step. destruct (rejected p) eqn:Hrej; [discriminate |].
  intros Hstep. split; [reflexivity |].
  destruct (workers p !! i) as [[| item r | item |] |] eqn:Hwk; try discriminate.
  - destruct (queue p) as [| item rest] eqn:Hq.
    + injection Hstep as <-. now apply TFinish.
    + change (env (dequeue p)) with (env p) in Hstep.
      destruct (existsSync (thumbPathOf ROOT_DIR item) (env p)) eqn:Hex.
      * injection Hstep as <-. now apply (TCacheHit _ _ _ _ _ item rest).
      * destruct (type item) eqn:Hty; cbn [isVideoType andb] in Hstep.
        -- destruct (mkdir_ok o) eqn:Hmk; cbn [negb] in Hstep.
           ++ injection Hstep as <-. now apply (TImage _ _ _ _ _ item rest).
           ++ injection Hstep as <-. now apply (TMkdirThrows _ _ _ _ _ item rest).
        -- destruct hasFfmpeg eqn:Hff; cbn [negb] in Hstep.
           ++ destruct (mkdir_ok o) eqn:Hmk; cbn [negb] in Hstep.
              ** destruct (generateVideoThumbnail _ _ _ _) as [r w] eqn:Hgen.
                 injection Hstep as <-.
                 pose proof (TVideo ROOT_DIR true i o p item rest Hwk Hq Hex Hty
                               eq_refl Hmk) as Ht.
                 cbn zeta in Ht. rewrite Hgen in Ht. exact Ht.
              ** injection Hstep as <-. now apply (TMkdirThrows _ _ _ _ _ item rest).
           ++ injection Hstep as <-. now apply (TNoDecoder _ _ _ _ _ item rest).
  - pose proof (TVideoSettled ROOT_DIR hasFfmpeg i o p item r Hwk) as Ht.
    destruct r; injection Hstep as <-; exact Ht.
  - pose proof (TImageSettled ROOT_DIR hasFfmpeg i o p item Hwk) as Ht.
    cbn zeta in Ht.
    destruct (execSync _ _ _) as [[? | ?] w]; injection Hstep as <-; exact Ht.
Qed.

Lemma inFlight_replicate (n : nat) : inFlight (replicate n AtLoopHead) = [].
Proof. induction n as [| n IH]; [reflexivity | exact IH]. Qed.

Lemma pool_inv_init (mediaList : list media_entry) (n : nat) (w : world) :
  pool_inv mediaList n (pool_init mediaList n w).
Proof.
  intros _. unfold pool_ok, pool_init, count_outcomes.
  cbn [completed skipped failed workers queue outcomes length List.map List.filter app].
  rewrite inFlight_replicate, length_replicate. cbn [app].
  repeat split; try reflexivity.
  - intros Hin. apply list_elem_of_In, elem_of_replicate in Hin as [? _]. discriminate.
  - constructor.
Qed.

Lemma inFlight_insert (ws : list worker) (i : nat) (old new : worker) :
  ws !! i = Some old ->
  inFlight (<[i := new]> ws) ++ awaited old ≡ₚ awaited new ++ inFlight ws.
Proof.
  intros Hi.
  assert (Hlt : (i < length ws)%nat) by (eapply lookup_lt_Some; eassumption).
  rewrite (insert_take_drop ws i new Hlt).
  rewrite <- (take_drop_middle ws i old Hi) at 3.
  unfold inFlight. rewrite !flat_map_app. cbn [flat_map].
  solve_Permutation.
Qed.

Lemma Finished_insert (ws : list worker) (i : nat) (new : worker) :
  In Finished (<[i := new]> ws) -> new = Finished \/ In Finished ws.
Proof.
  destruct (decide (i < length ws)%nat) as [Hlt | Hge].
  - rewrite (insert_take_drop ws i new Hlt). intros Hin.
    apply in_app_or in Hin as [Hin | [Hin | Hin]].
    + right. rewrite <- (take_drop i ws). apply in_or_app. now left.
    + now left.
    + right. rewrite <- (take_drop (S i) ws). apply in_or_app. now right.
  - rewrite list_insert_ge by lia. now right.
Qed.

Lemma count_outcomes_settle (f : outcome -> bool) i item out w p :
  count_outcomes f (settle i item out w p) =
  count_outcomes f p + (if f out then 1 else 0).
Proof.
  unfold count_outcomes, settle. cbn [outcomes].
  rewrite List.filter_app, length_app. cbn [List.filter snd].
  destruct (f out); cbn [length]; lia.
Qed.

(** A task ends: the entry moves from where it was (queued or in flight) to
    the recorded outcomes. *)
Lemma pool_ok_settle mediaList n i item out w p old :
  workers p !! i = Some old ->
  (In Finished (workers p) -> queue p = []) ->
  completed p = Z.of_nat (length (outcomes p)) ->
  skipped p = count_outcomes isSkipped p ->
  failed p = count_outcomes isFailed p ->
  length (workers p) = n ->
  Forall (fun e => (fst (fst e) < n)%nat) (outcomes p) ->
  (List.map outcomeEntry (outcomes p) ++ [item]) ++ inFlight (workers p) ++ queue p
    ≡ₚ awaited old ++ mediaList ->
  pool_ok mediaList n (settle i item out w p).
Proof.
  intros Hwk Hfin Hc Hs Hf Hlen Hidx Hperm.
  assert (Hlt : (i < n)%nat) by (subst n; eapply lookup_lt_Some; eassumption).
  unfold pool_ok. rewrite !count_outcomes_settle.
  cbn [settle completed skipped failed workers queue outcomes].
  rewrite length_app, map_app, length_insert. cbn [length List.map outcomeEntry fst snd].
  split; [lia |].
  split; [destruct out; cbn [isSkipped]; lia |].
  split; [destruct out; cbn [isFailed]; lia |].
  split; [assumption |].
  split.
  - apply (Permutation_app_inv_l (awaited old)).
    rewrite <- Hperm.
    pose proof (inFlight_insert (workers p) i old AtLoopHead Hwk) as Hins.
    cbn [awaited app] in Hins. rewrite <- Hins. solve_Permutation.
  - split.
    + intros Hin. apply Finished_insert in Hin as [Hin | Hin]; [discriminate |].
      now apply Hfin.
    + apply Forall_app. split; [assumption |]. constructor; [exact Hlt | constructor].
Qed.

(** A worker is suspended on a newly claimed entry, or returns. *)
Lemma pool_ok_suspend mediaList n i wk w p q :
  workers p !! i = Some AtLoopHead ->
  (wk = Finished -> q = []) ->
  (In Finished (workers p) -> q = []) ->
  completed p = Z.of_nat (length (outcomes p)) ->
  skipped p = count_outcomes isSkipped p ->
  failed p = count_outcomes isFailed p ->
  length (workers p) = n ->
  Forall (fun e => (fst (fst e) < n)%nat) (outcomes p) ->
  List.map outcomeEntry (outcomes p) ++ (awaited wk ++ inFlight (workers p)) ++ q
    ≡ₚ mediaList ->
  pool_ok mediaList n
    {| queue := q; completed := completed p; skipped := skipped p; failed := failed p;
       workers := <[i := wk]> (workers p); env := w; rejected := rejected p;
       outcomes := outcomes p |}.
Proof.
  intros Hwk Hwkfin Hfin Hc Hs Hf Hlen Hidx Hperm.
  unfold pool_ok, count_outcomes in *.
  cbn [completed skipped failed workers queue outcomes]. rewrite length_insert.
  repeat (split; [assumption |]).
  split; [| split; [| assumption]].
  - pose proof (inFlight_insert (workers p) i AtLoopHead wk Hwk) as Hins.
    cbn [awaited] in Hins. rewrite app_nil_r in Hins. now rewrite Hins.
  - intros Hin. apply Finished_insert in Hin as [Hin | Hin]; auto.
Qed.

Lemma pool_inv_step mediaList n i o p p' :
  rejected p = false ->
  pool_inv mediaList n p ->
  transition ROOT_DIR hasFfmpeg i o p p' ->
  pool_inv mediaList n p'.
Proof.
  intros Hrej Hinv Ht.
  destruct (Hinv Hrej) as (Hc & Hs & Hf & Hlen & Hperm & Hfin & Hidx).
  assert (Hnofin : forall item rest, queue p = item :: rest -> ~ In Finished (workers p)).
  { intros item rest Hq Hin. apply Hfin in Hin. congruence. }
  destruct Ht as [Hwk Hq | item rest Hwk Hq Hex | item rest Hwk Hq Hex Hty Hff
                 | item rest Hwk Hq Hex Hmk | item rest Hwk Hq Hex Hty Hff Hmk out
                 | item rest Hwk Hq Hex Hty Hmk w | item r Hwk | item Hwk out];
    intros Hrej'.
  - (* the queue is empty: the worker returns *)
    apply pool_ok_suspend; try assumption. intros _. exact Hq.
  - (* cache hit *)
    apply (pool_ok_settle mediaList n i item _ _ _ AtLoopHead); cbn [dequeue workers
      queue outcomes completed skipped failed]; try assumption.
    + intros Hin. exfalso. eapply Hnofin; eassumption.
    + rewrite Hq. cbn [List.tl awaited app]. rewrite <- Hperm, Hq. solve_Permutation.
  - (* no decoder *)
    apply (pool_ok_settle mediaList n i item _ _ _ AtLoopHead); cbn [dequeue workers
      queue outcomes completed skipped failed]; try assumption.
    + intros Hin. exfalso. eapply Hnofin; eassumption.
    + rewrite Hq. cbn [List.tl awaited app]. rewrite <- Hperm, Hq. solve_Permutation.
  - (* mkdirSync throws: the pool is rejected *)
    discriminate Hrej'.
  - (* a video is generated, the worker awaits the result *)
    unfold suspend, dequeue. cbn [completed skipped failed workers queue outcomes rejected].
    rewrite Hq. cbn [List.tl].
    apply pool_ok_suspend; try assumption; try discriminate.
    + intros Hin. exfalso. eapply Hnofin; eassumption.
    + cbn [awaited app]. rewrite <- Hperm, Hq. solve_Permutation.
  - (* an image encoding starts *)
    unfold suspend, dequeue. cbn [completed skipped failed workers queue outcomes rejected].
    rewrite Hq. cbn [List.tl].
    apply pool_ok_suspend; try assumption; try discriminate.
    + intros Hin. exfalso. eapply Hnofin; eassumption.
    + cbn [awaited app]. rewrite <- Hperm, Hq. solve_Permutation.
  - (* the awaited video generation has ended *)
    apply (pool_ok_settle mediaList n i item _ _ _ (AwaitingVideo item r));
      try assumption.
    cbn [awaited app]. rewrite <- Hperm. solve_Permutation.
  - (* the awaited image encoding has ended *)
    apply (pool_ok_settle mediaList n i item _ _ _ (AwaitingImage item));
      try assumption.
    cbn [awaited app]. rewrite <- Hperm. solve_Permutation.
Qed.

Lemma transition_rejected i o p p' :
  transition ROOT_DIR hasFfmpeg i o p p' ->
  rejected p' = false -> rejected p = false.
Proof. intros Ht. destruct Ht; cbn; intros Hr; solve [exact Hr | discriminate]. Qed.

(** Every state a schedule reaches satisfies the invariant. *)
Lemma pool_inv_run mediaList n schedule :
  forall p p', pool_inv mediaList n p ->
  run ROOT_DIR hasFfmpeg schedule p = Some p' ->
  pool_inv mediaList n p'.
Proof.
  induction schedule as [| [i o] rest IH]; intros p p' Hinv Hrun.
  - injection Hrun as <-. exact Hinv.
  - cbn [run] in Hrun.
    destruct (step ROOT_DIR hasFfmpeg i o p) as [p1 |] eqn:Hstep; [| discriminate].
    apply step_transition in Hstep as [Hrej Ht].
    eapply IH; [| eassumption]. eapply pool_inv_step; eassumption.
Qed.

Lemma outcomes_partition (l : list (nat * media_entry * outcome)) :
  Z.of_nat (length l) =
  Z.of_nat (length (List.filter (fun e => isGenerated (snd e)) l)) +
  Z.of_nat (length (List.filter (fun e => isSkipped (snd e)) l)) +
  Z.of_nat (length (List.filter (fun e => isFailed (snd e)) l)).
Proof.
  induction l as [| [[i item] out] rest IH]; [reflexivity |].
  cbn [List.filter snd length]. destruct out; cbn [isGenerated isSkipped isFailed length]; lia.
Qed.

Lemma inFlight_Finished (ws : list worker) :
  Forall (fun wk => wk = Finished) ws -> inFlight ws = [].
Proof.
  induction 1 as [| wk rest -> _ IH]; [reflexivity |].
  unfold inFlight in *. cbn [flat_map awaited app]. exact IH.
Qed.

(** Once the pool has drained, the recorded outcomes are those of the
    entries of the inventory, each once. *)
Lemma drained_outcomes (mediaList : list media_entry) (n : nat) (w : world)
    (schedule : list (nat * oracle)) (p : pool) :
  (1 <= n)%nat ->
  run ROOT_DIR hasFfmpeg schedule (pool_init mediaList n w) = Some p ->
  drained p ->
  List.map outcomeEntry (outcomes p) ≡ₚ mediaList.
Proof.
  intros Hn Hrun [Hrej Hdone].
  destruct (pool_inv_run mediaList n schedule _ _ (pool_inv_init mediaList n w) Hrun Hrej)
    as (_ & _ & _ & Hlen & Hperm & Hfin & _).
  assert (Hq : queue p = []).
  { apply Hfin. destruct (workers p) as [| wk rest]; [cbn in Hlen; lia |].
    inversion Hdone; subst. now left. }
  rewrite Hq, inFlight_Finished, !app_nil_r in Hperm by assumption.
  exact Hperm.
Qed.

(** C9: when the pool has drained (every worker has returned, none has
    thrown), whatever the number of workers from 1 up and whatever the
    order in which they ran, the counts reported satisfy generated + skipped
    + failed = inventory size; every entry of the inventory was claimed by
    exactly one worker and has exactly one recorded outcome, and the three
    counts are the numbers of entries that ended Generated, Skipped and
    Failed. *)
Theorem pool_conservation (mediaList : list media_entry) (n : nat) (w : world)
    (schedule : list (nat * oracle)) (p : pool) :
  (1 <= n)%nat ->
  run ROOT_DIR hasFfmpeg schedule (pool_init mediaList n w) = Some p ->
  drained p ->
  generated p + skipped p + failed p = Z.of_nat (length mediaList) /\
  generated p = count_outcomes isGenerated p /\
  skipped p = count_outcomes isSkipped p /\
  failed p = count_outcomes isFailed p /\
  List.map outcomeEntry (outcomes p) ≡ₚ mediaList /\
  Forall (fun e => (fst (fst e) < n)%nat) (outcomes p).
Proof.
  intros Hn Hrun [Hrej Hdone].
  destruct (pool_inv_run mediaList n schedule _ _ (pool_inv_init mediaList n w) Hrun Hrej)
    as (Hc & Hs & Hf & Hlen & Hperm & Hfin & Hidx).
  assert (Hq : queue p = []).
  { apply Hfin. destruct (workers p) as [| wk rest]; [cbn in Hlen; lia |].
    inversion Hdone; subst. now left. }
  rewrite Hq, inFlight_Finished, !app_nil_r in Hperm by assumption.
  assert (Hcount : completed p = Z.of_nat (length mediaList)).
  { rewrite Hc, <- (Permutation_length Hperm), length_map. reflexivity. }
  pose proof (outcomes_partition (outcomes p)) as Hpart.
  unfold generated. unfold count_outcomes in *.
  repeat split; try assumption; lia.
Qed.

(** ** The pool does drain *)

Lemma run_app (s1 s2 : list (nat * oracle)) (p : pool) :
  run ROOT_DIR hasFfmpeg (s1 ++ s2) p =
  match run ROOT_DIR hasFfmpeg s1 p with
  | Some p' => run ROOT_DIR hasFfmpeg s2 p'
  | None => None
  end.
Proof.
  revert p. induction s1 as [| [i o] rest IH]; intros p; [reflexivity |].
  cbn [app run]. destruct (step ROOT_DIR hasFfmpeg i o p); [apply IH | reflexivity].
Qed.

(** One worker alone empties the queue, when every thumbnail directory can
    be made: each entry takes it one pass, or a pass and a resumption. *)
Lemma worker_empties_queue (n : nat) (o : oracle) (q : list media_entry) :
  (1 <= n)%nat -> mkdir_ok o = true ->
  forall p, queue p = q -> rejected p = false ->
  workers p = replicate n AtLoopHead ->
  exists schedule p',
    run ROOT_DIR hasFfmpeg schedule p = Some p' /\
    queue p' = [] /\ rejected p' = false /\ workers p' = replicate n AtLoopHead.
Proof.
  intros Hn Hmk. induction q as [| item rest IH]; intros p Hq Hrej Hws.
  - exists [], p. repeat split; assumption.
  - assert (Hwk : workers p !! 0%nat = Some AtLoopHead)
      by (rewrite Hws; apply lookup_replicate_2; lia).
    assert (Hback : forall wk, <[0%nat := AtLoopHead]> (<[0%nat := wk]> (workers p))
                               = replicate n AtLoopHead)
      by (intros wk; rewrite list_insert_insert_eq, Hws; apply insert_replicate).
    assert (Hsame : <[0%nat := AtLoopHead]> (workers p) = replicate n AtLoopHead)
      by (rewrite Hws; apply insert_replicate).
    (* the first pass *)
    destruct (step ROOT_DIR hasFfmpeg 0 o p) as [p1 |] eqn:Hstep.
    2:{ exfalso. unfold step in Hstep. rewrite Hrej, Hwk, Hq in Hstep.
        repeat match type of Hstep with
               | context [if ?b then _ else _] => destruct b
               | context [let '(_, _) := ?e in _] => destruct e
               end; discriminate Hstep. }
    pose proof Hstep as Hstep'.
    apply step_transition in Hstep' as [_ Ht].
    destruct Ht as [Hwk' Hq' | item' rest' Hwk' Hq' Hex | item' rest' Hwk' Hq' Hex Hty Hff
                   | item' rest' Hwk' Hq' Hex Hmk'
                   | item' rest' Hwk' Hq' Hex Hty Hff Hmk' out
                   | item' rest' Hwk' Hq' Hex Hty Hmk' w | item' r Hwk' | item' Hwk' out];
      try congruence; rewrite Hq in Hq'; injection Hq' as <- <-.
    + (* cache hit *)
      destruct (IH (settle 0 item SkippedCacheHit (env p) (dequeue p)))
        as (sched & p' & Hrun & Hend);
        [cbn [settle dequeue queue]; now rewrite Hq | exact Hrej | exact Hsame |].
      exists ((0%nat, o) :: sched), p'. cbn [run]. rewrite Hstep. now split.
    + (* no decoder *)
      destruct (IH (settle 0 item SkippedNoDecoder (env p) (dequeue p)))
        as (sched & p' & Hrun & Hend);
        [cbn [settle dequeue queue]; now rewrite Hq | exact Hrej | exact Hsame |].
      exists ((0%nat, o) :: sched), p'. cbn [run]. rewrite Hstep. now split.
    + (* a video: generated in the pass, settled at the resumption *)
      set (p1 := suspend 0 (AwaitingVideo item (fst out)) (snd out) (dequeue p)) in *.
      assert (Hstep2 : step ROOT_DIR hasFfmpeg 0 o p1 =
                Some (settle 0 item
                        (match fst out with Returned _ => Generated | Thrown _ => Failed end)
                        (env p1) p1)).
      { apply step_settles_video; [exact Hrej |].
        cbn [p1 suspend workers dequeue]. apply list_lookup_insert_eq.
        rewrite Hws, length_replicate. lia. }
      destruct (IH (settle 0 item
                      (match fst out with Returned _ => Generated | Thrown _ => Failed end)
                      (env p1) p1)) as (sched & p' & Hrun & Hend).
      { cbn [settle p1 suspend dequeue queue]. now rewrite Hq. }
      { exact Hrej. }
      { cbn [settle p1 suspend dequeue workers]. apply Hback. }
      exists ((0%nat, o) :: (0%nat, o) :: sched), p'. cbn [run].
      rewrite Hstep, Hstep2. now split.
    + (* an image: encoding started in the pass, settled at the resumption *)
      set (p1 := suspend 0 (AwaitingImage item) w (dequeue p)) in *.
      destruct (step ROOT_DIR hasFfmpeg 0 o p1) as [p2 |] eqn:Hstep2.
      2:{ exfalso. unfold step in Hstep2.
          assert (Hw1 : workers p1 !! 0%nat = Some (AwaitingImage item))
            by (cbn [p1 suspend workers dequeue]; apply list_lookup_insert_eq;
                rewrite Hws, length_replicate; lia).
          change (rejected p1) with (rejected p) in Hstep2.
          rewrite Hrej, Hw1 in Hstep2.
          destruct (execSync _ _ _) as [[] ?]; discriminate Hstep2. }
      pose proof Hstep2 as Hstep2'.
      apply step_transition in Hstep2' as [_ Ht2].
      assert (Hw1 : workers p1 !! 0%nat = Some (AwaitingImage item))
        by (cbn [p1 suspend workers dequeue]; apply list_lookup_insert_eq;
            rewrite Hws, length_replicate; lia).
      destruct Ht2 as [Hwk2 | ? ? Hwk2 | ? ? Hwk2 | ? ? Hwk2 | ? ? Hwk2 | ? ? Hwk2
                      | ? ? Hwk2 | item2 Hwk2 out2]; try congruence.
      destruct (IH (settle 0 item2
                      (match fst out2 with Returned _ => Generated | Thrown _ => Failed end)
                      (snd out2) p1)) as (sched & p' & Hrun & Hend).
      { cbn [settle p1 suspend dequeue queue]. now rewrite Hq. }
      { exact Hrej. }
      { cbn [settle p1 suspend dequeue workers]. apply Hback. }
      exists ((0%nat, o) :: (0%nat, o) :: sched), p'. cbn [run].
      rewrite Hstep, Hstep2. now split.
Qed.

(** With the queue empty, the workers return one after the other. *)
Lemma workers_return (n : nat) (o : oracle) (k : nat) :
  forall m p, n = (m + k)%nat -> queue p = [] -> rejected p = false ->
  workers p = replicate m Finished ++ replicate k AtLoopHead ->
  exists schedule p',
    run ROOT_DIR hasFfmpeg schedule p = Some p' /\
    rejected p' = false /\ workers p' = replicate n Finished.
Proof.
  induction k as [| k IH]; intros m p Hn Hq Hrej Hws.
  - exists [], p. cbn [replicate] in Hws. rewrite app_nil_r in Hws.
    replace n with m by lia. repeat split; assumption.
  - assert (Hwk : workers p !! m = Some AtLoopHead).
    { rewrite Hws. rewrite lookup_app_r by (rewrite length_replicate; lia).
      rewrite length_replicate, Nat.sub_diag. reflexivity. }
    assert (Hstep : step ROOT_DIR hasFfmpeg m o p = Some (suspend m Finished (env p) p)).
    { unfold step. rewrite Hrej, Hwk, Hq. reflexivity. }
    destruct (IH (S m) (suspend m Finished (env p) p)) as (sched & p' & Hrun & Hend).
    + lia.
    + exact Hq.
    + exact Hrej.
    + cbn [suspend workers]. rewrite Hws.
      rewrite insert_app_r_alt by (rewrite length_replicate; lia).
      rewrite length_replicate, Nat.sub_diag. cbn [replicate].
      change (<[0%nat := Finished]> (AtLoopHead :: replicate k AtLoopHead))
        with (Finished :: replicate k AtLoopHead).
      change (Finished :: replicate k AtLoopHead)
        with ([Finished] ++ replicate k AtLoopHead).
      rewrite app_assoc. f_equal. symmetry. apply replicate_cons_app.
    + exists ((m, o) :: sched), p'. cbn [run]. rewrite Hstep. now split.
Qed.

(** For every inventory and every number of workers from 1 up there is a
    schedule on which the pool drains. *)
Lemma pool_drains (mediaList : list media_entry) (n : nat) (w : world) :
  (1 <= n)%nat ->
  exists schedule p,
    run ROOT_DIR hasFfmpeg schedule (pool_init mediaList n w) = Some p /\ drained p.
Proof.
  intros Hn.
  destruct (worker_empties_queue n (sampleOracle ExecOk) mediaList Hn eq_refl
              (pool_init mediaList n w) eq_refl eq_refl eq_refl)
    as (s1 & p1 & Hrun1 & Hq1 & Hrej1 & Hws1).
  destruct (workers_return n (sampleOracle ExecOk) n 0 p1 eq_refl Hq1 Hrej1 Hws1)
    as (s2 & p2 & Hrun2 & Hrej2 & Hws2).
  exists (s1 ++ s2), p2. rewrite run_app, Hrun1. split; [exact Hrun2 |].
  split; [exact Hrej2 |]. rewrite Hws2. apply Forall_forall.
  intros wk Hin. apply list_elem_of_In, elem_of_replicate in Hin as [-> _]. reflexivity.
Qed.

(** ** The cache across runs *)

Lemma generateVideoThumbnail_cache videoPath outputPath o w :
  let out := generateVideoThumbnail videoPath outputPath o w in
  cache w ⊆ cache (snd out) /\
  (forall a, fst out = Returned a -> outputPath ∈ cache (snd out)).
Proof.
  cbn zeta. rewrite generateVideoThumbnail_unfold. cbn zeta.
  destruct (probe o) as [duration |]; [| split; [reflexivity | discriminate]].
  destruct (Qle_bool duration 0); [split; [reflexivity | discriminate] |].
  destruct (scratch w !! tempDirName o) eqn:Hfresh;
    [split; [reflexivity | discriminate] |].
  set (w2 := set_scratch _ _).
  assert (Hw2 : is_Some (scratch w2 !! tempDirName o)).
  { subst w2. cbn [scratch set_scratch]. rewrite lookup_insert_eq. eauto. }
  destruct (tryBody_post videoPath outputPath o duration (tempDirName o) w2 Hw2)
    as (n & files & cmds & _ & _ & _ & Hs & Hcases).
  rewrite try_finally_cleanup by (rewrite Hs, lookup_insert_eq; eauto).
  cbn [fst snd cache set_scratch].
  change (cache w2) with (cache w) in Hcases.
  destruct Hcases as [(_ & _ & Hres & Hcache & _) | (_ & _ & _ & Hasm)].
  - rewrite Hres, Hcache. split; [reflexivity | discriminate].
  - destruct (assemble_exec o) as [| outputLeft].
    + destruct Hasm as [_ ->]. split; [set_solver | intros _ _; set_solver].
    + destruct Hasm as [-> ->]. split; [| discriminate].
      destruct outputLeft; set_solver.
Qed.

(** No move of the pool removes a file from the cache. *)
Lemma transition_cache i o p p' :
  transition ROOT_DIR hasFfmpeg i o p p' -> cache (env p) ⊆ cache (env p').
Proof.
  intros Ht.
  destruct Ht as [Hwk Hq | item rest Hwk Hq Hex | item rest Hwk Hq Hex Hty Hff
                 | item rest Hwk Hq Hex Hmk | item rest Hwk Hq Hex Hty Hff Hmk out
                 | item rest Hwk Hq Hex Hty Hmk w | item r Hwk | item Hwk out];
    cbn [env settle suspend reject dequeue]; try reflexivity.
  - apply generateVideoThumbnail_cache.
  - subst out. unfold execSync.
    destruct (encode_exec o) as [| []]; cbn [snd write_cache set_cache cache]; set_solver.
Qed.

Lemma outcomes_settle e i item out w p :
  In e (outcomes (settle i item out w p)) <-> In e (outcomes p) \/ e = (i, item, out).
Proof.
  cbn [settle outcomes]. rewrite in_app_iff. cbn [In]. intuition congruence.
Qed.

Lemma awaited_inFlight (ws : list worker) (i : nat) (wk : worker) (item : media_entry) :
  ws !! i = Some wk -> In item (awaited wk) -> In item (inFlight ws).
Proof.
  intros Hi Hin. unfold inFlight. apply in_flat_map. exists wk. split; [| assumption].
  apply list_elem_of_In, list_elem_of_lookup. eauto.
Qed.

Lemma inFlight_insert_In (ws : list worker) (i : nat) (old new : worker)
    (item : media_entry) :
  ws !! i = Some old ->
  In item (inFlight (<[i := new]> ws)) -> In item (awaited new) \/ In item (inFlight ws).
Proof.
  intros Hi Hin. apply in_app_or.
  eapply Permutation_in; [apply (inFlight_insert ws i old new Hi) |].
  apply in_or_app. now left.
Qed.

Lemma existsSync_true path w : existsSync path w = true <-> path ∈ cache w.
Proof. unfold existsSync. apply bool_decide_eq_true. Qed.

Lemma existsSync_false path w : existsSync path w = false <-> path ∉ cache w.
Proof. unfold existsSync. apply bool_decide_eq_false. Qed.

Lemma artifacts_settle (p q : pool) i item out w' :
  artifacts_inv ROOT_DIR p ->
  workers q = workers p -> outcomes q = outcomes p ->
  cache (env p) ⊆ cache w' ->
  (out = Generated \/ out = SkippedCacheHit -> thumbPathOf ROOT_DIR item ∈ cache w') ->
  artifacts_inv ROOT_DIR (settle i item out w' q).
Proof.
  intros [Hout Hwait] Hws Hos Hsub Hnew. split.
  - intros j it ou Hj Hkind. apply outcomes_settle in Hj as [Hj | Hj].
    + apply Hsub. rewrite Hos in Hj. eapply Hout; eassumption.
    + injection Hj as -> -> ->. now apply Hnew.
  - intros j it a Hj. cbn [settle workers env] in *. rewrite Hws in Hj.
    apply list_lookup_insert_Some in Hj as [(_ & Heq & _) | (_ & Hj)];
      [discriminate Heq |].
    apply Hsub. eapply Hwait; exact Hj.
Qed.

Lemma artifacts_suspend (p q : pool) i wk w' :
  artifacts_inv ROOT_DIR p ->
  workers q = workers p -> outcomes q = outcomes p ->
  cache (env p) ⊆ cache w' ->
  (forall item a, wk = AwaitingVideo item (Returned a) ->
     thumbPathOf ROOT_DIR item ∈ cache w') ->
  artifacts_inv ROOT_DIR (suspend i wk w' q).
Proof.
  intros [Hout Hwait] Hws Hos Hsub Hnew. split.
  - intros j it ou Hj Hkind. cbn [suspend outcomes env] in *. rewrite Hos in Hj.
    apply Hsub. eapply Hout; eassumption.
  - intros j it a Hj. cbn [suspend workers env] in *. rewrite Hws in Hj.
    apply list_lookup_insert_Some in Hj as [(_ & Heq & _) | (_ & Hj)].
    + eapply Hnew. exact Heq.
    + apply Hsub. eapply Hwait; exact Hj.
Qed.

Lemma artifacts_inv_step i o p p' :
  artifacts_inv ROOT_DIR p -> transition ROOT_DIR hasFfmpeg i o p p' -> artifacts_inv ROOT_DIR p'.
Proof.
  intros Hinv Ht.
  pose proof (transition_cache i o p p' Ht) as Hmono.
  destruct Ht as [Hwk Hq | item rest Hwk Hq Hex | item rest Hwk Hq Hex Hty Hff
                 | item rest Hwk Hq Hex Hmk | item rest Hwk Hq Hex Hty Hff Hmk out
                 | item rest Hwk Hq Hex Hty Hmk w | item r Hwk | item Hwk out].
  - apply (artifacts_suspend p); try reflexivity; try assumption. discriminate.
  - apply (artifacts_settle p); try reflexivity; try assumption.
    intros _. apply existsSync_true, Hex.
  - apply (artifacts_settle p); try reflexivity; try assumption.
    intros [|]; discriminate.
  - exact Hinv.
  - apply (artifacts_suspend p); try reflexivity; try assumption.
    intros it a [= -> Hr].
    apply (proj2 (generateVideoThumbnail_cache _ _ _ _) a). exact Hr.
  - apply (artifacts_suspend p); try reflexivity; try assumption. discriminate.
  - apply (artifacts_settle p); try reflexivity; try assumption.
    destruct r as [a | e]; [intros _ | intros [|]; discriminate].
    destruct Hinv as [_ Hwait]. eapply Hwait; exact Hwk.
  - apply (artifacts_settle p); try reflexivity; try assumption.
    subst out. unfold execSync.
    destruct (encode_exec o) as [| outputLeft]; cbn [fst snd];
      [intros _ | intros [|]; discriminate].
    cbn [write_cache set_cache cache]. set_solver.
Qed.

Lemma hits_settle C0 (p q : pool) i item out w' :
  hits_inv ROOT_DIR C0 p ->
  workers q = workers p -> outcomes q = outcomes p ->
  cache (env p) ⊆ cache w' ->
  is_Some (workers p !! i) ->
  (thumbPathOf ROOT_DIR item ∈ C0 -> out = SkippedCacheHit) ->
  hits_inv ROOT_DIR C0 (settle i item out w' q).
Proof.
  intros (Hsub & Hout & Hfly) Hws Hos Hmono [old Hold] Hnew. split; [| split].
  - cbn [settle env]. set_solver.
  - intros j it ou Hj Hhit. apply outcomes_settle in Hj as [Hj | Hj].
    + rewrite Hos in Hj. eapply Hout; eassumption.
    + injection Hj as -> -> ->. now apply Hnew.
  - intros it Hin. cbn [settle workers] in Hin. rewrite Hws in Hin.
    eapply inFlight_insert_In in Hin as [[] | Hin]; [| exact Hold]. now apply Hfly.
Qed.

Lemma hits_suspend C0 (p q : pool) i wk w' :
  hits_inv ROOT_DIR C0 p ->
  workers q = workers p -> outcomes q = outcomes p ->
  cache (env p) ⊆ cache w' ->
  is_Some (workers p !! i) ->
  (forall item, In item (awaited wk) -> thumbPathOf ROOT_DIR item ∉ C0) ->
  hits_inv ROOT_DIR C0 (suspend i wk w' q).
Proof.
  intros (Hsub & Hout & Hfly) Hws Hos Hmono [old Hold] Hnew. split; [| split].
  - cbn [suspend env]. set_solver.
  - intros j it ou Hj Hhit. cbn [suspend outcomes] in Hj. rewrite Hos in Hj.
    eapply Hout; eassumption.
  - intros it Hin. cbn [suspend workers] in Hin. rewrite Hws in Hin.
    eapply inFlight_insert_In in Hin as [Hin | Hin]; [| | exact Hold].
    + now apply Hnew.
    + now apply Hfly.
Qed.

Lemma hits_inv_step C0 i o p p' :
  hits_inv ROOT_DIR C0 p -> transition ROOT_DIR hasFfmpeg i o p p' -> hits_inv ROOT_DIR C0 p'.
Proof.
  intros Hinv Ht.
  pose proof (transition_cache i o p p' Ht) as Hmono.
  assert (Hmiss : forall item, existsSync (thumbPathOf ROOT_DIR item) (env p) = false ->
                    thumbPathOf ROOT_DIR item ∉ C0).
  { intros item Hex Hin. apply existsSync_false in Hex. apply Hex.
    destruct Hinv as [Hsub _]. apply Hsub, Hin. }
  assert (Hfly : forall item wk, workers p !! i = Some wk -> In item (awaited wk) ->
                   thumbPathOf ROOT_DIR item ∉ C0).
  { intros item wk Hwk Hin. destruct Hinv as (_ & _ & Hfly).
    apply Hfly. eapply awaited_inFlight; eassumption. }
  destruct Ht as [Hwk Hq | item rest Hwk Hq Hex | item rest Hwk Hq Hex Hty Hff
                 | item rest Hwk Hq Hex Hmk | item rest Hwk Hq Hex Hty Hff Hmk out
                 | item rest Hwk Hq Hex Hty Hmk w | item r Hwk | item Hwk out].
  - apply (hits_suspend C0 p); try reflexivity; try assumption; [eauto |].
    intros it [].
  - apply (hits_settle C0 p); try reflexivity; try assumption; eauto.
  - apply (hits_settle C0 p); try reflexivity; try assumption; [eauto |].
    intros Hin. exfalso. eapply Hmiss; eassumption.
  - exact Hinv.
  - apply (hits_suspend C0 p); try reflexivity; try assumption; [eauto |].
    intros it [<- | []]. now apply Hmiss.
  - apply (hits_suspend C0 p); try reflexivity; try assumption; [eauto |].
    intros it [<- | []]. now apply Hmiss.
  - apply (hits_settle C0 p); try reflexivity; try assumption; [eauto |].
    intros Hin. exfalso. eapply Hfly; [exact Hwk | now left | exact Hin].
  - apply (hits_settle C0 p); try reflexivity; try assumption; [eauto |].
    intros Hin. exfalso. eapply Hfly; [exact Hwk | now left | exact Hin].
Qed.

(** An invariant of the moves holds along every schedule. *)
Lemma run_invariant (I : pool -> Prop) :
  (forall i o p p', rejected p = false -> I p ->
     transition ROOT_DIR hasFfmpeg i o p p' -> I p') ->
  forall schedule p p', I p ->
  run ROOT_DIR hasFfmpeg schedule p = Some p' -> I p'.
Proof.
  intros Hstep schedule.
  induction schedule as [| [i o] rest IH]; intros p p' Hp Hrun.
  - injection Hrun as <-. exact Hp.
  - cbn [run] in Hrun.
    destruct (step ROOT_DIR hasFfmpeg i o p) as [p1 |] eqn:Hs; [| discriminate].
    apply step_transition in Hs as [Hrej Ht].
    eapply IH; [| eassumption]. eapply Hstep; eassumption.
Qed.

Lemma allhit_inv_step mediaList n w0 i o p p' :
  (forall item, In item mediaList -> thumbPathOf ROOT_DIR item ∈ cache w0) ->
  allhit_inv mediaList n w0 p ->
  transition ROOT_DIR hasFfmpeg i o p p' ->
  allhit_inv mediaList n w0 p'.
Proof.
  intros Hall (Hrej & Hok & Henv & Hfly & Houts) Ht.
  pose proof (pool_inv_step mediaList n i o p p' Hrej (fun _ => Hok) Ht) as Hinv'.
  assert (Hhead : forall item rest, queue p = item :: rest ->
                    existsSync (thumbPathOf ROOT_DIR item) (env p) = true).
  { intros item rest Hq. apply existsSync_true. rewrite Henv. apply Hall.
    destruct Hok as (_ & _ & _ & _ & Hperm & _).
    eapply Permutation_in; [exact Hperm |]. rewrite Hq.
    apply in_or_app. right. apply in_or_app. right. now left. }
  assert (Hidle : forall wk, workers p !! i = Some wk -> awaited wk = []).
  { intros wk Hwk. destruct (awaited wk) as [| item l] eqn:Haw; [reflexivity |].
    exfalso. assert (Hin : In item (inFlight (workers p))).
    { eapply awaited_inFlight; [exact Hwk |]. rewrite Haw. now left. }
    rewrite Hfly in Hin. exact Hin. }
  assert (Hfly' : forall wk, workers p !! i = Some AtLoopHead -> awaited wk = [] ->
                    inFlight (<[i := wk]> (workers p)) = []).
  { intros wk Hwk Haw.
    pose proof (inFlight_insert (workers p) i AtLoopHead wk Hwk) as Hins.
    rewrite Haw, Hfly in Hins. cbn [awaited app] in Hins. rewrite app_nil_r in Hins.
    now apply Permutation_nil_r in Hins. }
  destruct Ht as [Hwk Hq | item rest Hwk Hq Hex | item rest Hwk Hq Hex Hty Hff
                 | item rest Hwk Hq Hex Hmk | item rest Hwk Hq Hex Hty Hff Hmk out
                 | item rest Hwk Hq Hex Hty Hmk w | item r Hwk | item Hwk out];
    try (rewrite (Hhead _ _ Hq) in Hex; discriminate Hex);
    try (specialize (Hidle _ Hwk); discriminate Hidle).
  - split; [exact Hrej |]. split; [apply Hinv'; exact Hrej |].
    split; [exact Henv |]. split; [| exact Houts].
    cbn [suspend workers]. now apply Hfly'.
  - split; [exact Hrej |]. split; [apply Hinv'; exact Hrej |].
    split; [exact Henv |]. split.
    + cbn [settle workers dequeue]. now apply Hfly'.
    + cbn [settle outcomes dequeue]. apply Forall_app. split; [exact Houts |].
      constructor; [reflexivity | constructor].
Qed.

Lemma artifacts_inv_init mediaList n w : artifacts_inv ROOT_DIR (pool_init mediaList n w).
Proof.
  split.
  - intros i item out Hin. destruct Hin.
  - intros i item a Hi. cbn [pool_init workers] in Hi.
    apply lookup_replicate in Hi as [Heq _]. discriminate Heq.
Qed.

Lemma hits_inv_init mediaList n w : hits_inv ROOT_DIR (cache w) (pool_init mediaList n w).
Proof.
  split; [reflexivity |]. split.
  - intros i item out Hin. destruct Hin.
  - intros item Hin. cbn [pool_init workers] in Hin.
    rewrite inFlight_replicate in Hin. destruct Hin.
Qed.

Lemma allhit_inv_init mediaList n w : allhit_inv mediaList n w (pool_init mediaList n w).
Proof.
  split; [reflexivity |]. split; [apply (pool_inv_init mediaList n w eq_refl) |].
  split; [reflexivity |]. split; [apply inFlight_replicate | constructor].
Qed.

End PoolProperties.

Lemma checkRun_true (r : option pool) (f : pool -> bool) :
  checkRun r f = true -> exists p, r = Some p /\ f p = true.
Proof. destruct r as [p |]; [eauto | discriminate]. Qed.

Lemma drained_check (p : pool) :
  forallb isFinished (workers p) && negb (rejected p) = true -> drained p.
Proof.
  intros H. apply andb_true_iff in H as [Hw Hr]. split.
  - now apply negb_true_iff.
  - apply Forall_forall. intros wk Hin.
    rewrite forallb_forall in Hw. specialize (Hw wk Hin). now destruct wk.
Qed.

(** C4, as stated, fails: a second run over the same inventory and the same
    cache directory can end a task Generated.  Here the only entry failed to
    encode in the first run, which left no file; the second run dispatches
    it again and the encoding succeeds. *)
Lemma second_run_generates :
  let mediaList := [{| path := JS.lit "img/b.png"; size := 500; type := Image |}] in
  let thumb := thumbPathOf sampleRoot
                 {| path := JS.lit "img/b.png"; size := 500; type := Image |} in
  exists p1 p2,
    run sampleRoot true (sequentialSchedule (sampleOracle (ExecFail false)) 3)
        (pool_init mediaList 1 emptyWorld) = Some p1 /\
    forallb isFinished (workers p1) && negb (rejected p1) = true /\
    generated p1 = 0 /\ failed p1 = 1 /\
    existsSync thumb (env p1) = false /\
    run sampleRoot true (sequentialSchedule (sampleOracle ExecOk) 3)
        (pool_init mediaList 1 (env p1)) = Some p2 /\
    forallb isFinished (workers p2) && negb (rejected p2) = true /\
    generated p2 = 1.
Proof.
  intros mediaList thumb.
  pose (second := fun p1 : pool =>
          run sampleRoot true (sequentialSchedule (sampleOracle ExecOk) 3)
              (pool_init mediaList 1 (env p1))).
  assert (Hcheck :
    checkRun (run sampleRoot true (sequentialSchedule (sampleOracle (ExecFail false)) 3)
                  (pool_init mediaList 1 emptyWorld))
      (fun p1 =>
         forallb isFinished (workers p1) && negb (rejected p1) &&
         (generated p1 =? 0) && (failed p1 =? 1) && negb (existsSync thumb (env p1)) &&
         checkRun (second p1)
           (fun p2 => forallb isFinished (workers p2) && negb (rejected p2) &&
                      (generated p2 =? 1))) = true)
    by (vm_compute; reflexivity).
  apply checkRun_true in Hcheck as (p1 & Hrun1 & Hcheck).
  repeat (apply andb_true_iff in Hcheck as [Hcheck ?]).
  match goal with H : checkRun _ _ = true |- _ =>
    apply checkRun_true in H as (p2 & Hrun2 & Hcheck2) end.
  repeat (apply andb_true_iff in Hcheck2 as [Hcheck2 ?]).
  exists p1, p2.
  split; [exact Hrun1 |].
  split; [apply andb_true_iff; split; assumption |].
  split; [now apply Z.eqb_eq |]. split; [now apply Z.eqb_eq |].
  split; [now apply negb_true_iff |].
  split; [exact Hrun2 |].
  split; [apply andb_true_iff; split; assumption |].
  now apply Z.eqb_eq.
Qed.

(** C4, amended: in a second run over the same inventory, started on the
    cache directory as the first run left it, every task whose artifact
    exists is Skipped on a cache hit and is never dispatched; so every task
    that ended Generated in the first run ends Skipped in the second.  When
    the first run drained with every task Generated or Skipped on a cache
    hit, the second run produces no Generated and no Failed outcome and
    leaves the world as it found it: no command runs.  (A task that Failed,
    or was skipped for the missing decoder, and left no file is dispatched
    again.) *)
Theorem cache_idempotence (ROOT_DIR : list Z) (mediaList : list media_entry)
    (n1 n2 : nat) (hasFfmpeg1 hasFfmpeg2 : bool) (w1 w2 : world)
    (schedule1 schedule2 : list (nat * oracle)) (p1 p2 : pool) :
  run ROOT_DIR hasFfmpeg1 schedule1 (pool_init mediaList n1 w1) = Some p1 ->
  cache w2 = cache (env p1) ->
  run ROOT_DIR hasFfmpeg2 schedule2 (pool_init mediaList n2 w2) = Some p2 ->
  (forall i item out, In (i, item, out) (outcomes p2) ->
     existsSync (thumbPathOf ROOT_DIR item) w2 = true -> out = SkippedCacheHit) /\
  (forall item, In item (inFlight (workers p2)) ->
     existsSync (thumbPathOf ROOT_DIR item) w2 = false) /\
  (forall i j item out, In (i, item, Generated) (outcomes p1) ->
     In (j, item, out) (outcomes p2) -> out = SkippedCacheHit) /\
  ((1 <= n1)%nat -> drained p1 ->
   Forall (fun e => snd e = Generated \/ snd e = SkippedCacheHit) (outcomes p1) ->
   generated p2 = 0 /\ failed p2 = 0 /\ env p2 = w2 /\
   Forall (fun e => snd e = SkippedCacheHit) (outcomes p2)).
Proof.
  intros Hrun1 Hcache Hrun2.
  (* first run: the artifacts of the generated tasks exist *)
  assert (Hart : artifacts_inv ROOT_DIR p1).
  { apply (run_invariant ROOT_DIR hasFfmpeg1 (artifacts_inv ROOT_DIR)
             (fun i o p p' _ => artifacts_inv_step ROOT_DIR hasFfmpeg1 i o p p')
             schedule1 _ _ (artifacts_inv_init ROOT_DIR mediaList n1 w1) Hrun1). }
  (* second run: what was in the cache at its start is a hit *)
  assert (Hhits : hits_inv ROOT_DIR (cache w2) p2).
  { apply (run_invariant ROOT_DIR hasFfmpeg2 (hits_inv ROOT_DIR (cache w2))
             (fun i o p p' _ => hits_inv_step ROOT_DIR hasFfmpeg2 (cache w2) i o p p')
             schedule2 _ _ (hits_inv_init ROOT_DIR mediaList n2 w2) Hrun2). }
  destruct Hhits as (_ & Hout2 & Hfly2). destruct Hart as [Hout1 _].
  split; [| split; [| split]].
  - intros i item out Hin Hex. eapply Hout2; [exact Hin |]. now apply existsSync_true.
  - intros item Hin. apply existsSync_false. now apply Hfly2.
  - intros i j item out Hgen Hin. eapply Hout2; [exact Hin |].
    rewrite Hcache. eapply Hout1; [exact Hgen | now left].
  - intros Hn1 Hdr1 Hkinds.
    pose proof (drained_outcomes ROOT_DIR hasFfmpeg1 mediaList n1 w1 schedule1 p1
                  Hn1 Hrun1 Hdr1) as Hperm.
    assert (Hall : forall item, In item mediaList ->
                     thumbPathOf ROOT_DIR item ∈ cache w2).
    { intros item Hin. rewrite Hcache.
      apply (Permutation_in _ (Permutation_sym Hperm)) in Hin.
      apply in_map_iff in Hin as ([[i it] out] & Heq & Hin).
      cbn [outcomeEntry fst snd] in Heq. subst it.
      eapply Hout1; [exact Hin |].
      rewrite Forall_forall in Hkinds. apply (Hkinds _ Hin). }
    assert (Hfinal : allhit_inv mediaList n2 w2 p2).
    { apply (run_invariant ROOT_DIR hasFfmpeg2 (allhit_inv mediaList n2 w2)
               (fun i o p p' _ => allhit_inv_step ROOT_DIR hasFfmpeg2 mediaList n2 w2
                                    i o p p' Hall)
               schedule2 _ _ (allhit_inv_init mediaList n2 w2) Hrun2). }
    destruct Hfinal as (_ & (Hc & Hs & Hf & _) & Henv & _ & Houts).
    assert (Hcounts : count_outcomes isSkipped p2 = Z.of_nat (length (outcomes p2)) /\
                      count_outcomes isFailed p2 = 0).
    { unfold count_outcomes. clear -Houts.
      induction Houts as [| [[i it] out] rest Hout _ IH]; [split; reflexivity |].
      cbn [snd] in Hout. subst out. cbn [List.filter snd isSkipped isFailed length].
      destruct IH as [IH1 IH2]. split; [lia | exact IH2]. }
    destruct Hcounts as [Hsk Hfl]. unfold generated.
    repeat split; [lia | lia | exact Henv | exact Houts].
Qed.

Lemma cache_idempotence_witness :
  exists p1 p2,
    run sampleRoot true sampleSchedule (pool_init sampleMedia 2 emptyWorld) = Some p1 /\
    run sampleRoot true (sequentialSchedule (sampleOracle ExecOk) 5)
        (pool_init sampleMedia 1 (env p1)) = Some p2 /\
    forall i j item out, In (i, item, Generated) (outcomes p1) ->
      In (j, item, out) (outcomes p2) -> out = SkippedCacheHit.
Proof.
  assert (Hcheck :
    checkRun (run sampleRoot true sampleSchedule (pool_init sampleMedia 2 emptyWorld))
      (fun p1 =>
         checkRun (run sampleRoot true (sequentialSchedule (sampleOracle ExecOk) 5)
                       (pool_init sampleMedia 1 (env p1)))
           (fun _ => true)) = true)
    by (vm_compute; reflexivity).
  apply checkRun_true in Hcheck as (p1 & Hrun1 & Hcheck).
  apply checkRun_true in Hcheck as (p2 & Hrun2 & _).
  exists p1, p2. split; [exact Hrun1 |]. split; [exact Hrun2 |].
  apply (cache_idempotence sampleRoot sampleMedia 2 1 true true emptyWorld (env p1)
           sampleSchedule (sequentialSchedule (sampleOracle ExecOk) 5) p1 p2
           Hrun1 eq_refl Hrun2).
Defined.

Lemma pool_conservation_witness :
  (1 <= 2)%nat /\
  exists p,
    run sampleRoot true sampleSchedule (pool_init sampleMedia 2 emptyWorld) = Some p /\
    drained p /\
    generated p + skipped p + failed p = 3.
Proof.
  split; [lia |].
  assert (Hcheck :
    checkRun (run sampleRoot true sampleSchedule (pool_init sampleMedia 2 emptyWorld))
      (fun p => forallb isFinished (workers p) && negb (rejected p)) = true)
    by (vm_compute; reflexivity).
  apply checkRun_true in Hcheck as (p & Hrun & Hdone).
  apply drained_check in Hdone.
  exists p. split; [exact Hrun |]. split; [exact Hdone |].
  apply (pool_conservation sampleRoot true sampleMedia 2 emptyWorld sampleSchedule p
           ltac:(lia) Hrun Hdone).
Defined.

Example sample_run_counts :
  option_map (fun p => (generated p, skipped p, failed p, List.map snd (outcomes p)))
    (run sampleRoot true sampleSchedule (pool_init sampleMedia 2 emptyWorld)) =
  Some (2, 0, 1, [Failed; Generated; Generated]).
Proof. vm_compute. reflexivity. Qed.

(** ** Segment timestamps *)






Example exact_timestamps_example :
  List.map Qred (ExactTimestamps.segmentTimestamps 10 4) = [1 # 2; 7 # 2; 13 # 2; 19 # 2]%Q.
Proof. vm_compute. reflexivity. Qed.

(** * Properties of the rest of the program *)

(** ** Integer quotients *)

Lemma floorDiv_div (a b : Z) : 0 < b -> Builtin.floorDiv a b = a / b.
Proof.
  intros Hb. unfold Builtin.floorDiv.
  destruct b as [| b | b]; try lia.
  unfold Qdiv, Qinv, inject_Z, Qmult, Qfloor. cbn [Qnum Qden].
  f_equal; lia.
Qed.

Lemma ceilDiv_div (a b : Z) : 0 < b -> Builtin.ceilDiv a b = - ((- a) / b).
Proof.
  intros Hb. unfold Builtin.ceilDiv, Qceiling.
  destruct b as [| b | b]; try lia.
  unfold Qdiv, Qinv, inject_Z, Qmult, Qopp, Qfloor. cbn [Qnum Qden].
  f_equal. f_equal; lia.
Qed.

(** ** The order of the inventory *)

Lemma insertSorted_Permutation {A} (cmp : A -> A -> Z) (x : A) (l : list A) :
  Builtin.insertSorted cmp x l ≡ₚ x :: l.
Proof.
  induction l as [| y rest IH]; [reflexivity |].
  cbn [Builtin.insertSorted]. destruct (cmp x y <=? 0); [reflexivity |].
  rewrite IH. apply Permutation_swap.
Qed.

Lemma sort_Permutation {A} (cmp : A -> A -> Z) (l : list A) :
  Builtin.sort cmp l ≡ₚ l.
Proof.
  induction l as [| x rest IH]; [reflexivity |].
  unfold Builtin.sort in *. cbn [fold_right].
  rewrite insertSorted_Permutation. now constructor.
Qed.

Lemma insertSorted_sorted (x : media_entry) (l : list media_entry) :
  StronglySorted (fun a b => size b <= size a) l ->
  StronglySorted (fun a b => size b <= size a) (Builtin.insertSorted bySizeDescending x l).
Proof.
  induction 1 as [| y rest Hs IH Hall]; cbn [Builtin.insertSorted].
  - constructor; constructor.
  - unfold bySizeDescending at 1. destruct (Z.leb_spec (size y - size x) 0) as [Hle | Hgt].
    + constructor; [now constructor |]. constructor; [lia |].
      eapply Forall_impl; [| exact Hall]. cbn. intros; lia.
    + constructor; [exact IH |].
      rewrite insertSorted_Permutation. constructor; [lia | exact Hall].
Qed.

Lemma sort_sorted (l : list media_entry) :
  StronglySorted (fun a b => size b <= size a) (Builtin.sort bySizeDescending l).
Proof.
  induction l as [| x rest IH]; [constructor |].
  unfold Builtin.sort in *. cbn [fold_right]. now apply insertSorted_sorted.
Qed.

Lemma sorted_strict (l : list media_entry) :
  StronglySorted (fun a b => size b <= size a) l -> NoDup (List.map size l) ->
  StronglySorted (fun a b => size b < size a) l.
Proof.
  induction 1 as [| x rest Hs IH Hall]; intros Hnd; [constructor |].
  cbn [List.map] in Hnd. inversion Hnd as [| ? ? Hnot Hnd']; subst.
  constructor; [now apply IH |].
  rewrite Forall_forall in Hall |- *. intros y Hy.
  specialize (Hall y Hy). cbn in Hall.
  assert (size y <> size x); [| lia].
  intros Heq. apply Hnot. rewrite <- Heq. now apply in_map.
Qed.

Lemma findMedia_media (listing : option (list dirent)) :
  media (findMedia [] listing discovery_init) = firstOfEachSize ∅ (candidates [] listing).
Proof.
  rewrite findMedia_candidates.
  destruct (addAll_spec (candidates [] listing) discovery_init) as (Hm & _).
  exact Hm.
Qed.

(** Two arrangements of the same entries in decreasing order of size are
    the same list when no two entries have the same size. *)
Lemma sorted_unique (l1 : list media_entry) :
  forall l2, l1 ≡ₚ l2 -> NoDup (List.map size l1) ->
  StronglySorted (fun a b => size b < size a) l1 ->
  StronglySorted (fun a b => size b <= size a) l2 -> l1 = l2.
Proof.
  induction l1 as [| x rest IH]; intros l2 Hperm Hnd Hs1 Hs2.
  - now apply Permutation_nil in Hperm.
  - destruct l2 as [| y rest2]; [symmetry in Hperm; now apply Permutation_nil in Hperm |].
    inversion Hs1 as [| ? ? Hs1' Hall1]; subst.
    inversion Hs2 as [| ? ? Hs2' Hall2]; subst.
    rewrite Forall_forall in Hall1, Hall2.
    assert (Hxy : x = y).
    { assert (Hx : In x (y :: rest2)) by (eapply Permutation_in; [exact Hperm | now left]).
      assert (Hy : In y (x :: rest))
        by (eapply Permutation_in; [symmetry; exact Hperm | now left]).
      destruct Hx as [-> | Hx]; [reflexivity |]. destruct Hy as [-> | Hy]; [reflexivity |].
      specialize (Hall1 y Hy). specialize (Hall2 x Hx). cbn in Hall1, Hall2. lia. }
    subst y. f_equal. apply Permutation_cons_inv in Hperm.
    cbn [List.map] in Hnd. inversion Hnd; subst. now apply IH.
Qed.

(** X1: the array [main] hands on is the inventory of [findMedia] in
    strictly decreasing order of size: it holds the same entries, every
    entry is larger than all that follow it, so the entry printed as
    Largest is the first and the one printed as Smallest is the last.  No
    two sizes being equal, it is the only arrangement of the inventory in
    decreasing order: the result does not depend on the sorting algorithm
    of the engine. *)
Theorem inventory_order (listing : option (list dirent)) :
  let found := media (findMedia [] listing discovery_init) in
  let inventory := mainInventory listing in
  inventory ≡ₚ found /\
  StronglySorted (fun a b => size b < size a) inventory /\
  (forall e, In e found ->
     size e <= size (List.hd e inventory) /\ size (List.last inventory e) <= size e) /\
  (forall sorted, sorted ≡ₚ found ->
     StronglySorted (fun a b => size b <= size a) sorted -> sorted = inventory).
Proof.
  intros found inventory.
  assert (Hperm : inventory ≡ₚ found) by apply sort_Permutation.
  assert (Hnd : NoDup (List.map size inventory)).
  { apply NoDup_ListNoDup. rewrite Hperm. apply NoDup_ListNoDup.
    subst found. rewrite findMedia_media. apply firstOfEachSize_sizes. }
  assert (Hsorted : StronglySorted (fun a b => size b < size a) inventory)
    by (apply sorted_strict; [apply sort_sorted | exact Hnd]).
  split; [exact Hperm |]. split; [exact Hsorted |].
  split;
    [| intros sorted Hp Hs; symmetry; apply sorted_unique;
       [now rewrite Hperm, Hp | exact Hnd | exact Hsorted | exact Hs]].
  intros e He. apply (Permutation_in _ (Permutation_sym Hperm)) in He.
  clear Hperm. revert He. generalize inventory Hsorted. clear.
  induction 1 as [| x rest Hs IH Hall]; intros He; [destruct He |].
  cbn [hd]. rewrite Forall_forall in Hall. split.
  - destruct He as [<- | He]; [lia | specialize (Hall e He); cbn in Hall; lia].
  - destruct rest as [| y rest']; [destruct He as [<- | []]; cbn; lia |].
    change (List.last (x :: y :: rest') e) with (List.last (y :: rest') e).
    destruct He as [<- | He]; [| now apply IH].
    assert (Hlast : In (List.last (y :: rest') x) (y :: rest')).
    { clear. generalize y. induction rest' as [| z r IHr]; intros y0; [now left |].
      right. apply IHr. }
    specialize (Hall _ Hlast). cbn beta in Hall. lia.
Qed.


(** ** [path.extname] on the paths of a directory listing *)

(** Case analysis on every integer comparison of the goal. *)
Ltac zcase :=
  match goal with
  | |- context [Z.eqb ?a ?b] => destruct (Z.eqb_spec a b)
  | |- context [Z.leb ?a ?b] => destruct (Z.leb_spec a b)
  | |- context [Z.ltb ?a ?b] => destruct (Z.ltb_spec a b)
  end.
Ltac zcases := repeat zcase.

Lemma ext_scan_app (a b : list Z) (i : Z) (st : Path.ext_state) :
  Path.ext_scan (a ++ b) i st =
  Path.ext_scan b (i - Z.of_nat (length a)) (Path.ext_scan a i st).
Proof.
  revert i st. induction a as [| c a IH]; intros i st.
  - cbn [app Path.ext_scan length]. f_equal. lia.
  - cbn [app Path.ext_scan length]. rewrite IH. f_equal. lia.
Qed.

Lemma ext_scan_stopped (l : list Z) (i : Z) (st : Path.ext_state) :
  Path.stopped st = true -> Path.ext_scan l i st = st.
Proof.
  revert i st. induction l as [| c l IH]; intros i st Hst; [reflexivity |].
  cbn [Path.ext_scan]. unfold Path.ext_step. rewrite Hst. now apply IH.
Qed.

Lemma lastIndexOf_range (c : Z) (s : list Z) :
  -1 <= Builtin.lastIndexOf c s < Z.of_nat (length s).
Proof.
  induction s as [| x rest IH]; cbn [Builtin.lastIndexOf length]; [lia |].
  destruct (Z.eqb_spec (Builtin.lastIndexOf c rest) (-1)); [destruct (x =? c) |]; lia.
Qed.

Lemma ext_scan_name (s : list Z) :
  s <> [] -> Path.slash ∉ s ->
  forall last, Z.of_nat (length s) <= last + 1 ->
  Path.ext_scan (rev s) last Path.ext_init =
  scanned last (last + 1 - Z.of_nat (length s)) s.
Proof.
  induction s as [| c s IH]; intros Hne Hsl last Hlast; [congruence |].
  assert (Hc : c <> Path.slash) by (intros ->; apply Hsl; left).
  assert (Hs : Path.slash ∉ s) by (intros H; apply Hsl; now right).
  cbn [rev]. rewrite ext_scan_app. cbn [Path.ext_scan].
  rewrite length_rev.
  destruct s as [| c' s'].
  - cbn [length] in Hlast.
    cbn [rev Path.ext_scan length]. unfold Path.ext_step, scanned, Path.ext_init.
    cbn [Path.stopped Path.endPos Path.startDot Path.matchedSlash Path.preDotState
         Path.startPart Builtin.lastIndexOf hd length].
    unfold Path.slash, Path.dot in *.
    repeat (zcase; cbn [Path.stopped Path.endPos Path.startDot Path.matchedSlash
                        Path.preDotState Path.startPart negb] in *);
      try lia; try (f_equal; lia).
  - rewrite IH by (assumption || discriminate || (cbn [length] in *; lia)).
    set (s := c' :: s') in *.
    pose proof (lastIndexOf_range Path.dot s) as Hr.
    assert (Hhd : List.hd 0 s = c') by reflexivity.
    assert (Hlen : (length (c :: s) = S (length s))%nat) by reflexivity.
    rewrite Hlen.
    unfold Path.ext_step, scanned.
    cbn [Path.stopped Path.endPos Path.startDot Path.matchedSlash Path.preDotState
         Path.startPart Builtin.lastIndexOf hd].
    remember (Builtin.lastIndexOf Path.dot s) as d eqn:Hd. clear Hd.
    rewrite Hlen in Hlast.
    remember (length s) as n eqn:Hn. clear Hn Hlen Hne Hsl Hs. subst s.
    unfold Path.slash, Path.dot in *.
    repeat (zcase; cbn [Path.stopped Path.endPos Path.startDot Path.matchedSlash
                        Path.preDotState Path.startPart negb] in *);
      try lia; try (f_equal; lia).
Qed.

Lemma slice_to_end (from : nat) (s : list Z) :
  JS.slice from (length s) s = skipn from s.
Proof.
  unfold JS.slice. rewrite <- length_skipn. apply firstn_all.
Qed.

Lemma extname_name (name : list Z) :
  plainSegment name -> Path.extname name = extOf name.
Proof.
  intros (Hne & Hsl & _). unfold Path.extname.
  rewrite (ext_scan_name name Hne Hsl) by lia.
  pose proof (lastIndexOf_range Path.dot name) as Hr.
  unfold scanned, extOf.
  cbn [Path.startDot Path.endPos Path.preDotState Path.startPart].
  replace (Z.of_nat (length name) - 1 + 1) with (Z.of_nat (length name)) by lia.
  replace (Z.of_nat (length name) - Z.of_nat (length name)) with 0 by lia.
  assert (Hlen : 0 < Z.of_nat (length name)) by (destruct name; [congruence | cbn; lia]).
  remember (Builtin.lastIndexOf Path.dot name) as d eqn:Hd.
  destruct (Z.leb_spec d 0) as [Hd0 | Hd0].
  - replace ((if d =? -1 then -1 else 0 + d) =? -1) with (d =? -1)
      by (destruct (Z.eqb_spec d (-1)); [reflexivity | symmetry; apply Z.eqb_neq; lia]).
    change (0 =? 0) with true. rewrite !orb_true_r. reflexivity.
  - replace (d =? -1) with false by (symmetry; apply Z.eqb_neq; lia).
    replace (0 + d =? -1) with false by (symmetry; apply Z.eqb_neq; lia).
    replace (Z.of_nat (length name) =? -1) with false by (symmetry; apply Z.eqb_neq; lia).
    cbn [orb]. replace (0 + d) with d by lia. replace (0 + 1) with 1 by lia.
    destruct (List.hd 0 name =? Path.dot).
    + change (1 =? 0) with false. change (1 =? 1) with true. cbn [orb andb].
      destruct ((d =? Z.of_nat (length name) - 1) && (d =? 1)); [reflexivity |].
      rewrite Nat2Z.id. apply slice_to_end.
    + change (-1 =? 0) with false. change (-1 =? 1) with false. cbn [orb andb].
      rewrite Nat2Z.id. apply slice_to_end.
Qed.

Lemma extname_child (dir name : list Z) :
  plainSegment name -> Path.extname (relativeChild dir name) = extOf name.
Proof.
  intros Hname. destruct dir as [| c0 dir0]; [now apply extname_name |].
  set (dir := c0 :: dir0).
  change (relativeChild dir name) with (dir ++ Path.slash :: name).
  destruct Hname as (Hne & Hsl & _).
  assert (Hlen : 0 < Z.of_nat (length name)) by (destruct name; [congruence | cbn; lia]).
  unfold Path.extname.
  rewrite rev_app_distr. cbn [rev]. rewrite <- app_assoc. cbn [app].
  rewrite ext_scan_app, length_rev.
  rewrite (ext_scan_name name Hne Hsl) by (rewrite length_app; cbn [length]; lia).
  cbn [Path.ext_scan]. rewrite ext_scan_stopped.
  2:{ unfold Path.ext_step, scanned. cbn [Path.stopped Path.matchedSlash negb].
      rewrite Z.eqb_refl. reflexivity. }
  unfold Path.ext_step, scanned. cbn [Path.stopped Path.matchedSlash negb].
  rewrite Z.eqb_refl.
  cbn [Path.startDot Path.endPos Path.preDotState Path.startPart].
  pose proof (lastIndexOf_range Path.dot name) as Hr.
  unfold extOf.
  remember (Builtin.lastIndexOf Path.dot name) as d eqn:Hd.
  rewrite length_app. cbn [length]. rewrite Nat2Z.inj_add, Nat2Z.inj_succ.
  set (n := Z.of_nat (length name)) in *. set (k := Z.of_nat (length dir)).
  assert (Hk : 0 <= k) by (subst k; lia).
  replace (k + Z.succ n - 1 + 1) with (k + 1 + n) by lia.
  replace (k + 1 + n - n) with (k + 1) by lia.
  replace (k + Z.succ n - 1 - n + 1) with (k + 1) by lia.
  destruct (Z.leb_spec d 0) as [Hd0 | Hd0].
  - replace ((if d =? -1 then -1 else k + 1 + d) =? -1) with (d =? -1)
      by (destruct (Z.eqb_spec d (-1)); [reflexivity | symmetry; apply Z.eqb_neq; lia]).
    change (0 =? 0) with true. rewrite !orb_true_r. reflexivity.
  - replace (d =? -1) with false by (symmetry; apply Z.eqb_neq; lia).
    replace (k + 1 + d =? -1) with false by (symmetry; apply Z.eqb_neq; lia).
    replace (k + 1 + n =? -1) with false by (symmetry; apply Z.eqb_neq; lia).
    cbn [orb].
    replace (k + 1 + d =? k + 1 + n - 1) with (d =? n - 1)
      by (destruct (Z.eqb_spec d (n - 1)); symmetry; [apply Z.eqb_eq | apply Z.eqb_neq]; lia).
    replace (k + 1 + d =? k + 1 + 1) with (d =? 1)
      by (destruct (Z.eqb_spec d 1); symmetry; [apply Z.eqb_eq | apply Z.eqb_neq]; lia).
    assert (Hslice : JS.slice (Z.to_nat (k + 1 + d)) (Z.to_nat (k + 1 + n))
                       (dir ++ Path.slash :: name) = skipn (Z.to_nat d) name).
    { replace (Z.to_nat (k + 1 + n)) with (length (dir ++ Path.slash :: name))
        by (rewrite length_app; cbn [length]; subst k n; lia).
      rewrite slice_to_end.
      replace (Z.to_nat (k + 1 + d)) with (length dir + S (Z.to_nat d))%nat by (subst k; lia).
      rewrite skipn_app, skipn_all2 by lia.
      replace (length dir + S (Z.to_nat d) - length dir)%nat with (S (Z.to_nat d)) by lia.
      reflexivity. }
    destruct (List.hd 0 name =? Path.dot).
    + change (1 =? 0) with false. change (1 =? 1) with true. cbn [orb andb].
      destruct ((d =? n - 1) && (d =? 1)); [reflexivity | exact Hslice].
    + change (-1 =? 0) with false. change (-1 =? 1) with false. cbn [orb andb].
      exact Hslice.
Qed.

Lemma lastIndexOf_app (c : Z) (a b : list Z) :
  Builtin.lastIndexOf c (a ++ b) =
  if Builtin.lastIndexOf c b =? -1 then Builtin.lastIndexOf c a
  else Z.of_nat (length a) + Builtin.lastIndexOf c b.
Proof.
  induction a as [| x a IH]; cbn [app Builtin.lastIndexOf length].
  - destruct (Z.eqb_spec (Builtin.lastIndexOf c b) (-1)) as [-> | _]; [reflexivity | lia].
  - rewrite IH. pose proof (lastIndexOf_range c b).
    destruct (Z.eqb_spec (Builtin.lastIndexOf c b) (-1)); [reflexivity |].
    replace (Z.of_nat (length a) + Builtin.lastIndexOf c b =? -1) with false
      by (symmetry; apply Z.eqb_neq; lia).
    lia.
Qed.

Lemma sliceFrom_skipn {A} (i : Z) (l : list A) :
  0 <= i -> Builtin.sliceFrom i l = skipn (Z.to_nat i) l.
Proof.
  intros Hi. unfold Builtin.sliceFrom, Builtin.slice, Builtin.clampIndex.
  replace (i <? 0) with false by (symmetry; apply Z.ltb_ge; lia).
  replace (Z.of_nat (length l) <? 0) with false by (symmetry; apply Z.ltb_ge; lia).
  rewrite Z.min_id.
  destruct (Z.le_ge_cases i (Z.of_nat (length l))) as [Hle | Hge].
  - rewrite Z.min_l by lia.
    replace (Z.to_nat (Z.of_nat (length l) - i)) with (length (skipn (Z.to_nat i) l))
      by (rewrite length_skipn; lia).
    apply firstn_all.
  - rewrite Z.min_r by lia. rewrite Z.sub_diag. cbn [Z.to_nat firstn].
    symmetry. apply skipn_all2. lia.
Qed.

(** The page finds the same extension, wherever [extname] finds one. *)
Lemma page_extension (dir name : list Z) :
  plainSegment name -> extOf name <> [] ->
  Builtin.sliceFrom (Builtin.lastIndexOf Path.dot (relativeChild dir name))
                    (relativeChild dir name) = extOf name.
Proof.
  intros (Hne & Hsl & _) Hext.
  pose proof (lastIndexOf_range Path.dot name) as Hr.
  unfold extOf in *.
  remember (Builtin.lastIndexOf Path.dot name) as d eqn:Hd.
  destruct (Z.leb_spec d 0) as [Hd0 | Hd0]; [cbn [orb] in Hext; congruence |].
  cbn [orb] in *.
  destruct ((List.hd 0 name =? Path.dot) && _ && _); [congruence |].
  destruct dir as [| c0 dir0].
  - cbn [relativeChild]. rewrite <- Hd. apply sliceFrom_skipn. lia.
  - set (dir := c0 :: dir0).
  change (relativeChild dir name) with (dir ++ Path.slash :: name).
    rewrite lastIndexOf_app. cbn [Builtin.lastIndexOf]. rewrite <- Hd.
    replace (d =? -1) with false by (symmetry; apply Z.eqb_neq; lia).
    replace (d + 1 =? -1) with false by (symmetry; apply Z.eqb_neq; lia).
    rewrite sliceFrom_skipn by lia.
    replace (Z.to_nat (Z.of_nat (length dir) + (d + 1)))
      with (length dir + S (Z.to_nat d))%nat by lia.
    rewrite skipn_app, skipn_all2 by lia.
    replace (length dir + S (Z.to_nat d) - length dir)%nat with (S (Z.to_nat d)) by lia.
    reflexivity.
Qed.


(** ** What the inventory holds *)

Lemma isPlainName_plain (name : list Z) :
  isPlainName name = true -> plainSegment name.
Proof.
  unfold isPlainName, plainSegment, JS.streq. intros H.
  repeat (apply andb_true_iff in H as [H ?]).
  repeat match goal with
         | H : negb _ = true |- _ => apply negb_true_iff in H
         end.
  repeat match goal with
         | H : bool_decide _ = false |- _ => apply bool_decide_eq_false in H
         end.
  split; [assumption |]. split; [| split; assumption].
  intros Hin. apply list_elem_of_In in Hin.
  match goal with H : existsb _ _ = false |- _ =>
    rewrite <- not_true_iff_false in H; apply H end.
  apply existsb_exists. exists Path.slash. split; [assumption | apply Z.eqb_refl].
Qed.

Lemma relativeChild_assoc (dir x y : list Z) :
  x <> [] ->
  relativeChild (relativeChild dir x) y = relativeChild dir (x ++ Path.slash :: y).
Proof.
  intros Hx. destruct dir as [| c dir]; cbn [relativeChild app].
  - destruct x; [congruence | reflexivity].
  - f_equal. rewrite <- app_assoc. reflexivity.
Qed.

Lemma unsplit_cons (seg : list Z) (segs : list (list Z)) :
  segs <> [] -> Path.unsplit (seg :: segs) = seg ++ Path.slash :: Path.unsplit segs.
Proof. destruct segs; [congruence | reflexivity]. Qed.

Lemma unsplit_snoc (segs : list (list Z)) (name : list Z) :
  segs <> [] -> Path.unsplit (segs ++ [name]) = Path.unsplit segs ++ Path.slash :: name.
Proof.
  induction segs as [| seg rest IH]; intros Hne; [congruence |].
  destruct rest as [| seg' rest']; [reflexivity |].
  change ((seg :: seg' :: rest') ++ [name]) with (seg :: (seg' :: rest') ++ [name]).
  rewrite unsplit_cons by (cbn [app]; discriminate).
  rewrite IH by discriminate.
  rewrite (unsplit_cons seg (seg' :: rest')) by discriminate. rewrite <- app_assoc. reflexivity.
Qed.

Lemma candidates_entry_shape (e : dirent) :
  plainNames e = true ->
  forall dir m, In m (candidates_entry dir e) -> candidate_shape dir m.
Proof.
  induction e as [name stat | name | name entries IH | name] using dirent_induction;
    intros Hplain dir m Hin; cbn [candidates_entry] in Hin.
  - cbn [plainNames direntName] in Hplain. rewrite andb_true_r in Hplain.
    apply isPlainName_plain in Hplain.
    destruct (isOutputName name) eqn:Hout; [destruct Hin |].
    unfold candidate_file in Hin. rewrite extname_name in Hin by assumption.
    destruct (includes MEDIA_EXTENSIONS _) eqn:Hmedia; [| destruct Hin].
    destruct stat as [sz |]; [| destruct Hin].
    destruct Hin as [<- | []]. exists [], name. cbn [app Path.unsplit path type].
    repeat split; try assumption. constructor; [| constructor]. now split.
  - destruct (isOutputName name); destruct Hin.
  - cbn [plainNames direntName] in Hplain. apply andb_true_iff in Hplain as [Hname Hall].
    apply isPlainName_plain in Hname.
    destruct (isOutputName name) eqn:Hout; [destruct Hin |].
    assert (Hsub : exists e', In e' entries /\
                     In m (candidates_entry (relativeChild dir name) e')).
    { clear -Hin. induction entries as [| e0 rest IHr]; [destruct Hin |].
      apply in_app_or in Hin as [Hin | Hin].
      - exists e0. split; [now left | assumption].
      - destruct (IHr Hin) as (e' & He' & Hm). exists e'. split; [now right | assumption]. }
    destruct Hsub as (e' & He' & Hm).
    rewrite Forall_forall in IH. rewrite forallb_forall in Hall.
    destruct (IH e' He' (Hall e' He') _ _ Hm) as (segs & nm & Hpath & Hsegs & Hmedia & Htype).
    exists (name :: segs), nm.
    split; [| split; [| split; assumption]].
    + rewrite Hpath, relativeChild_assoc by apply Hname.
      change ((name :: segs) ++ [nm]) with (name :: (segs ++ [nm])).
      rewrite unsplit_cons by (destruct segs; discriminate). reflexivity.
    + cbn [app]. constructor; [now split | assumption].
  - destruct Hin.
Qed.

Lemma candidates_shape (listing : option (list dirent)) (dir : list Z) (m : media_entry) :
  plainListing listing = true -> In m (candidates dir listing) -> candidate_shape dir m.
Proof.
  destruct listing as [entries |]; [| intros _ []].
  cbn [plainListing candidates]. intros Hall Hin.
  apply in_flat_map in Hin as (e & He & Hm).
  rewrite forallb_forall in Hall.
  exact (candidates_entry_shape e (Hall e He) dir m Hm).
Qed.

Lemma inventory_shape (listing : option (list dirent)) (m : media_entry) :
  plainListing listing = true -> In m (mainInventory listing) -> candidate_shape [] m.
Proof.
  intros Hplain Hin. unfold mainInventory in Hin.
  apply (Permutation_in _ (sort_Permutation _ _)) in Hin.
  rewrite findMedia_media in Hin.
  apply firstOfEachSize_sizes in Hin as [_ Hin].
  now apply (candidates_shape listing [] m).
Qed.

(** The last segment carries the extension. *)
Lemma shape_extname (dir : list Z) (segs : list (list Z)) (name : list Z) :
  Forall listedSegment (segs ++ [name]) ->
  exists dir', relativeChild dir (Path.unsplit (segs ++ [name])) = relativeChild dir' name /\
               plainSegment name.
Proof.
  intros Hall. apply Forall_app in Hall as [Hsegs Hname].
  inversion Hname as [| ? ? [Hplain _] _]; subst.
  destruct segs as [| seg rest].
  - exists dir. split; [reflexivity | assumption].
  - exists (relativeChild dir (Path.unsplit (seg :: rest))). split; [| assumption].
    rewrite unsplit_snoc by discriminate.
    rewrite relativeChild_assoc; [reflexivity |].
    inversion Hsegs as [| ? ? [(Hne & _) _] _]; subst.
    destruct rest; cbn [Path.unsplit]; [assumption |].
    destruct seg; [congruence | discriminate].
Qed.

Lemma includes_In (arr : list (list Z)) (x : list Z) :
  includes arr x = true <-> In x arr.
Proof.
  unfold includes. rewrite existsb_exists. split.
  - intros (y & Hy & Heq). apply bool_decide_eq_true in Heq. now subst.
  - intros Hin. exists x. split; [assumption | now apply bool_decide_eq_true].
Qed.

(** X2: every entry of the inventory is a file with a media extension,
    compared in lower case, and its type is video exactly when that
    extension is .mp4 and image exactly when it is one of the image
    extensions. *)
Theorem inventory_extensions (listing : option (list dirent)) (m : media_entry) :
  plainListing listing = true -> In m (mainInventory listing) ->
  let ext := JS.toLowerCase (Path.extname (path m)) in
  In ext MEDIA_EXTENSIONS /\
  (type m = Video <-> ext = JS.lit ".mp4") /\
  (type m = Image <-> In ext IMAGE_EXTENSIONS).
Proof.
  intros Hplain Hin ext.
  destruct (inventory_shape listing m Hplain Hin) as (segs & name & Hpath & Hall & Hmedia & Htype).
  destruct (shape_extname [] segs name Hall) as (dir' & Hrel & Hname).
  assert (Hext : ext = JS.toLowerCase (extOf name)).
  { subst ext. rewrite Hpath, Hrel. now rewrite extname_child. }
  rewrite <- Hext in Hmedia, Htype. clearbody ext.
  apply includes_In in Hmedia.
  split; [exact Hmedia |].
  destruct (includes VIDEO_EXTENSIONS ext) eqn:Hvideo.
  - apply includes_In in Hvideo. destruct Hvideo as [<- | []].
    rewrite Htype. split; [tauto |]. split; [discriminate |].
    intros Himg. exfalso. revert Himg. vm_compute. intuition discriminate.
  - rewrite Htype. split; [split; [discriminate |] |].
    + intros ->. discriminate Hvideo.
    + split; [intros _ | reflexivity].
      unfold MEDIA_EXTENSIONS in Hmedia. apply in_app_or in Hmedia as [H | H]; [exact H |].
      apply includes_In in H. congruence.
Qed.

Lemma inventory_extensions_witness :
  let m := {| path := JS.lit "clips/b.mp4"; size := 900; type := Video |} in
  plainListing sampleTree = true /\ In m (mainInventory sampleTree) /\
  JS.toLowerCase (Path.extname (path m)) = JS.lit ".mp4".
Proof.
  intros m.
  assert (Hplain : plainListing sampleTree = true) by (vm_compute; reflexivity).
  assert (Hin : In m (mainInventory sampleTree)) by (vm_compute; tauto).
  split; [exact Hplain |]. split; [exact Hin |].
  apply (inventory_extensions sampleTree m Hplain Hin). reflexivity.
Defined.

Example mainInventory_example :
  mainInventory sampleTree =
  [{| path := JS.lit "clips/b.mp4"; size := 900; type := Video |};
   {| path := JS.lit "a.JPG"; size := 300; type := Image |};
   {| path := JS.lit "clips/old/c.gif"; size := 120; type := Image |}].
Proof. vm_compute. reflexivity. Qed.

(** ** The cache path, written out *)

Lemma getThumbnailPath_flat (mediaPath : list Z) (mediaType : media_type) :
  getThumbnailPath mediaPath mediaType =
  JS.lit "thumbnails/" ++ charAt (hashPath mediaPath) 0 ++ JS.lit "/" ++
  charAt (hashPath mediaPath) 1 ++ JS.lit "/" ++ hashPath mediaPath ++
  thumbExt mediaPath mediaType.
Proof.
  pose proof (hashPath_length mediaPath) as Hlen.
  pose proof (hashPath_lowerHex mediaPath) as Hhex.
  unfold getThumbnailPath.
  destruct (hashPath mediaPath) as [| h0 [| h1 tail]] eqn:Hh; try discriminate.
  assert (H0 : isLowerHex h0) by (inversion Hhex; assumption).
  assert (H1 : isLowerHex h1) by (inversion Hhex as [| ? ? _ H]; inversion H; assumption).
  apply lowerHex_not_slash in H0 as [H0s H0d], H1 as [H1s H1d].
  assert (Hsuf : (Path.slash ∉ thumbExt mediaPath mediaType) /\
                 thumbExt mediaPath mediaType <> []).
  { destruct (thumbExt_cases mediaPath mediaType) as [-> | [-> | ->]];
      (split; [| discriminate]); intros Hin; apply list_elem_of_In in Hin;
      vm_compute in Hin; intuition discriminate. }
  destruct Hsuf as [Hsufs Hsufne].
  rewrite join_plain.
  - cbn [charAt skipn firstn Path.unsplit]. cbn [app].
    change (JS.lit "thumbnails/") with (THUMBNAILS_DIR ++ [Path.slash]).
    rewrite <- !app_assoc. reflexivity.
  - discriminate.
  - repeat apply Forall_cons; [| | | | apply Forall_nil].
    + vm_compute. repeat split; try discriminate.
      intros Hin. apply list_elem_of_In in Hin. cbn in Hin. intuition discriminate.
    + cbn [charAt skipn firstn]. split; [discriminate |].
      split; [| split; [intros [= ?]; contradiction | discriminate]].
      intros Hin. apply list_elem_of_In in Hin. cbn in Hin. intuition.
    + cbn [charAt skipn firstn]. split; [discriminate |].
      split; [| split; [intros [= ?]; contradiction | discriminate]].
      intros Hin. apply list_elem_of_In in Hin. cbn in Hin. intuition.
    + split; [discriminate |]. split; [| split].
      * intros Hin. apply elem_of_app in Hin as [Hin | Hin]; [| contradiction].
        revert Hin. now apply lowerHex_no_slash.
      * intros Heq. apply (f_equal (@length Z)) in Heq.
        rewrite length_app, Hlen in Heq. cbn in Heq. lia.
      * intros Heq. apply (f_equal (@length Z)) in Heq.
        rewrite length_app, Hlen in Heq. cbn in Heq. lia.
Qed.

Lemma listedSegment_plain (segs : list (list Z)) :
  Forall listedSegment segs -> Forall plainSegment segs.
Proof. apply Forall_impl. now intros seg [H _]. Qed.

(** X3: the scan never lists what the generator itself writes: no segment
    of the path of an inventory entry is thumbnails, gallery.html or
    images-data.js, so no entry is the thumbnail of any file (and a folder
    of the user that is named thumbnails is left out with all it holds). *)
Theorem inventory_skips_outputs (listing : option (list dirent)) (m : media_entry) :
  plainListing listing = true -> In m (mainInventory listing) ->
  Forall (fun seg => isOutputName seg = false) (Path.split (path m)) /\
  (forall mediaPath mediaType, path m <> getThumbnailPath mediaPath mediaType).
Proof.
  intros Hplain Hin.
  destruct (inventory_shape listing m Hplain Hin) as (segs & name & Hpath & Hall & _).
  cbn [relativeChild] in Hpath.
  assert (Hsplit : Path.split (path m) = segs ++ [name]).
  { rewrite Hpath. apply split_unsplit; [| now apply listedSegment_plain].
    destruct segs; discriminate. }
  split.
  - rewrite Hsplit. eapply Forall_impl; [| exact Hall]. now intros seg [_ H].
  - intros mediaPath mediaType Heq.
    apply (f_equal Path.split) in Heq. rewrite Hsplit, getThumbnailPath_flat in Heq.
    change (JS.lit "thumbnails/") with (THUMBNAILS_DIR ++ [Path.slash]) in Heq.
    rewrite <- app_assoc in Heq. cbn [app] in Heq.
    rewrite split_app_slash in Heq.
    2:{ intros H. apply list_elem_of_In in H. vm_compute in H. intuition discriminate. }
    destruct (segs ++ [name]) as [| first rest] eqn:E; [discriminate |].
    injection Heq as -> _.
    inversion Hall as [| ? ? [_ Hout] _]. discriminate Hout.
Qed.

Lemma inventory_skips_outputs_witness :
  let m := {| path := JS.lit "clips/old/c.gif"; size := 120; type := Image |} in
  plainListing sampleTree = true /\ In m (mainInventory sampleTree) /\
  Forall (fun seg => isOutputName seg = false) (Path.split (path m)).
Proof.
  intros m.
  assert (Hplain : plainListing sampleTree = true) by (vm_compute; reflexivity).
  assert (Hin : In m (mainInventory sampleTree)) by (vm_compute; tauto).
  split; [exact Hplain |]. split; [exact Hin |].
  apply (inventory_skips_outputs sampleTree m Hplain Hin).
Defined.

(** ** The page and the generator agree on the cache path *)

(** X4: for every entry of the inventory the script of the page computes
    the cache path the generator wrote the thumbnail to, although it finds
    the extension with [lastIndexOf] and joins with '/' where the generator
    uses [path.extname] and [path.join]. *)
Theorem page_getThumbnailPath (listing : option (list dirent)) (m : media_entry) :
  plainListing listing = true -> In m (mainInventory listing) ->
  Page.getThumbnailPath (path m) (type m) = getThumbnailPath (path m) (type m).
Proof.
  intros Hplain Hin.
  destruct (inventory_shape listing m Hplain Hin) as (segs & name & Hpath & Hall & Hmedia & _).
  destruct (shape_extname [] segs name Hall) as (dir' & Hrel & Hname).
  rewrite getThumbnailPath_flat. unfold Page.getThumbnailPath.
  do 6 f_equal. unfold Page.thumbExt, thumbExt.
  rewrite Hpath, Hrel, extname_child by assumption.
  rewrite page_extension; [reflexivity | assumption |].
  intros Hnil. rewrite Hnil in Hmedia. discriminate Hmedia.
Qed.

Lemma page_getThumbnailPath_witness :
  let m := {| path := JS.lit "a.JPG"; size := 300; type := Image |} in
  plainListing sampleTree = true /\ In m (mainInventory sampleTree) /\
  Page.getThumbnailPath (path m) (type m) = getThumbnailPath (path m) (type m).
Proof.
  intros m.
  assert (Hplain : plainListing sampleTree = true) by (vm_compute; reflexivity).
  assert (Hin : In m (mainInventory sampleTree)) by (vm_compute; tauto).
  split; [exact Hplain |]. split; [exact Hin |].
  apply (page_getThumbnailPath sampleTree m Hplain Hin).
Defined.

(** Off the inventory the two can differ: on a file whose name is only an
    extension, which [findMedia] does not list. *)
Example page_getThumbnailPath_dotfile :
  thumbExt (JS.lit ".png") Image = JS.lit ".jpg" /\
  Page.thumbExt (JS.lit ".png") Image = JS.lit ".png".
Proof. vm_compute. split; reflexivity. Qed.


(** ** The extraction commands, one by one *)

Lemma frameCommands_length d seg fs k : length (frameCommands d seg fs k) = length fs.
Proof.
  revert k. induction fs as [| f rest IH]; intros k; [reflexivity |].
  cbn [frameCommands length]. now rewrite IH.
Qed.

Lemma segmentCommands_length d frames segs k :
  0 <= frames ->
  Z.of_nat (length (segmentCommands d frames segs k)) = Z.of_nat (length segs) * frames.
Proof.
  intros Hf. revert k. induction segs as [| seg rest IH]; intros k; [reflexivity |].
  cbn [segmentCommands length].
  rewrite length_app, frameCommands_length, indices_length, Nat2Z.inj_add, IH. lia.
Qed.

(** The inner loop: it issues a prefix of its commands, all of them when it
    ends normally. *)
Lemma extractFrames_trace (o : video_oracle) (d : list Z) (seg : Z) (fs : list Z) :
  forall k w,
  let out := extractFrames d o seg fs k w in
  exists n, (n <= length fs)%nat /\
    trace (snd out) = trace w ++ firstn n (frameCommands d seg fs k) /\
    (forall k', fst out = Returned k' -> n = length fs /\ k' = k + Z.of_nat (length fs)).
Proof.
  induction fs as [| f rest IH]; intros k w; cbn zeta.
  - exists 0%nat. cbn [extractFrames ret fst snd length frameCommands firstn].
    rewrite app_nil_r. split; [lia |]. split; [reflexivity |].
    intros k' [= <-]. split; [reflexivity | lia].
  - cbn [extractFrames length frameCommands].
    unfold bind at 1, emit at 1. unfold bind at 1.
    destruct (frame_exec o k) eqn:Hexec; cbn [execSync].
    + set (w1 := write_scratch d (frameName k) _).
      assert (Hw1 : trace w1 = trace w ++ [CmdExtract seg f d (frameName k)]).
      { subst w1. unfold write_scratch. cbn [scratch].
        destruct (scratch w !! d); reflexivity. }
      destruct (IH (k + 1) w1) as (n & Hn & Ht & Hr).
      exists (S n). split; [lia |]. split.
      * rewrite Ht, Hw1, <- app_assoc. reflexivity.
      * intros k' Hk'. destruct (Hr k' Hk') as [-> ->]. split; [reflexivity | lia].
    + exists 1%nat. cbn [fst snd firstn]. split; [lia |]. split; [| discriminate].
      destruct outputLeft; [| reflexivity].
      unfold write_scratch. cbn [scratch]. destruct (scratch w !! d); reflexivity.
Qed.

Lemma extractSegments_trace (o : video_oracle) (d : list Z) (frames : Z) (segs : list Z) :
  0 <= frames ->
  forall k w,
  let out := extractSegments d o frames segs k w in
  exists n, (n <= length (segmentCommands d frames segs k))%nat /\
    trace (snd out) = trace w ++ firstn n (segmentCommands d frames segs k) /\
    (forall k', fst out = Returned k' -> n = length (segmentCommands d frames segs k)).
Proof.
  intros Hf. induction segs as [| seg rest IH]; intros k w; cbn zeta.
  - exists 0%nat. cbn [extractSegments ret fst snd segmentCommands firstn length].
    rewrite app_nil_r. repeat split; lia.
  - cbn [extractSegments segmentCommands]. unfold bind.
    destruct (extractFrames_trace o d seg (indices frames) k w) as (n1 & Hn1 & Ht1 & Hr1).
    destruct (extractFrames d o seg (indices frames) k w) as [[k' | e] w1] eqn:Hrun;
      cbn [fst snd] in *.
    + destruct (Hr1 k' eq_refl) as [-> ->].
      rewrite indices_length, Z2Nat.id by assumption.
      destruct (IH (k + frames) w1) as (n & Hn & Ht & Hr).
      exists (length (frameCommands d seg (indices frames) k) + n)%nat.
      split; [rewrite length_app; lia |]. split.
      * rewrite Ht, Ht1, firstn_app_2, <- app_assoc.
        rewrite <- (frameCommands_length d seg (indices frames) k) at 1.
        now rewrite firstn_all.
      * intros k' Hk'. rewrite (Hr k' Hk'), length_app. reflexivity.
    + exists n1. split; [rewrite length_app, frameCommands_length; lia |].
      split; [| discriminate].
      rewrite Ht1, firstn_app.
      replace (n1 - length (frameCommands d seg (indices frames) k))%nat with 0%nat
        by (rewrite frameCommands_length; lia).
      cbn [firstn]. now rewrite app_nil_r.
Qed.

Lemma frameCommands_block (d : list Z) (seg frames : Z) :
  0 < frames -> 0 <= seg ->
  forall f0 m, 0 <= f0 -> 0 <= m -> f0 + m <= frames ->
  frameCommands d seg (range f0 m) (seg * frames + f0) =
  List.map (extractCommand d frames) (range (seg * frames + f0) m).
Proof.
  intros Hf Hseg f0 m Hf0 Hm. revert f0 Hf0.
  rewrite <- (Z2Nat.id m Hm). clear Hm.
  induction (Z.to_nat m) as [| n IH]; intros f0 Hf0 Hle.
  - cbn [Z.of_nat]. rewrite !range_nil. reflexivity.
  - rewrite Nat2Z.inj_succ, <- Z.add_1_r in *.
    rewrite (range_cons f0), (range_cons (seg * frames + f0)) by lia.
    cbn [frameCommands List.map]. f_equal.
    + unfold extractCommand. f_equal.
      * apply Z.div_unique with (r := f0); lia.
      * apply Z.mod_unique with (q := seg); lia.
    + replace (seg * frames + f0 + 1) with (seg * frames + (f0 + 1)) by lia.
      apply IH; lia.
Qed.

Lemma segmentCommands_range (d : list Z) (frames : Z) :
  0 < frames ->
  forall (m : nat) s0, 0 <= s0 ->
  segmentCommands d frames (range s0 (Z.of_nat m)) (s0 * frames) =
  List.map (extractCommand d frames) (range (s0 * frames) (Z.of_nat m * frames)).
Proof.
  intros Hf. induction m as [| m IH]; intros s0 Hs0.
  - cbn [Z.of_nat]. rewrite Z.mul_0_l, !range_nil. reflexivity.
  - rewrite Nat2Z.inj_succ, <- Z.add_1_r.
    rewrite (range_cons s0) by lia. cbn [segmentCommands].
    replace ((Z.of_nat m + 1) * frames) with (frames + Z.of_nat m * frames) by lia.
    rewrite range_app, map_app by lia. f_equal.
    + rewrite <- range_0.
      pose proof (frameCommands_block d s0 frames Hf Hs0 0 frames) as H.
      rewrite !Z.add_0_r in H. apply H; lia.
    + replace (s0 * frames + frames) with ((s0 + 1) * frames) by lia.
      apply IH. lia.
Qed.

Lemma segmentCommands_indices (d : list Z) (frames segments : Z) :
  0 < frames -> 0 <= segments ->
  segmentCommands d frames (indices segments) 0 =
  List.map (extractCommand d frames) (indices (segments * frames)).
Proof.
  intros Hf Hs.
  pose proof (segmentCommands_range d frames Hf (Z.to_nat segments) 0 ltac:(lia)) as H.
  rewrite Z2Nat.id, !range_0 in H by assumption. exact H.
Qed.

Lemma firstn_indices (n : nat) (total : Z) :
  (n <= Z.to_nat total)%nat -> firstn n (indices total) = indices (Z.of_nat n).
Proof.
  intros Hn. unfold indices. rewrite firstn_map, take_seq, Nat2Z.id.
  now rewrite Nat.min_l.
Qed.

(** The commands of the [try] block: a run of extraction commands in the
    order of the frame numbers, then the assembly if all were issued and
    succeeded. *)
Lemma tryBody_trace videoPath outputPath o duration d w :
  let total := videoSegments videoPath duration * videoFrames videoPath in
  let out := tryBody videoPath outputPath o duration d w in
  exists n, 0 <= n <= total /\
    (trace (snd out) =
       trace w ++ List.map (extractCommand d (videoFrames videoPath)) (indices n) \/
     n = total /\
     trace (snd out) =
       trace w ++ List.map (extractCommand d (videoFrames videoPath)) (indices total) ++
       [CmdAssemble d outputPath]).
Proof.
  cbn zeta.
  destruct (video_parameters videoPath duration) as (_ & Hf & Hs).
  unfold tryBody, bind.
  destruct (extractSegments_trace o d (videoFrames videoPath)
              (indices (videoSegments videoPath duration)) ltac:(lia) 0 w)
    as (n & Hn & Ht & Hr).
  rewrite segmentCommands_indices in Hn, Ht, Hr by lia.
  rewrite length_map, indices_length in Hn, Hr.
  rewrite firstn_map, firstn_indices in Ht by assumption.
  destruct (extractSegments d o _ _ 0 w) as [[k' | e] w1]; cbn [fst snd] in *.
  - rewrite (Hr k' eq_refl), Z2Nat.id in Ht by lia.
    exists (videoSegments videoPath duration * videoFrames videoPath).
    split; [lia |]. right. split; [reflexivity |].
    unfold emit. destruct (assemble_exec o) as [| []];
      cbn [execSync snd write_cache set_cache trace]; rewrite Ht, <- app_assoc; reflexivity.
  - exists (Z.of_nat n). split; [lia |]. left. exact Ht.
Qed.

Lemma cleanup_trace d w : trace (snd (cleanup d w)) = trace w.
Proof.
  unfold cleanup, try_catch, bind, readdirSync, ret.
  destruct (scratch w !! d) as [files |]; [| reflexivity].
  assert (Hunlink : forall names w0,
            trace (snd (unlinkAll d names w0)) = trace w0).
  { induction names as [| x rest IH]; intros w0; [reflexivity |].
    cbn [unlinkAll]. unfold bind, unlinkSync.
    destruct (scratch w0 !! d) as [fs |]; [| reflexivity].
    case_bool_decide; [| reflexivity]. rewrite IH. reflexivity. }
  pose proof (Hunlink (elements files) w) as Hu.
  destruct (unlinkAll d (elements files) w) as [[[] | e] w1]; cbn [fst snd] in *;
    [| exact Hu].
  unfold rmdirSync. destruct (scratch w1 !! d) as [fs |]; [| exact Hu].
  case_bool_decide; exact Hu.
Qed.

Lemma try_finally_trace {A} (body : io A) (d : list Z) (w : world) :
  trace (snd (try_finally body (cleanup d) w)) = trace (snd (body w)).
Proof.
  unfold try_finally. destruct (body w) as [r w1]. cbn [snd].
  pose proof (cleanup_trace d w1) as H.
  destruct (cleanup d w1) as [[[] | e] w2]; exact H.
Qed.



(** ** A video task that cannot start *)

(** X5: when the duration cannot be read (ffprobe fails, prints no number,
    or prints one that is not positive) [generateVideoThumbnail] throws
    after the probe alone: no scratch directory is made, no ffmpeg command
    runs, the destination is untouched.  The same holds when the scratch
    directory cannot be made. *)
Theorem video_not_started (videoPath outputPath : list Z) (o : video_oracle) (w : world) :
  let out := generateVideoThumbnail videoPath outputPath o w in
  let probed := {| cache := cache w; scratch := scratch w;
                   trace := trace w ++ [CmdProbe videoPath] |} in
  (probe o = None -> out = (Thrown DurationUnavailable, probed)) /\
  (forall duration, probe o = Some duration -> (duration <= 0)%Q ->
     out = (Thrown DurationUnavailable, probed)) /\
  (forall duration, probe o = Some duration -> (0 < duration)%Q ->
     is_Some (scratch w !! tempDirName o) -> out = (Thrown FsError, probed)).
Proof.
  cbn zeta. rewrite generateVideoThumbnail_unfold. cbn zeta.
  split; [intros ->; reflexivity |]. split.
  - intros duration -> Hle. apply Qle_bool_iff in Hle. rewrite Hle. reflexivity.
  - intros duration -> Hpos [files Hdir].
    replace (Qle_bool duration 0) with false.
    2:{ symmetry. apply not_true_is_false. intros H. apply Qle_bool_iff in H.
        apply (Qlt_not_le _ _ Hpos H). }
    rewrite Hdir. reflexivity.
Qed.

(** ** The commands of a video task *)

Lemma extractCommand_not_assemble d frames n c :
  In c (List.map (extractCommand d frames) (indices n)) -> isAssemble c = false.
Proof. intros Hin. apply in_map_iff in Hin as (k & <- & _). reflexivity. Qed.

(** A call that got its duration and its scratch directory, in full: the
    commands it ran and how it ended. *)
Lemma generateVideoThumbnail_started videoPath outputPath o w duration :
  probe o = Some duration -> (0 < duration)%Q ->
  scratch w !! tempDirName o = None ->
  let out := generateVideoThumbnail videoPath outputPath o w in
  let frames := videoFrames videoPath in
  let total := videoSegments videoPath duration * frames in
  let extracts n := List.map (extractCommand (tempDirName o) frames) (indices n) in
  exists n, 0 <= n <= total /\
    ((1 <= n /\ frame_exec o (n - 1) <> ExecOk /\
      fst out = Thrown CommandFailed /\ cache (snd out) = cache w /\
      trace (snd out) = trace w ++ CmdProbe videoPath :: extracts n)
     \/
     (n = total /\ (forall i, 0 <= i < total -> frame_exec o i = ExecOk) /\
      trace (snd out) =
        trace w ++ CmdProbe videoPath :: extracts total ++
        [CmdAssemble (tempDirName o) outputPath] /\
      match assemble_exec o with
      | ExecOk => fst out = Returned tt /\ cache (snd out) = {[outputPath]} ∪ cache w
      | ExecFail outputLeft =>
          fst out = Thrown CommandFailed /\
          cache (snd out) = if outputLeft then {[outputPath]} ∪ cache w else cache w
      end)).
Proof.
  intros Hprobe Hpos Hfresh out frames total extracts.
  destruct (generateVideoThumbnail_run videoPath outputPath o w duration Hprobe Hpos Hfresh)
    as (n & cmds & Hn & He & Ha & Hcases).
  fold out total in Hcases, Hn.
  assert (Htrace : exists n', 0 <= n' <= total /\
            (trace (snd out) = trace w ++ CmdProbe videoPath :: extracts n' \/
             n' = total /\
             trace (snd out) = trace w ++ CmdProbe videoPath :: extracts total ++
                               [CmdAssemble (tempDirName o) outputPath])).
  { subst out. rewrite generateVideoThumbnail_unfold. cbn zeta. rewrite Hprobe, Hfresh.
    replace (Qle_bool duration 0) with false.
    2:{ symmetry. apply not_true_is_false. intros H. apply Qle_bool_iff in H.
        apply (Qlt_not_le _ _ Hpos H). }
    rewrite try_finally_trace.
    destruct (tryBody_trace videoPath outputPath o duration (tempDirName o)
                (set_scratch (<[tempDirName o := ∅]> (scratch w))
                   (snd (emit (CmdProbe videoPath) w))))
      as (n' & Hn' & [Ht | [-> Ht]]).
    - exists n'. split; [exact Hn' |]. left. rewrite Ht. cbn [emit snd set_scratch trace].
      rewrite <- app_assoc. reflexivity.
    - eexists. split; [exact Hn' |]. right. split; [reflexivity |]. rewrite Ht.
      cbn [emit snd set_scratch trace]. rewrite <- app_assoc. reflexivity. }
  destruct Htrace as (n' & Hn' & Htrace).
  assert (Hlen : forall k, 0 <= k -> Z.of_nat (length (extracts k)) = k).
  { intros k Hk. subst extracts. cbn beta. rewrite length_map, indices_length. lia. }
  assert (Hcmds : Z.of_nat (length (extractedFrames cmds)) = n)
    by (rewrite He, length_map, indices_length; lia).
  assert (Hnames : forall k, extractedFrames (extracts k) = List.map frameName (indices k)).
  { intros k. subst extracts. cbn beta.
    induction (indices k) as [| i rest IH]; [reflexivity |].
    cbn [List.map]. unfold extractCommand at 1.
    change (extractedFrames (CmdExtract ?s ?f ?d ?nm :: ?l))
      with (nm :: extractedFrames l).
    now rewrite IH. }
  destruct Hcases as [(Hn1 & Hfail & Hres & Hcache & Ht) | (-> & Hall & Ht & Hasm)].
  - exists n. split; [exact Hn |]. left.
    repeat (split; [assumption |]). rewrite Ht. do 2 f_equal.
    destruct Htrace as [Ht' | [-> Ht']]; rewrite Ht' in Ht;
      apply app_inv_head in Ht; injection Ht as Ht.
    + rewrite <- Ht in He. rewrite Hnames in He.
      apply (f_equal (@length _)) in He. rewrite !length_map, !indices_length in He.
      replace n with n' by lia. symmetry. exact Ht.
    + exfalso. rewrite <- Ht, existsb_app in Ha. cbn in Ha.
      rewrite orb_true_r in Ha. discriminate.
  - exists total. split; [lia |]. right.
    split; [reflexivity |]. split; [exact Hall |]. split; [| exact Hasm].
    destruct Htrace as [Ht' | [_ Ht']]; [| exact Ht'].
    exfalso. rewrite Ht' in Ht. apply app_inv_head in Ht. injection Ht as Ht.
    assert (Hin : In (CmdAssemble (tempDirName o) outputPath) (extracts n')).
    { rewrite Ht. apply in_or_app. right. now left. }
    apply extractCommand_not_assemble in Hin. discriminate.
Qed.



(** X7: the extraction command of scratch frame number k is the one for
    frame k mod framesPerSegment of segment k / framesPerSegment: the
    frames of a segment are numbered consecutively, segment after segment,
    and the assembly, if it runs, is the last command and runs after all
    of them. *)
Theorem frame_numbering (videoPath outputPath : list Z) (o : video_oracle) (w : world)
    (duration : Q) :
  probe o = Some duration -> (0 < duration)%Q ->
  scratch w !! tempDirName o = None ->
  let out := generateVideoThumbnail videoPath outputPath o w in
  let frames := videoFrames videoPath in
  let segments := videoSegments videoPath duration in
  exists n assembled,
    0 <= n <= segments * frames /\
    trace (snd out) =
      trace w ++ CmdProbe videoPath ::
      List.map (fun k => CmdExtract (k / frames) (k mod frames) (tempDirName o) (frameName k))
               (indices n) ++
      (if assembled : bool then [CmdAssemble (tempDirName o) outputPath] else []) /\
    (forall k, 0 <= k < n ->
       0 <= k / frames < segments /\ 0 <= k mod frames < frames) /\
    (assembled = true -> n = segments * frames).
Proof.
  intros Hprobe Hpos Hfresh out frames segments.
  destruct (video_parameters videoPath duration) as (_ & Hf & Hs).
  fold frames segments in Hf, Hs.
  assert (Hslots : forall n, 0 <= n <= segments * frames -> forall k, 0 <= k < n ->
            0 <= k / frames < segments /\ 0 <= k mod frames < frames).
  { intros n Hn k Hk. split; [| apply Z.mod_pos_bound; lia].
    split; [apply Z.div_pos; lia |]. apply Z.div_lt_upper_bound; lia. }
  destruct (generateVideoThumbnail_started videoPath outputPath o w duration
              Hprobe Hpos Hfresh)
    as (n & Hn & [(_ & _ & _ & _ & Ht) | (-> & _ & Ht & _)]).
  - exists n, false. split; [exact Hn |]. split; [| split; [now apply Hslots | discriminate]].
    fold out in Ht. rewrite Ht, app_nil_r. reflexivity.
  - eexists _, true. split; [exact Hn |]. split; [exact Ht |].
    split; [now apply Hslots | reflexivity].
Qed.

Lemma frame_numbering_witness :
  let out := generateVideoThumbnail sampleVideoPath sampleOutputPath
               (sampleVideoOracle ExecOk) emptyWorld in
  exists n assembled,
    0 <= n <= videoSegments sampleVideoPath (7 # 2) * videoFrames sampleVideoPath /\
    trace (snd out) =
      trace emptyWorld ++ CmdProbe sampleVideoPath ::
      List.map (fun k => CmdExtract (k / videoFrames sampleVideoPath)
                           (k mod videoFrames sampleVideoPath)
                           (tempDirName (sampleVideoOracle ExecOk)) (frameName k))
               (indices n) ++
      (if assembled : bool
       then [CmdAssemble (tempDirName (sampleVideoOracle ExecOk)) sampleOutputPath]
       else []).
Proof.
  destruct (frame_numbering sampleVideoPath sampleOutputPath (sampleVideoOracle ExecOk)
              emptyWorld (7 # 2) eq_refl eq_refl eq_refl)
    as (n & assembled & Hn & Ht & _).
  exists n, assembled. split; [exact Hn | exact Ht].
Defined.


(** ** More about the worker pool *)

Section PoolCoverage.

Variable ROOT_DIR : list Z.
Variable hasFfmpeg : bool.


(** ** The order of dispatch *)







(** ** What a run does to the world *)









(** ** Outcomes and artifacts *)


(** ** The pool cannot hang *)








End PoolCoverage.

(** ** Without the decoder *)






(** ** Sample runs of the pool *)









(** ** The seek times of the frames, in exact arithmetic *)









(** The same seek times as the program computes them, in doubles, for a
    clip of 3.5 seconds with three segments of ten frames: frames 0, 9, 10
    and 29. *)
Example frameTime_example :
  List.map (fun k => FrameTimes.frameTime 0x1.cp+1 3 (k / 10) (k mod 10)) [0; 9; 10; 29] =
  [0x1.6666666666667p-3; 0x1.e666666666666p-2; 0x1.cp+0; 0x1.cffffffffffffp+1]%float.
Proof. vm_compute. reflexivity. Qed.


(** ** The script of the page *)

Section PageProperties.

Variable IMAGES : list media_entry.

Lemma imagesLength_nonneg : 0 <= Page.imagesLength IMAGES.
Proof. unfold Page.imagesLength. lia. Qed.

Lemma totalPages_spec :
  15 * (Page.totalPages IMAGES - 1) < Page.imagesLength IMAGES <= 15 * Page.totalPages IMAGES.
Proof.
  unfold Page.totalPages, IMAGES_PER_PAGE. rewrite ceilDiv_div by lia.
  pose proof imagesLength_nonneg.
  pose proof (Z.div_mod (- Page.imagesLength IMAGES) 15 ltac:(lia)).
  pose proof (Z.mod_pos_bound (- Page.imagesLength IMAGES) 15 ltac:(lia)).
  lia.
Qed.

Lemma index_Some (i : Z) :
  0 <= i < Page.imagesLength IMAGES -> exists m, Builtin.index IMAGES i = Some m.
Proof.
  intros Hi. unfold Builtin.index.
  replace (i <? 0) with false by (symmetry; apply Z.ltb_ge; lia).
  destruct (nth_error IMAGES (Z.to_nat i)) as [m |] eqn:E; [eauto |].
  apply nth_error_None in E. unfold Page.imagesLength in Hi. lia.
Qed.

Lemma slice_length {A} (start stop : Z) (l : list A) :
  0 <= start -> 0 <= stop ->
  Z.of_nat (length (Builtin.slice start stop l)) =
  Z.max 0 (Z.min stop (Z.of_nat (length l)) - Z.min start (Z.of_nat (length l))).
Proof.
  intros Hs He. unfold Builtin.slice, Builtin.clampIndex.
  replace (start <? 0) with false by (symmetry; apply Z.ltb_ge; lia).
  replace (stop <? 0) with false by (symmetry; apply Z.ltb_ge; lia).
  rewrite length_firstn, length_skipn. lia.
Qed.

Lemma pageMedia_length (page : Z) :
  0 <= page ->
  Z.of_nat (length (Page.pageMedia IMAGES page)) =
  Z.max 0 (Page.pageEnd IMAGES page - Z.min (Page.pageStart page) (Page.imagesLength IMAGES)).
Proof.
  intros Hp. unfold Page.pageMedia.
  pose proof imagesLength_nonneg.
  rewrite slice_length by (unfold Page.pageEnd, Page.pageStart, IMAGES_PER_PAGE; lia).
  unfold Page.pageEnd, Page.imagesLength. lia.
Qed.

Ltac view_fields :=
  cbn [Page.setPage Page.setCursor Page.setLastCursorPos Page.setLightbox
       Page.closeLightbox Page.currentPage Page.currentLightboxIndex
       Page.lightboxActive Page.cursorIndex Page.lastCursorPos] in *.

Ltac zbool :=
  repeat match goal with
         | |- context [Z.ltb ?a ?b] => destruct (Z.ltb_spec a b)
         | |- context [Z.gtb ?a ?b] => rewrite (Z.gtb_ltb a b)
         | |- context [Z.geb ?a ?b] => rewrite (Z.geb_leb a b)
         | |- context [Z.leb ?a ?b] => destruct (Z.leb_spec a b)
         | |- context [Z.eqb ?a ?b] => destruct (Z.eqb_spec a b)
         end.

Ltac view_solve :=
  unfold view_ok, cursor_drawn, Page.pageEnd in *;
  unfold Page.pageStart, IMAGES_PER_PAGE in *;
  view_fields; cbn zeta in *;
  repeat match goal with H : _ /\ _ |- _ => destruct H end;
  repeat split; intros; try discriminate; try lia; try solve [auto].

Lemma updateLightbox_ok (v : Page.view) :
  view_ok IMAGES v -> 0 <= Page.currentLightboxIndex v ->
  Page.updateLightbox IMAGES v = Some v.
Proof.
  intros (_ & _ & _ & Hl & _) H0. unfold Page.updateLightbox.
  pose proof imagesLength_nonneg.
  destruct (index_Some (Page.currentLightboxIndex v) ltac:(lia)) as [m ->]. reflexivity.
Qed.

Lemma nextPage_ok (v : Page.view) : view_ok IMAGES v -> view_ok IMAGES (Page.nextPage IMAGES v).
Proof.
  intros Hv. unfold Page.nextPage. zbool; [view_solve | exact Hv].
Qed.

Lemma prevPage_ok (v : Page.view) : view_ok IMAGES v -> view_ok IMAGES (Page.prevPage v).
Proof.
  intros Hv. unfold Page.prevPage. rewrite Z.gtb_ltb. zbool; [view_solve | exact Hv].
Qed.

Lemma openLightbox_ok (index : Z) (v : Page.view) :
  view_ok IMAGES v -> 0 <= index < Page.imagesLength IMAGES ->
  exists v', Page.openLightbox IMAGES index v = Some v' /\ view_ok IMAGES v' /\
             Page.currentPage v' = Page.currentPage v /\
             Page.cursorIndex v' = Page.cursorIndex v.
Proof.
  intros Hv Hi. unfold Page.openLightbox.
  assert (Hv' : view_ok IMAGES (Page.setLightbox index true v))
    by view_solve.
  rewrite updateLightbox_ok by (assumption || view_solve).
  eexists. split; [reflexivity |]. split; [exact Hv' |]. split; reflexivity.
Qed.

Lemma lightboxNext_ok (v : Page.view) :
  view_ok IMAGES v ->
  exists v', Page.lightboxNext IMAGES v = Some v' /\ view_ok IMAGES v' /\
             Page.currentPage v' = Page.currentPage v /\
             Page.cursorIndex v' = Page.cursorIndex v.
Proof.
  intros Hv. unfold Page.lightboxNext.
  destruct (Z.ltb_spec (Page.currentLightboxIndex v) (Page.imagesLength IMAGES - 1)).
  - assert (Hv' : view_ok IMAGES (Page.setLightbox (Page.currentLightboxIndex v + 1)
                                    (Page.lightboxActive v) v))
      by view_solve.
    rewrite updateLightbox_ok by (assumption || view_solve).
    eexists. split; [reflexivity |]. split; [exact Hv' |]. split; reflexivity.
  - exists v. split; [reflexivity |]. split; [exact Hv |]. split; reflexivity.
Qed.

Lemma lightboxPrev_ok (v : Page.view) :
  view_ok IMAGES v ->
  exists v', Page.lightboxPrev IMAGES v = Some v' /\ view_ok IMAGES v' /\
             Page.currentPage v' = Page.currentPage v /\
             Page.cursorIndex v' = Page.cursorIndex v.
Proof.
  intros Hv. unfold Page.lightboxPrev. rewrite Z.gtb_ltb.
  destruct (Z.ltb_spec 0 (Page.currentLightboxIndex v)).
  - assert (Hv' : view_ok IMAGES (Page.setLightbox (Page.currentLightboxIndex v - 1)
                                    (Page.lightboxActive v) v))
      by view_solve.
    rewrite updateLightbox_ok by (assumption || view_solve).
    eexists. split; [reflexivity |]. split; [exact Hv' |]. split; reflexivity.
  - exists v. split; [reflexivity |]. split; [exact Hv |]. split; reflexivity.
Qed.

Lemma moveCursor_ok (k : Page.key) (tops : list Z) (v : Page.view) :
  view_ok IMAGES v ->
  view_ok IMAGES (Page.moveCursor IMAGES k tops v) /\
  cursor_drawn IMAGES (Page.moveCursor IMAGES k tops v) \/
  Page.moveCursor IMAGES k tops v = v.
Proof.
  intros Hv. unfold Page.moveCursor.
  pose proof totalPages_spec as Htp. pose proof imagesLength_nonneg as Hlen.
  set (delta := match k with
                | Page.ArrowRight => Some 1
                | Page.ArrowLeft => Some (-1)
                | Page.ArrowDown => Some (Page.getGridColumns tops)
                | Page.ArrowUp => Some (- Page.getGridColumns tops)
                | _ => None
                end).
  destruct delta as [d |]; [| now right]. cbn zeta.
  rewrite Z.geb_leb.
  destruct (Z.leb_spec 0 (Page.cursorIndex v + d)); [| now right].
  destruct (Z.ltb_spec (Page.cursorIndex v + d) (Page.imagesLength IMAGES)); [| now right].
  cbn [andb]. left. view_fields. rewrite floorDiv_div by (unfold IMAGES_PER_PAGE; lia).
  unfold IMAGES_PER_PAGE.
  set (c := Page.cursorIndex v + d) in *.
  pose proof (Z.div_mod c 15 ltac:(lia)). pose proof (Z.mod_pos_bound c 15 ltac:(lia)).
  destruct (Z.eqb_spec (c / 15) (Page.currentPage v)) as [Heq | Hne];
    cbn [negb]; view_solve.
Qed.

Lemma handle_ok (e : Page.event) (v : Page.view) :
  view_ok IMAGES v ->
  exists v', Page.handle IMAGES e v = Some v' /\ view_ok IMAGES v' /\
    (isPageButton e = false -> cursor_drawn IMAGES v -> cursor_drawn IMAGES v').
Proof.
  intros Hv.
  pose proof totalPages_spec as Htp. pose proof imagesLength_nonneg as Hlen.
  destruct e as [k shiftKey tops | | | i | | | |]; cbn [Page.handle isPageButton].
  - (* a key *)
    unfold Page.keydown.
    destruct (Page.lightboxActive v) eqn:Hact.
    { destruct k;
        try (exists v; split; [reflexivity | split; [exact Hv | tauto]]).
      - exists (Page.closeLightbox v). split; [reflexivity |].
        split; [view_solve | tauto].
      - destruct (lightboxNext_ok v Hv) as (v' & -> & Hv' & Hp & Hc).
        exists v'. split; [reflexivity |]. split; [exact Hv' |].
        unfold cursor_drawn. rewrite Hp, Hc. tauto.
      - destruct (lightboxPrev_ok v Hv) as (v' & -> & Hv' & Hp & Hc).
        exists v'. split; [reflexivity |]. split; [exact Hv' |].
        unfold cursor_drawn. rewrite Hp, Hc. tauto. }
    destruct (shiftKey && match k with Page.ArrowLeft | Page.ArrowRight => true | _ => false end)
      eqn:Hshift.
    { set (v1 := match k with Page.ArrowRight => Page.nextPage IMAGES v | _ => Page.prevPage v end).
      assert (Hv1 : view_ok IMAGES v1)
        by (subst v1; destruct k; (now apply nextPage_ok) || now apply prevPage_ok).
      assert (Hc1 : Page.cursorIndex v1 = Page.cursorIndex v).
      { subst v1. unfold Page.nextPage, Page.prevPage. destruct k; zbool; reflexivity. }
      cbn zeta. rewrite Z.geb_leb.
      destruct (Z.leb_spec 0 (Page.cursorIndex v1)) as [Hc0 | Hc0].
      - destruct (Z.eqb_spec (Page.currentPage v1) (Page.currentPage v)) as [Heq | Hne];
          cbn [negb andb].
        + exists v1. split; [reflexivity |]. split; [exact Hv1 |].
          unfold cursor_drawn. rewrite Heq, Hc1. tauto.
        + eexists. split; [reflexivity |].
          unfold Builtin.rem, IMAGES_PER_PAGE.
          pose proof (Z.rem_bound_pos (Page.cursorIndex v1) 15 Hc0 ltac:(lia)).
          split; view_solve.
      - cbn [andb]. exists v1. split; [reflexivity |]. split; [exact Hv1 |].
        unfold cursor_drawn. intros _ _ H0. lia. }
    destruct (Page.isArrow k) eqn:Harrow.
    { destruct (Z.ltb_spec (Page.cursorIndex v) 0) as [Hhid | Hshown].
      - eexists. split; [reflexivity |].
        split; view_solve.
      - eexists. split; [reflexivity |].
        destruct (moveCursor_ok k tops v Hv) as [[Hok Hdrawn] | ->]; [tauto | tauto]. }
    destruct (match k with Page.Escape => true | _ => false end && (Page.cursorIndex v >=? 0))
      eqn:Hesc.
    { eexists. split; [reflexivity |].
      apply andb_true_iff in Hesc as [_ Hc0]. rewrite Z.geb_leb in Hc0.
      apply Z.leb_le in Hc0.
      unfold Builtin.rem, IMAGES_PER_PAGE.
      pose proof (Z.rem_bound_pos (Page.cursorIndex v) 15 Hc0 ltac:(lia)).
      split; view_solve. }
    destruct (match k with Page.Enter => true | _ => false end && (Page.cursorIndex v >=? 0))
      eqn:Henter.
    { apply andb_true_iff in Henter as [_ Hc0]. rewrite Z.geb_leb in Hc0.
      apply Z.leb_le in Hc0.
      destruct (openLightbox_ok (Page.cursorIndex v) v Hv) as (v' & -> & Hv' & Hp & Hc).
      { unfold view_ok in Hv. lia. }
      exists v'. split; [reflexivity |]. split; [exact Hv' |].
      unfold cursor_drawn. rewrite Hp, Hc. tauto. }
    exists v. split; [reflexivity |]. split; [exact Hv | tauto].
  - eexists. split; [reflexivity |]. split; [now apply prevPage_ok | discriminate].
  - eexists. split; [reflexivity |]. split; [now apply nextPage_ok | discriminate].
  - destruct (Nat.ltb_spec i (length (Page.pageMedia IMAGES (Page.currentPage v))))
      as [Hi | Hi].
    + pose proof (pageMedia_length (Page.currentPage v) ltac:(unfold view_ok in Hv; lia)) as Hpl.
      destruct (openLightbox_ok (Page.pageStart (Page.currentPage v) + Z.of_nat i) v Hv)
        as (v' & -> & Hv' & Hp & Hc).
      { unfold view_ok, Page.pageStart, Page.pageEnd, IMAGES_PER_PAGE in *. lia. }
      exists v'. split; [reflexivity |]. split; [exact Hv' |].
      unfold cursor_drawn. rewrite Hp, Hc. tauto.
    + exists v. split; [reflexivity |]. split; [exact Hv | tauto].
  - exists (Page.closeLightbox v). split; [reflexivity |].
    split; [view_solve | tauto].
  - exists (Page.closeLightbox v). split; [reflexivity |].
    split; [view_solve | tauto].
  - destruct (lightboxPrev_ok v Hv) as (v' & -> & Hv' & Hp & Hc).
    exists v'. split; [reflexivity |]. split; [exact Hv' |].
    unfold cursor_drawn. rewrite Hp, Hc. tauto.
  - destruct (lightboxNext_ok v Hv) as (v' & -> & Hv' & Hp & Hc).
    exists v'. split; [reflexivity |]. split; [exact Hv' |].
    unfold cursor_drawn. rewrite Hp, Hc. tauto.
Qed.

Lemma initial_ok : view_ok IMAGES Page.initial /\ cursor_drawn IMAGES Page.initial.
Proof.
  pose proof totalPages_spec. pose proof imagesLength_nonneg.
  split; unfold view_ok, cursor_drawn, IMAGES_PER_PAGE; cbn; repeat split; intros;
    try discriminate; lia.
Qed.

Lemma handleAll_ok (events : list Page.event) :
  forall v, view_ok IMAGES v ->
  exists v', Page.handleAll IMAGES events v = Some v' /\ view_ok IMAGES v' /\
    (forallb (fun e => negb (isPageButton e)) events = true ->
     cursor_drawn IMAGES v -> cursor_drawn IMAGES v').
Proof.
  induction events as [| e rest IH]; intros v Hv.
  - exists v. split; [reflexivity |]. split; [exact Hv | tauto].
  - cbn [Page.handleAll forallb].
    destruct (handle_ok e v Hv) as (v1 & -> & Hv1 & Hc1).
    destruct (IH v1 Hv1) as (v' & Hrun & Hv' & Hc').
    exists v'. split; [exact Hrun |]. split; [exact Hv' |].
    intros Hall Hc. apply andb_true_iff in Hall as [He Hrest].
    apply Hc'; [exact Hrest |]. apply Hc1; [| exact Hc].
    now apply negb_true_iff.
Qed.

(** X16: whatever the user does, in whatever order, no handler of the
    page reads [IMAGES] outside its bounds (the read in [updateLightbox]
    never throws), and after every event the page shown is an existing
    page, the cursor and the lightbox index are -1 or indices of
    [IMAGES], and an open lightbox shows an entry.  This holds for an
    empty [IMAGES] too. *)
Theorem page_never_throws (events : list Page.event) :
  exists v,
    Page.handleAll IMAGES events Page.initial = Some v /\
    0 <= Page.currentPage v <= Z.max 0 (Page.totalPages IMAGES - 1) /\
    -1 <= Page.cursorIndex v < Page.imagesLength IMAGES /\
    0 <= Page.lastCursorPos v < IMAGES_PER_PAGE /\
    -1 <= Page.currentLightboxIndex v < Page.imagesLength IMAGES /\
    (Page.lightboxActive v = true -> 0 <= Page.currentLightboxIndex v).
Proof.
  destruct (handleAll_ok events Page.initial (proj1 initial_ok)) as (v & Hrun & Hv & _).
  exists v. split; [exact Hrun | exact Hv].
Qed.

(** X17: as long as the page buttons are not clicked, a cursor that is
    shown is on a thumbnail of the page drawn: every key that moves the
    cursor to another page turns the page, and turning the page with
    shift and an arrow takes the cursor along.  (The Prev and Next buttons
    turn the page and leave the cursor where it was.) *)
Theorem cursor_stays_drawn (events : list Page.event) :
  forallb (fun e => negb (isPageButton e)) events = true ->
  exists v,
    Page.handleAll IMAGES events Page.initial = Some v /\
    (0 <= Page.cursorIndex v ->
     Page.pageStart (Page.currentPage v) <= Page.cursorIndex v
       < Page.pageEnd IMAGES (Page.currentPage v)).
Proof.
  intros Hall.
  destruct (handleAll_ok events Page.initial (proj1 initial_ok)) as (v & Hrun & _ & Hc).
  exists v. split; [exact Hrun |]. apply Hc; [exact Hall | apply initial_ok].
Qed.

(** ** Pages *)

Lemma firstn_skipn_add {A} (a b : nat) (l : list A) :
  firstn a l ++ firstn b (skipn a l) = firstn (a + b) l.
Proof.
  revert l. induction a as [| a IH]; intros l; [reflexivity |].
  destruct l as [| x l]; [cbn [firstn skipn app Nat.add]; now rewrite firstn_nil |].
  cbn [firstn skipn app Nat.add]. now rewrite IH.
Qed.

Lemma pageMedia_firstn (page : Z) :
  0 <= page ->
  Page.pageMedia IMAGES page =
  firstn (Z.to_nat (Page.pageEnd IMAGES page - Z.min (Page.pageStart page) (Page.imagesLength IMAGES)))
         (skipn (Z.to_nat (Z.min (Page.pageStart page) (Page.imagesLength IMAGES))) IMAGES).
Proof.
  intros Hp. unfold Page.pageMedia, Builtin.slice, Builtin.clampIndex.
  pose proof imagesLength_nonneg.
  unfold Page.pageEnd, Page.pageStart, IMAGES_PER_PAGE, Page.imagesLength in *.
  replace (page * 15 <? 0) with false by (symmetry; apply Z.ltb_ge; lia).
  replace (Z.min (page * 15 + 15) (Z.of_nat (length IMAGES)) <? 0) with false
    by (symmetry; apply Z.ltb_ge; lia).
  rewrite Z.min_l by lia. reflexivity.
Qed.

Lemma pages_prefix (k : nat) :
  Z.of_nat k <= Page.totalPages IMAGES ->
  flat_map (Page.pageMedia IMAGES) (indices (Z.of_nat k)) =
  firstn (Z.to_nat (Z.min (15 * Z.of_nat k) (Page.imagesLength IMAGES))) IMAGES.
Proof.
  pose proof totalPages_spec as Htp. pose proof imagesLength_nonneg as Hlen.
  induction k as [| k IH]; intros Hk;
    [cbn [Z.of_nat]; rewrite Z.mul_0_r, Z.min_l by lia; reflexivity |].
  rewrite Nat2Z.inj_succ, <- Z.add_1_r in *.
  rewrite indices_succ, flat_map_app by lia. cbn [flat_map]. rewrite app_nil_r.
  rewrite IH by lia. rewrite pageMedia_firstn by lia.
  unfold Page.pageEnd, Page.pageStart, IMAGES_PER_PAGE.
  replace (Z.min (Z.of_nat k * 15) (Page.imagesLength IMAGES)) with (Z.of_nat k * 15) by lia.
  replace (Z.min (15 * Z.of_nat k) (Page.imagesLength IMAGES)) with (Z.of_nat k * 15) by lia.
  rewrite firstn_skipn_add. f_equal. lia.
Qed.

(** X18: the pages split [IMAGES] in order, without loss or repetition:
    the entries drawn on pages 0, 1, ..., totalPages - 1, one after the
    other, are exactly [IMAGES]; every page holds 15 entries, except the
    last, which holds between 1 and 15; and the page count is the one
    [main] prints. *)
Theorem pages_partition :
  flat_map (Page.pageMedia IMAGES) (indices (Page.totalPages IMAGES)) = IMAGES /\
  (forall page, 0 <= page < Page.totalPages IMAGES ->
     1 <= Z.of_nat (length (Page.pageMedia IMAGES page)) <= 15 /\
     (page < Page.totalPages IMAGES - 1 ->
      Z.of_nat (length (Page.pageMedia IMAGES page)) = 15)) /\
  mainTotalPages IMAGES = Page.totalPages IMAGES.
Proof.
  pose proof totalPages_spec as Htp. pose proof imagesLength_nonneg as Hlen.
  assert (Htp0 : 0 <= Page.totalPages IMAGES) by lia.
  split; [| split; [| reflexivity]].
  - pose proof (pages_prefix (Z.to_nat (Page.totalPages IMAGES)) ltac:(lia)) as H.
    rewrite Z2Nat.id in H by lia. rewrite H.
    rewrite Z.min_r by lia. unfold Page.imagesLength. rewrite Nat2Z.id.
    apply firstn_all.
  - intros page Hp. rewrite pageMedia_length by lia.
    unfold Page.pageEnd, Page.pageStart, IMAGES_PER_PAGE. lia.
Qed.

End PageProperties.

(** ** The columns of the grid *)

Lemma firstOffRow_spec (firstTop : Z) (rest : list Z) :
  forall i,
  match Page.firstOffRow firstTop rest i with
  | Some j =>
      i <= j < i + Z.of_nat (length rest) /\
      Forall (fun top => top = firstTop) (firstn (Z.to_nat (j - i)) rest) /\
      nth (Z.to_nat (j - i)) rest firstTop <> firstTop
  | None => Forall (fun top => top = firstTop) rest
  end.
Proof.
  induction rest as [| top rest IH]; intros i; cbn [Page.firstOffRow]; [constructor |].
  destruct (Z.eqb_spec top firstTop) as [-> | Hne].
  - specialize (IH (i + 1)). destruct (Page.firstOffRow firstTop rest (i + 1)) as [j |].
    + destruct IH as (Hj & Hall & Hnth). cbn [length].
      replace (Z.to_nat (j - i)) with (S (Z.to_nat (j - (i + 1)))) by lia.
      split; [lia |]. split; [cbn [firstn]; now constructor | exact Hnth].
    + now constructor.
  - replace (i - i) with 0 by lia. cbn [Z.to_nat firstn nth length].
    split; [lia |]. split; [constructor | exact Hne].
Qed.

(** X19: [getGridColumns] counts the thumbnails of the first row: it
    returns a number from 1 up, at most the number of thumbnails when
    there is one; the thumbnails before that index all have the
    [offsetTop] of the first, and the thumbnail at that index, when there
    is one, has another. *)
Theorem getGridColumns_row (offsetTops : list Z) :
  let cols := Page.getGridColumns offsetTops in
  let firstTop := List.hd 0 offsetTops in
  1 <= cols <= Z.max 1 (Z.of_nat (length offsetTops)) /\
  Forall (fun top => top = firstTop) (firstn (Z.to_nat cols) offsetTops) /\
  (cols < Z.of_nat (length offsetTops) ->
   nth (Z.to_nat cols) offsetTops firstTop <> firstTop).
Proof.
  cbn zeta. destruct offsetTops as [| firstTop [| second rest]].
  - cbn. repeat split; try lia. constructor.
  - cbn. repeat split; try lia. repeat constructor.
  - cbn [Page.getGridColumns hd].
    pose proof (firstOffRow_spec firstTop (second :: rest) 1) as H.
    destruct (Page.firstOffRow firstTop (second :: rest) 1) as [j |].
    + destruct H as (Hj & Hall & Hnth).
      replace (Z.to_nat j) with (S (Z.to_nat (j - 1))) by lia.
      split; [cbn [length] in *; lia |]. split.
      * cbn [firstn]. now constructor.
      * intros _. exact Hnth.
    + split; [cbn [length]; lia |]. split.
      * rewrite Nat2Z.id, firstn_all. now constructor.
      * lia.
Qed.

Lemma cursor_stays_drawn_witness :
  exists v,
    Page.handleAll sampleImages sampleKeys Page.initial = Some v /\
    (0 <= Page.cursorIndex v ->
     Page.pageStart (Page.currentPage v) <= Page.cursorIndex v
       < Page.pageEnd sampleImages (Page.currentPage v)).
Proof. apply (cursor_stays_drawn sampleImages sampleKeys eq_refl). Defined.

Example sampleKeys_run :
  option_map (fun v => (Page.currentPage v, Page.cursorIndex v))
    (Page.handleAll sampleImages sampleKeys Page.initial) = Some (0, 14) /\
  option_map (fun v => (Page.currentPage v, Page.cursorIndex v))
    (Page.handleAll sampleImages (firstn 2 sampleKeys) Page.initial) = Some (1, 15).
Proof. vm_compute. split; reflexivity. Qed.

(** After a click on Next the cursor is no longer on the page drawn. *)
Example cursor_left_behind :
  option_map (fun v => (Page.currentPage v, Page.cursorIndex v))
    (Page.handleAll sampleImages [Page.KeyDown Page.ArrowRight false []; Page.ClickNext]
                    Page.initial) = Some (1, 0).
Proof. vm_compute. reflexivity. Qed.


(** ** The sampling parameters and the accumulators *)

Lemma hexValue_digitChar (d : Z) : 0 <= d < 16 -> JS.hexValue (JS.digitChar d) = Some d.
Proof.
  intros Hd. unfold JS.digitChar, JS.hexValue.
  destruct (Z.ltb_spec d 10).
  - replace ((48 <=? 48 + d) && (48 + d <=? 57)) with true
      by (symmetry; apply andb_true_iff; lia).
    f_equal. lia.
  - replace ((48 <=? 87 + d) && (87 + d <=? 57)) with false
      by (symmetry; apply andb_false_iff; lia).
    replace ((97 <=? 87 + d) && (87 + d <=? 102)) with true
      by (symmetry; apply andb_true_iff; lia).
    f_equal. lia.
Qed.

Lemma parseInt16_digits (hi lo : Z) :
  0 <= hi < 16 -> 0 <= lo < 16 ->
  JS.parseInt16 [JS.digitChar hi; JS.digitChar lo] = Some (16 * hi + lo).
Proof.
  intros Hhi Hlo. unfold JS.parseInt16. cbn [JS.parseHex_from].
  rewrite !hexValue_digitChar by assumption. f_equal. lia.
Qed.

(** X20: parsing the hexadecimal digits back gives the bytes of the
    accumulator: the segment count before clamping is read off bits 24-25
    of the first accumulator (as an unsigned 32-bit number), the frames per
    segment off its bits 16-23; the second accumulator plays no part. *)
Theorem sampling_from_accumulator (videoPath : list Z) :
  let h1 := JS.ushr0 (fst (hashPath_loop videoPath 5381 52711)) in
  baseSegmentCount (hashPath videoPath) = Some (h1 / 2 ^ 24 mod 4 + 7) /\
  framesPerSegment (hashPath videoPath) = Some (h1 / 2 ^ 16 mod 256 mod 11 + 10).
Proof.
  cbn zeta. rewrite hashPath_eq.
  pose proof (ushr0_range (fst (hashPath_loop videoPath 5381 52711))) as Hr.
  change (16 ^ Z.of_nat 8) with 4294967296 in Hr.
  set (n := JS.ushr0 (fst (hashPath_loop videoPath 5381 52711))) in *.
  unfold baseSegmentCount, framesPerSegment, hex8, JS.slice.
  cbn [List.map app skipn firstn Nat.sub].
  change (16 ^ 7) with 268435456. change (16 ^ 6) with 16777216.
  change (16 ^ 5) with 1048576. change (16 ^ 4) with 65536.
  change (2 ^ 24) with 16777216. change (2 ^ 16) with 65536.
  rewrite !parseInt16_digits by (apply Z.mod_pos_bound; lia).
  cbn [option_map].
  pose proof (Z.div_mod n 268435456 ltac:(lia)).
  pose proof (Z.mod_pos_bound n 268435456 ltac:(lia)).
  pose proof (Z.div_mod n 16777216 ltac:(lia)).
  pose proof (Z.mod_pos_bound n 16777216 ltac:(lia)).
  pose proof (Z.div_mod n 1048576 ltac:(lia)).
  pose proof (Z.mod_pos_bound n 1048576 ltac:(lia)).
  pose proof (Z.div_mod n 65536 ltac:(lia)).
  pose proof (Z.mod_pos_bound n 65536 ltac:(lia)).
  set (a := n / 268435456) in *. set (b := n / 16777216) in *.
  set (c := n / 1048576) in *. set (d := n / 65536) in *.
  pose proof (Z.div_mod a 16 ltac:(lia)). pose proof (Z.mod_pos_bound a 16 ltac:(lia)).
  pose proof (Z.div_mod b 16 ltac:(lia)). pose proof (Z.mod_pos_bound b 16 ltac:(lia)).
  pose proof (Z.div_mod c 16 ltac:(lia)). pose proof (Z.mod_pos_bound c 16 ltac:(lia)).
  pose proof (Z.div_mod d 16 ltac:(lia)). pose proof (Z.mod_pos_bound d 16 ltac:(lia)).
  pose proof (Z.div_mod d 256 ltac:(lia)). pose proof (Z.mod_pos_bound d 256 ltac:(lia)).
  assert (Hb : 16 * (a mod 16) + b mod 16 = b) by lia.
  assert (Hd : 16 * (c mod 16) + d mod 16 = d mod 256) by lia.
  rewrite Hb, Hd. split; reflexivity.
Qed.

